(** * bianka/basic: the websocket client's connection lifecycle

    A shallow embedding of [basic/client.go]: the [WsClient] structure, its
    constructor and control surface ([Dial], [Run], [Close], [Reset],
    [AuthSuccess], ...), and the two goroutines [readMessage] and
    [eventLoop].

    Goroutines are modelled as threads with a program counter, one step per
    shared-memory access or I/O action, and a run of the program is a list of
    scheduler actions.  The transport (gorilla/websocket), the frame codec
    (package proto) and the logger are outside of this file's source: the
    transport and the codec are oracles carried by the world, and logging is
    an event of the trace. *)

From stdpp Require Import gmap strings list pretty.
From Stdlib Require Import ZArith Lia.

Local Open Scope Z_scope.

(** ** Constants *)

(** The close types of [client.go]. *)
Definition CloseAuthFailed : Z := 1.
Definition CloseActively : Z := 2.
Definition CloseReadingConnError : Z := 3.
Definition CloseReceivedShutdownMessage : Z := 4.
Definition CloseTypeUnknown : Z := 5.

(** Frame kinds and the close code of gorilla/websocket (RFC 6455). *)
Module websocket.
Definition TextMessage : Z := 1.
Definition BinaryMessage : Z := 2.
Definition CloseMessage : Z := 8.
Definition PingMessage : Z := 9.
Definition PongMessage : Z := 10.
Definition CloseNormalClosure : Z := 1000.

(** [FormatCloseMessage code text]: the code as two big-endian bytes,
    followed by the text. *)
Definition FormatCloseMessage (code : Z) (text : list Z) : list Z :=
  [Z.land (Z.shiftr code 8) 255; Z.land code 255] ++ text.
End websocket.

(** [time.Duration] counts nanoseconds. *)
Module time.
Definition Nanosecond : Z := 1.
Definition Second : Z := 1000000000.
End time.

(** Capacity of the message queue, [make(chan *proto.Message, 1024)]. *)
Definition msgChanCap : nat := 1024.

(** ** Data *)

(** A Go [error] is represented by its [Error()] text. *)
Abbreviation error := string (only parsing).

(** [errors.Wrapf(err, format, args...)]: the formatted message, a colon,
    the cause. *)
Definition Wrapf (cause : error) (msg : string) : error :=
  msg +:+ ": " +:+ cause.

(** [%v] of a [[]string]: the elements between brackets, separated by one
    space. *)
Fixpoint join_sp (l : list string) : string :=
  match l with
  | [] => ""
  | [x] => x
  | x :: rest => x +:+ " " +:+ join_sp rest
  end.

Definition fmt_v (l : list string) : string := "[" +:+ join_sp l +:+ "]".

(** [proto.Message] seen through the two accessors the client uses. *)
Record Message := mkMessage { Operation : Z; Payload : list Z }.

(** [type DispatcherHandle func(msg *proto.Message) error]. *)
Abbreviation DispatcherHandle := (Message -> option error) (only parsing).

(** A live transport handle, [*websocket.Conn], is an index in the world's
    table of connections. *)
Definition Conn := nat.

(** What one [conn.ReadMessage()] returns. *)
Record ReadResult := mkRead {
  r_msgType : Z;
  r_buf : list Z;
  r_err : option error
}.

(** The state of one connection of the transport. *)
Record ConnState := mkConn {
  inbox : list ReadResult;          (* what the peer sends, in order *)
  conn_closed : bool;               (* [conn.Close()] was called *)
  closeErr : option error;          (* what [conn.Close()] returns *)
  writeErrs : list (option error)   (* results of the next writes *)
}.

(** The result of [websocket.DefaultDialer.Dial(link, nil)]: the dialer
    returns a nil connection together with every error. *)
Inductive DialResult :=
| DialOk (c : Conn)
| DialFail (e : error).

(** The frame codec, package [proto], through what the client calls:
    [proto.UnpackMessage], the message built by
    [proto.PackMessage(proto.HeaderDefaultSequence, proto.OperationHeartbeat, nil)]
    and [Message.ToBytes]. *)
Record Codec := mkCodec {
  UnpackMessage : list Z -> error + list Message;
  heartbeatMessage : Message;
  ToBytes : Message -> list Z
}.

(** A [sync.Once]: the [done] flag and its mutex. *)
Record Once := mkOnce { done : bool; locked : bool }.

(** The structure [WsClient].  [once] and [closeChan] are references into
    the world's heaps; [onClose] is an opaque callback, known by a name. *)
Record WsClient := mkClient {
  logger : nat;
  conn : option Conn;
  msgChan : list (option Message);
  dispatcher : gmap Z DispatcherHandle;
  authed : bool;
  onClose : option nat;
  closeWait : Z;
  once : nat;
  closeChan : nat;
  isClosed : bool
}.

Inductive Level := LDebug | LInfo | LError.

Inductive Attr :=
| AInt (key : string) (v : Z)
| AStr (key : string) (v : string).

(** What an observer of the program sees. *)
Inductive Event :=
| EvLog (lvl : Level) (msg : string) (attrs : list Attr)
| EvDial (link : string)
| EvWrite (c : Conn) (msgType : Z) (data : list Z)
| EvConnClose (c : Conn)
| EvOnClose (callback : nat) (closeType : Z)
| EvHandle (op : Z) (msg : Message).

Record World := mkWorld {
  client : WsClient;
  onces : list Once;                   (* heap of [sync.Once] objects *)
  chans : list bool;                   (* heap of [chan struct{}]: closed? *)
  conns : list ConnState;              (* the transport's connections *)
  dialer : string -> nat -> DialResult; (* link, number of earlier dials *)
  dialed : nat;
  codec : Codec;
  trace : list Event
}.

(** *** Field updates *)

Definition with_client (f : WsClient -> WsClient) (w : World) : World :=
  mkWorld (f (client w)) (onces w) (chans w) (conns w) (dialer w) (dialed w)
          (codec w) (trace w).

Definition set_conn (c : option Conn) (k : WsClient) : WsClient :=
  mkClient (logger k) c (msgChan k) (dispatcher k) (authed k) (onClose k)
           (closeWait k) (once k) (closeChan k) (isClosed k).

Definition set_msgChan (q : list (option Message)) (k : WsClient) : WsClient :=
  mkClient (logger k) (conn k) q (dispatcher k) (authed k) (onClose k)
           (closeWait k) (once k) (closeChan k) (isClosed k).

Definition set_dispatcher (d : gmap Z DispatcherHandle) (k : WsClient)
  : WsClient :=
  mkClient (logger k) (conn k) (msgChan k) d (authed k) (onClose k)
           (closeWait k) (once k) (closeChan k) (isClosed k).

Definition set_authed (b : bool) (k : WsClient) : WsClient :=
  mkClient (logger k) (conn k) (msgChan k) (dispatcher k) b (onClose k)
           (closeWait k) (once k) (closeChan k) (isClosed k).

Definition set_onClose (f : option nat) (k : WsClient) : WsClient :=
  mkClient (logger k) (conn k) (msgChan k) (dispatcher k) (authed k) f
           (closeWait k) (once k) (closeChan k) (isClosed k).

Definition set_closeWait (n : Z) (k : WsClient) : WsClient :=
  mkClient (logger k) (conn k) (msgChan k) (dispatcher k) (authed k)
           (onClose k) n (once k) (closeChan k) (isClosed k).

Definition set_once (o : nat) (k : WsClient) : WsClient :=
  mkClient (logger k) (conn k) (msgChan k) (dispatcher k) (authed k)
           (onClose k) (closeWait k) o (closeChan k) (isClosed k).

Definition set_closeChan (ch : nat) (k : WsClient) : WsClient :=
  mkClient (logger k) (conn k) (msgChan k) (dispatcher k) (authed k)
           (onClose k) (closeWait k) (once k) ch (isClosed k).

Definition set_isClosed (b : bool) (k : WsClient) : WsClient :=
  mkClient (logger k) (conn k) (msgChan k) (dispatcher k) (authed k)
           (onClose k) (closeWait k) (once k) (closeChan k) b.

Definition set_onces (os : list Once) (w : World) : World :=
  mkWorld (client w) os (chans w) (conns w) (dialer w) (dialed w)
          (codec w) (trace w).

Definition set_chans (cs : list bool) (w : World) : World :=
  mkWorld (client w) (onces w) cs (conns w) (dialer w) (dialed w)
          (codec w) (trace w).

Definition set_conns (cs : list ConnState) (w : World) : World :=
  mkWorld (client w) (onces w) (chans w) cs (dialer w) (dialed w)
          (codec w) (trace w).

Definition set_dialed (n : nat) (w : World) : World :=
  mkWorld (client w) (onces w) (chans w) (conns w) (dialer w) n (codec w)
          (trace w).

(** An event is appended to the trace, which is in chronological order. *)
Definition emit (e : Event) (w : World) : World :=
  mkWorld (client w) (onces w) (chans w) (conns w) (dialer w) (dialed w)
          (codec w) (trace w ++ [e]).

Definition log (lvl : Level) (msg : string) (attrs : list Attr) (w : World)
  : World :=
  emit (EvLog lvl msg attrs) w.

(** ** The transport *)

(** [websocket.DefaultDialer.Dial(link, nil)]. *)
Definition net_dial (link : string) (w : World) : DialResult * World :=
  (dialer w link (dialed w), set_dialed (S (dialed w)) (emit (EvDial link) w)).

(** [conn.WriteMessage(msgType, data)] on a live handle: a closed or unknown
    connection refuses the write, otherwise the transport decides. *)
Definition net_write (c : Conn) (msgType : Z) (data : list Z) (w : World)
  : option error * World :=
  let w1 := emit (EvWrite c msgType data) w in
  match conns w !! c with
  | None => (Some "write: bad connection", w1)
  | Some cs =>
      if conn_closed cs then (Some "write: use of closed connection", w1)
      else match writeErrs cs with
           | [] => (None, w1)
           | r :: rest =>
               (r, set_conns (<[c := mkConn (inbox cs) (conn_closed cs)
                                         (closeErr cs) rest]> (conns w1)) w1)
           end
  end.

(** [conn.Close()]. *)
Definition net_close (c : Conn) (w : World) : option error * World :=
  let w1 := emit (EvConnClose c) w in
  match conns w !! c with
  | None => (Some "close: bad connection", w1)
  | Some cs =>
      (closeErr cs,
       set_conns (<[c := mkConn (inbox cs) true (closeErr cs)
                                (writeErrs cs)]> (conns w1)) w1)
  end.

(** [conn.ReadMessage()]: [None] while the call blocks.  A closed connection
    fails the read; otherwise the next frame of the peer is delivered. *)
Definition net_read (c : Conn) (w : World) : option (ReadResult * World) :=
  match conns w !! c with
  | None => Some (mkRead (-1) [] (Some "read: bad connection"), w)
  | Some cs =>
      if conn_closed cs
      then Some (mkRead (-1) [] (Some "read: use of closed connection"), w)
      else match inbox cs with
           | [] => None
           | r :: rest =>
               Some (r, set_conns (<[c := mkConn rest (conn_closed cs)
                                          (closeErr cs) (writeErrs cs)]>
                                     (conns w)) w)
           end
  end.

(** ** Construction and the sequential control surface *)

Definition AuthSuccess (w : World) : World := with_client (set_authed true) w.

Definition IsAuthed (w : World) : bool := authed (client w).

Definition WithOnClose (cb : option nat) (w : World) : World :=
  with_client (set_onClose cb) w.

(** A nil map is replaced by an empty one. *)
Definition initDispatcherHandleMap
    (dispatcherHandleMap : option (gmap Z DispatcherHandle)) (k : WsClient)
  : WsClient :=
  set_dispatcher (default ∅ dispatcherHandleMap) k.

(** [NewWsClient]: an empty queue, a zero wait group, a new [sync.Once] and
    a new open channel, both allocated at the end of their heap. *)
Definition NewWsClient
    (dispatcherHandleMap : option (gmap Z DispatcherHandle)) (lg : nat)
    (cs : list ConnState) (d : string -> nat -> DialResult) (cd : Codec)
  : World :=
  mkWorld
    (initDispatcherHandleMap dispatcherHandleMap
       (mkClient lg None [] ∅ false None 0 0%nat 0%nat false))
    [mkOnce false false] [false] cs d 0%nat cd [].

(** [Reset]: a zero wait group, a new [sync.Once], both flags cleared, a new
    channel. *)
Definition Reset (w : World) : World :=
  let w1 := with_client (set_closeWait 0) w in
  let w2 := with_client (set_once (length (onces w1)))
              (set_onces (onces w1 ++ [mkOnce false false]) w1) in
  let w3 := with_client (set_authed false) w2 in
  let w4 := with_client (set_isClosed false) w3 in
  with_client (set_closeChan (length (chans w4)))
    (set_chans (chans w4 ++ [false]) w4).

(** The loop of [Dial]: [err] is the variable declared before the loop. *)
Fixpoint dial_loop (links : list string) (err : option error) (w : World)
  : option error * World :=
  match links with
  | [] => (err, w)
  | link :: rest =>
      let '(res, w1) := net_dial link w in
      match res with
      | DialFail e =>
          dial_loop rest (Some e)
            (log LError "websocket dial fail"
                 [AStr "link" link; AStr "err" e]
                 (with_client (set_conn None) w1))
      | DialOk c => (None, with_client (set_conn (Some c)) w1)
      end
  end.

Definition Dial (links : list string) (w : World) : option error * World :=
  match dial_loop links None w with
  | (Some err, w1) =>
      (Some (Wrapf err ("websocket dial fail. links:" +:+ fmt_v links)), w1)
  | (None, w1) => (None, log LInfo "dial success" [] w1)
  end.

(** [SendMessage]: [None] when the connection is nil, where the call
    panics. *)
Definition bytes_to_string (bs : list Z) : string :=
  foldr (fun b s => String (Ascii.ascii_of_N (Z.to_N b)) s) "" bs.

Definition SendMessage (msg : Message) (w : World)
  : option (option error * World) :=
  match conn (client w) with
  | None => None
  | Some c =>
      let '(r, w1) := net_write c websocket.BinaryMessage (ToBytes (codec w) msg) w in
      match r with
      | Some err =>
          Some (Some (Wrapf err ("send message fail. payload:"
                                   +:+ bytes_to_string (Payload msg))), w1)
      | None => Some (None, w1)
      end
  end.

Definition SendHeartbeat (w : World) : option (option error * World) :=
  SendMessage (heartbeatMessage (codec w)) w.

(** ** Goroutines *)

(** Program points of [Close]: the log line, the close frame, the three
    points of [once.Do] before the guarded function (the unlocked test of
    [done], the mutex, the test of [done] under the mutex), the five
    statements of the guarded function, the two deferred actions of
    [once.Do], and the return. *)
Inductive ClosePc :=
| CLog | CWrite
| CDoFast | CDoLock | CDoCheck
| CBodyCloseChan | CBodySetClosed | CBodyWait | CBodyConnClose | CBodyOnClose
| CDoStore | CDoUnlock
| CRet.

(** Program points of [readMessage]. *)
Inductive ReaderPc :=
| RStart | RAdd
| RRead
| RGot (r : ReadResult)
| RPush (msgs : list Message)
| RDeferLog | RDeferDone
| RExit.

(** The timer and the ticker of one [eventLoop]: the time since both were
    created, and whether a value waits in [tr.C] and in [ticker.C] (each
    channel holds one value; the ticker drops a tick nobody took). *)
Record Timers := mkTimers { elapsed : Z; trC : bool; tickC : bool }.

Definition authTimeout : Z := time.Second * 10.
Definition heartbeatPeriod : Z := time.Second * 15.

Definition advance (d : Z) (tm : Timers) : Timers :=
  let e' := elapsed tm + d in
  mkTimers e'
    (trC tm || ((elapsed tm <? authTimeout) && (authTimeout <=? e')))
    (tickC tm || (elapsed tm / heartbeatPeriod <? e' / heartbeatPeriod)).

(** Program points of [eventLoop]. *)
Inductive EventPc :=
| EStart | EAdd | ENewTimers
| ESelect (tm : Timers)
| EDeferLog | EDeferDone
| EExit.

Inductive Thread :=
| TClose (t : Z) (pc : ClosePc) (err : option error)
| TReader (pc : ReaderPc)
| TEvent (pc : EventPc).

(** The case a [select] takes. *)
Inductive Select := SelClose | SelTimer | SelTicker | SelMsg.

Inductive StepResult :=
| Blocked                                           (* waits, or has returned *)
| Panic (why : string)
| Next (th : Thread) (w : World) (spawned : list Thread).

Definition set_done (b : bool) (o : Once) : Once := mkOnce b (locked o).
Definition set_locked (b : bool) (o : Once) : Once := mkOnce (done o) b.

Definition update_once (f : Once -> Once) (w : World) : World :=
  match onces w !! once (client w) with
  | Some o => set_onces (<[once (client w) := f o]> (onces w)) w
  | None => w
  end.

(** One step of a call [Close(t)]; [err] is the named result. *)
Definition Close_step (t : Z) (pc : ClosePc) (err : option error) (w : World)
  : StepResult :=
  match pc with
  | CLog =>
      Next (TClose t CWrite err)
           (log LInfo "ws client close" [AInt "close_type" t] w) []
  | CWrite =>
      match conn (client w) with
      | None => Panic "nil connection"
      | Some c =>
          let '(_, w1) :=
            net_write c websocket.CloseMessage
              (websocket.FormatCloseMessage websocket.CloseNormalClosure []) w in
          Next (TClose t CDoFast err) w1 []
      end
  | CDoFast =>
      match onces w !! once (client w) with
      | None => Panic "nil once"
      | Some o =>
          if done o then Next (TClose t CRet err) w []
          else Next (TClose t CDoLock err) w []
      end
  | CDoLock =>
      match onces w !! once (client w) with
      | None => Panic "nil once"
      | Some o =>
          if locked o then Blocked
          else Next (TClose t CDoCheck err) (update_once (set_locked true) w) []
      end
  | CDoCheck =>
      match onces w !! once (client w) with
      | None => Panic "nil once"
      | Some o =>
          if done o then Next (TClose t CDoUnlock err) w []
          else Next (TClose t CBodyCloseChan err) w []
      end
  | CBodyCloseChan =>
      match chans w !! closeChan (client w) with
      | None => Panic "close of nil channel"
      | Some true => Panic "close of closed channel"
      | Some false =>
          Next (TClose t CBodySetClosed err)
               (set_chans (<[closeChan (client w) := true]> (chans w)) w) []
      end
  | CBodySetClosed =>
      Next (TClose t CBodyWait err) (with_client (set_isClosed true) w) []
  | CBodyWait =>
      if closeWait (client w) =? 0
      then Next (TClose t CBodyConnClose err) w []
      else Blocked
  | CBodyConnClose =>
      match conn (client w) with
      | None => Panic "nil connection"
      | Some c =>
          let '(e, w1) := net_close c w in
          Next (TClose t CBodyOnClose e) w1 []
      end
  | CBodyOnClose =>
      match onClose (client w) with
      | Some cb => Next (TClose t CDoStore err) (emit (EvOnClose cb t) w) []
      | None => Next (TClose t CDoStore err) w []
      end
  | CDoStore =>
      Next (TClose t CDoUnlock err) (update_once (set_done true) w) []
  | CDoUnlock =>
      Next (TClose t CRet err) (update_once (set_locked false) w) []
  | CRet => Blocked
  end.

(** [closeWait.Add(delta)]: a negative counter panics. *)
Definition wg_add (delta : Z) (w : World) : option World :=
  let n := closeWait (client w) + delta in
  if n <? 0 then None else Some (with_client (set_closeWait n) w).

(** Where [readMessage] goes after the messages of one frame. *)
Definition push_next (rest : list Message) : ReaderPc :=
  match rest with
  | [] => RRead
  | _ => RPush rest
  end.

(** One step of [readMessage]. *)
Definition readMessage_step (pc : ReaderPc) (w : World) : StepResult :=
  match pc with
  | RStart => Next (TReader RAdd) (log LInfo "ws read message start" [] w) []
  | RAdd =>
      match wg_add 1 w with
      | Some w1 => Next (TReader RRead) w1 []
      | None => Panic "negative WaitGroup counter"
      end
  | RRead =>
      match conn (client w) with
      | None => Panic "nil connection"
      | Some c =>
          match net_read c w with
          | None => Blocked
          | Some (r, w1) => Next (TReader (RGot r)) w1 []
          end
      end
  | RGot r =>
      match r_err r with
      | Some e =>
          if isClosed (client w) then Next (TReader RDeferLog) w []
          else
            Next (TReader RDeferLog)
                 (log LError "read message fail"
                      [AStr "err" (Wrapf e ("msg_type:" +:+ pretty (r_msgType r)))]
                      w)
                 [TClose CloseReadingConnError CLog None]
      | None =>
          if r_msgType r =? websocket.CloseMessage then
            Next (TReader RDeferLog)
                 (log LInfo "received shutdown message"
                      [AInt "msg_type" (r_msgType r)] w)
                 [TClose CloseReceivedShutdownMessage CLog None]
          else if (r_msgType r =? websocket.PongMessage)
                  || (r_msgType r =? websocket.PingMessage) then
            Next (TReader RRead)
                 (log LDebug "read message" [AStr "msg_type" "ping/pong"] w) []
          else
            match UnpackMessage (codec w) (r_buf r) with
            | inl e =>
                Next (TReader RRead)
                     (log LError "unpack message fail" [AStr "err" e] w) []
            | inr msgList => Next (TReader (push_next msgList)) w []
            end
      end
  | RPush [] => Next (TReader RRead) w []
  | RPush (msg :: rest) =>
      if (length (msgChan (client w)) <? msgChanCap)%nat then
        Next (TReader (push_next rest))
             (with_client (set_msgChan (msgChan (client w) ++ [Some msg])) w) []
      else Blocked
  | RDeferLog =>
      Next (TReader RDeferDone) (log LInfo "ws read message stop" [] w) []
  | RDeferDone =>
      match wg_add (-1) w with
      | Some w1 => Next (TReader RExit) w1 []
      | None => Panic "negative WaitGroup counter"
      end
  | RExit => Blocked
  end.

(** The [msgChan] case of the [select]: [msg] was received. *)
Definition dispatch (msg : option Message) (w : World) : World :=
  match msg with
  | None => w
  | Some m =>
      match dispatcher (client w) !! Operation m with
      | Some handle =>
          let w1 := emit (EvHandle (Operation m) m) w in
          match handle m with
          | Some e => log LError "handle msg fail" [AStr "err" e] w1
          | None => w1
          end
      | None => w
      end
  end.

Arguments dispatch : simpl never.

(** One step of [eventLoop]; [sel] is the case the [select] takes, and the
    step waits when that case is not ready. *)
Definition eventLoop_step (pc : EventPc) (sel : Select) (w : World)
  : StepResult :=
  match pc with
  | EStart => Next (TEvent EAdd) (log LInfo "ws event loop start" [] w) []
  | EAdd =>
      match wg_add 1 w with
      | Some w1 => Next (TEvent ENewTimers) w1 []
      | None => Panic "negative WaitGroup counter"
      end
  | ENewTimers => Next (TEvent (ESelect (mkTimers 0 false false))) w []
  | ESelect tm =>
      match sel with
      | SelClose =>
          match chans w !! closeChan (client w) with
          | Some true => Next (TEvent EDeferLog) w []
          | _ => Blocked
          end
      | SelTimer =>
          if trC tm then
            if negb (authed (client w)) then
              Next (TEvent EDeferLog) (log LError "auth timeout" [] w) []
            else
              Next (TEvent (ESelect (mkTimers (elapsed tm) false (tickC tm)))) w []
          else Blocked
      | SelTicker =>
          if tickC tm then
            let tm' := mkTimers (elapsed tm) (trC tm) false in
            match SendHeartbeat (log LDebug "ws send heartbeat" [] w) with
            | None => Panic "nil connection"
            | Some (Some err, w1) =>
                Next (TEvent (ESelect tm'))
                     (log LError "send heartbeat fail" [AStr "err" err] w1) []
            | Some (None, w1) => Next (TEvent (ESelect tm')) w1 []
            end
          else Blocked
      | SelMsg =>
          match msgChan (client w) with
          | [] => Blocked
          | msg :: rest =>
              Next (TEvent (ESelect tm))
                   (dispatch msg (with_client (set_msgChan rest) w)) []
          end
      end
  | EDeferLog =>
      Next (TEvent EDeferDone) (log LInfo "ws event loop stop" [] w) []
  | EDeferDone =>
      match wg_add (-1) w with
      | Some w1 => Next (TEvent EExit) w1 []
      | None => Panic "negative WaitGroup counter"
      end
  | EExit => Blocked
  end.

Definition thread_step (th : Thread) (sel : Select) (w : World) : StepResult :=
  match th with
  | TClose t pc err => Close_step t pc err w
  | TReader pc => readMessage_step pc w
  | TEvent pc => eventLoop_step pc sel w
  end.

(** ** The running program *)

(** The goroutines, the world they share, and the panic that ended the
    process, if any. *)
Record Config := mkConfig {
  world : World;
  threads : list Thread;
  crashed : option string
}.

(** What the scheduler and the program's caller may do next: let one
    goroutine take a step, let time pass, call [Close(t)] (from a goroutine
    of the caller), call [AuthSuccess], call [Run]. *)
Inductive Action :=
| ActStep (tid : nat) (sel : Select)
| ActAdvance (d : Z)
| ActClose (t : Z)
| ActAuthSuccess
| ActRun.

Definition advance_thread (d : Z) (th : Thread) : Thread :=
  match th with
  | TEvent (ESelect tm) => TEvent (ESelect (advance d tm))
  | _ => th
  end.

(** [Run]: the reader first, then the event loop. *)
Definition Run (c : Config) : Config :=
  mkConfig (world c) (threads c ++ [TReader RStart; TEvent EStart]) (crashed c).

(** [None] when the action cannot be taken: the process has panicked, the
    goroutine does not exist, waits or has returned, or no time passes. *)
Definition exec_opt (a : Action) (c : Config) : option Config :=
  match crashed c with
  | Some _ => None
  | None =>
      match a with
      | ActStep tid sel =>
          match threads c !! tid with
          | None => None
          | Some th =>
              match thread_step th sel (world c) with
              | Blocked => None
              | Panic why => Some (mkConfig (world c) (threads c) (Some why))
              | Next th' w' spawned =>
                  Some (mkConfig w' (<[tid := th']> (threads c) ++ spawned) None)
              end
          end
      | ActAdvance d =>
          if 0 <? d
          then Some (mkConfig (world c) (advance_thread d <$> threads c) None)
          else None
      | ActClose t =>
          Some (mkConfig (world c) (threads c ++ [TClose t CLog None]) None)
      | ActAuthSuccess =>
          Some (mkConfig (AuthSuccess (world c)) (threads c) None)
      | ActRun => Some (Run c)
      end
  end.

(** An action that cannot be taken leaves the program as it is. *)
Definition exec (a : Action) (c : Config) : Config :=
  default c (exec_opt a c).

Definition run (acts : list Action) (c : Config) : Config :=
  foldl (fun c a => exec a c) c acts.

(** *** Observations *)

Definition is_conn_close (e : Event) : bool :=
  match e with EvConnClose _ => true | _ => false end.

Definition is_on_close (e : Event) : bool :=
  match e with EvOnClose _ _ => true | _ => false end.

Definition is_close_frame (e : Event) : bool :=
  match e with
  | EvWrite _ ty _ => ty =? websocket.CloseMessage
  | _ => false
  end.

Definition is_handle (e : Event) : bool :=
  match e with EvHandle _ _ => true | _ => false end.

Definition is_dial (e : Event) : bool :=
  match e with EvDial _ => true | _ => false end.

Definition count (p : Event -> bool) (tr : list Event) : nat :=
  length (List.filter p tr).

(** The calls to [Close] that have returned, with their results. *)
Definition returned (th : Thread) : option (option error) :=
  match th with
  | TClose _ CRet err => Some err
  | _ => None
  end.

Definition results (c : Config) : list (option error) :=
  omap returned (threads c).

(** The addresses dialed and the messages handed to a handler, in order. *)
Definition dialed_links (tr : list Event) : list string :=
  omap (fun e => match e with EvDial l => Some l | _ => None end) tr.

Definition handled (tr : list Event) : list Message :=
  omap (fun e => match e with EvHandle _ m => Some m | _ => None end) tr.

(** The close types the callback was invoked with, in order. *)
Definition on_close_types (tr : list Event) : list Z :=
  omap (fun e => match e with EvOnClose _ t => Some t | _ => None end) tr.

(** [s] contains [sub]. *)
Definition names (s sub : string) : Prop :=
  exists pre post, s = pre +:+ sub +:+ post.

(** ** A call run without interruption *)

(** [Close(t)] executed from its first statement to its return with no other
    goroutine taking a step in between: [None] when the call cannot return
    that way (it panics, or waits for the mutex or for the wait group). *)
Definition Close (t : Z) (w : World) : option (option error * World) :=
  let w1 := log LInfo "ws client close" [AInt "close_type" t] w in
  match conn (client w1) with
  | None => None
  | Some c =>
      let '(_, w2) :=
        net_write c websocket.CloseMessage
          (websocket.FormatCloseMessage websocket.CloseNormalClosure []) w1 in
      match onces w2 !! once (client w2) with
      | None => None
      | Some o =>
          if done o then Some (None, w2)
          else if locked o then None
          else
            match chans w2 !! closeChan (client w2) with
            | Some false =>
                let w3 :=
                  set_chans (<[closeChan (client w2) := true]> (chans w2)) w2 in
                let w4 := with_client (set_isClosed true) w3 in
                if closeWait (client w4) =? 0 then
                  let '(err, w5) := net_close c w4 in
                  let w6 :=
                    match onClose (client w5) with
                    | Some cb => emit (EvOnClose cb t) w5
                    | None => w5
                    end in
                  Some (err, update_once (fun _ => mkOnce true false) w6)
                else None
            | _ => None
            end
      end
  end.

(** The schedule that lets goroutine [tid] alone take [n] steps. *)
Definition solo (tid : nat) (n : nat) : list Action :=
  repeat (ActStep tid SelClose) n.

(** The schedule that runs the calls to [Close] of goroutines [0] to [n-1]
    one after the other. *)
Definition one_by_one (n : nat) : list Action :=
  flat_map (fun tid => solo tid 12) (seq 0 n).

(** ** Invariants of the close guard *)

Definition cur_once (w : World) : option Once := onces w !! once (client w).

(** What the physical close of the bound connection returns. *)
Definition close_result (w : World) : option error :=
  match conn (client w) with
  | None => None
  | Some c =>
      match conns w !! c with
      | None => Some "close: bad connection"
      | Some cs => closeErr cs
      end
  end.

(** The number of times a teardown invokes the callback. *)
Definition callbacks (w : World) : nat :=
  match onClose (client w) with Some _ => 1%nat | None => 0%nat end.

(** A call to [Close] that has not taken a step. *)
Definition not_started (th : Thread) : bool :=
  match th with
  | TClose _ CLog None => true
  | TClose _ _ _ => false
  | _ => true
  end.

(** The start of a connection lifetime: the guard is unused and no call to
    [Close] is under way. *)
Definition fresh (c : Config) : Prop :=
  crashed c = None /\
  cur_once (world c) = Some (mkOnce false false) /\
  Forall (fun th => not_started th = true) (threads c).

(** The goroutine holds the mutex of the guard. *)
Definition holds (th : Thread) : bool :=
  match th with
  | TClose _ pc _ =>
      match pc with
      | CLog | CWrite | CDoFast | CDoLock | CRet => false
      | _ => true
      end
  | _ => false
  end.

(** The goroutine is past the close frame of its call to [Close]. *)
Definition wrote (th : Thread) : nat :=
  match th with
  | TClose _ pc _ =>
      match pc with
      | CLog | CWrite => 0%nat
      | _ => 1%nat
      end
  | _ => 0%nat
  end.

(** The call to [Close] holds an error in its result variable. *)
Definition carries (th : Thread) : bool :=
  match th with
  | TClose _ _ (Some _) => true
  | _ => false
  end.

Definition is_close_call (th : Thread) : bool :=
  match th with TClose _ _ _ => true | _ => false end.

(** How far the teardown is, by the physical closes and the callbacks seen
    since the lifetime began at world [b]. *)
Section Stage.
Variables (b : World) (w : World).

Definition untouched : Prop :=
  count is_conn_close (trace w) = count is_conn_close (trace b) /\
  count is_on_close (trace w) = count is_on_close (trace b).

Definition conn_released : Prop :=
  count is_conn_close (trace w) = S (count is_conn_close (trace b)) /\
  count is_on_close (trace w) = count is_on_close (trace b).

Definition torn_down : Prop :=
  count is_conn_close (trace w) = S (count is_conn_close (trace b)) /\
  count is_on_close (trace w) = (count is_on_close (trace b) + callbacks b)%nat.

(** What the program point of one goroutine says about the guard [o] and
    about the teardown. *)
Definition thread_inv (o : Once) (th : Thread) : Prop :=
  match th with
  | TClose _ pc err =>
      match pc with
      | CLog | CWrite | CDoFast | CDoLock => err = None
      | CDoCheck =>
    locked o = true /\ err = None /\ (done o = false -> untouched)
      | CBodyCloseChan | CBodySetClosed | CBodyWait | CBodyConnClose =>
          locked o = true /\ done o = false /\ err = None /\ untouched
      | CBodyOnClose =>
          locked o = true /\ done o = false /\ err = close_result b /\
          conn_released
      | CDoStore =>
          locked o = true /\ done o = false /\ err = close_result b /\
          torn_down
      | CDoUnlock =>
          locked o = true /\ done o = true /\
          (err = None \/ err = close_result b)
      | CRet => done o = true /\ (err = None \/ err = close_result b)
      end
  | _ => True
  end.
End Stage.

(** The invariant of a lifetime that began at world [b]. *)
Record guard_inv (b : World) (c : Config) : Prop := mkGuardInv {
  gi_once_ptr : once (client (world c)) = once (client b);
  gi_onClose : onClose (client (world c)) = onClose (client b);
  gi_close_result : close_result (world c) = close_result b;
  gi_frames :
    (count is_close_frame (trace (world c))
     = count is_close_frame (trace b) + sum_list_with wrote (threads c))%nat;
  gi_guard : exists o,
    cur_once (world c) = Some o /\
    (forall i th, threads c !! i = Some th -> thread_inv b (world c) o th) /\
    (forall i j th th',
        threads c !! i = Some th -> threads c !! j = Some th' ->
        holds th = true -> holds th' = true -> i = j) /\
    (done o = true -> torn_down b (world c)) /\
    (done o = false ->
     (forall i th, threads c !! i = Some th -> holds th = false) ->
     untouched b (world c));
  gi_carrier : forall i j th th',
    threads c !! i = Some th -> threads c !! j = Some th' ->
    carries th = true -> carries th' = true -> i = j
}.

(** ** Worlds used as concrete inputs *)

Definition demo_codec : Codec :=
  mkCodec (fun buf => inr [mkMessage 5 buf]) (mkMessage 2 []) Payload.

(** The address [ws://b] answers, every other address refuses. *)
Definition demo_dialer (link : string) (n : nat) : DialResult :=
  if String.eqb link "ws://b" then DialOk 0%nat
  else DialFail ("refused " +:+ link).

(** A connection whose physical close reports an error. *)
Definition demo_conn : ConnState := mkConn [] false (Some "broken pipe") [].

Definition demo_new : World :=
  NewWsClient None 7%nat [demo_conn] demo_dialer demo_codec.

(** A client with a callback, dialed over two candidates. *)
Definition demo_world : World :=
  WithOnClose (Some 1%nat) (snd (Dial ["ws://a"; "ws://b"] demo_new)).

(** Two calls [Close(CloseActively)] about to start. *)
Definition demo_two_calls : Config :=
  mkConfig demo_world
    [TClose CloseActively CLog None; TClose CloseActively CLog None] None.

(** * Properties *)

(** ** Strings *)

Lemma append_assoc (a b c : string) : (a +:+ b) +:+ c = a +:+ (b +:+ c).
Proof.
  induction a as [|x a IH]; [reflexivity|].
  change (String x ((a +:+ b) +:+ c) = String x (a +:+ b +:+ c)).
  now rewrite IH.
Qed.

Lemma names_refl (s : string) : names s s.
Proof.
  exists "", "". change (s = s +:+ "").
  induction s as [|x s IH]; [reflexivity|].
  change (String x s = String x (s +:+ "")). now rewrite <- IH.
Qed.

Lemma names_app_l (s sub pre : string) : names s sub -> names (pre +:+ s) sub.
Proof.
  intros (p & q & ->). exists (pre +:+ p), q. now rewrite append_assoc.
Qed.

Lemma names_app_r (s sub post : string) : names s sub -> names (s +:+ post) sub.
Proof.
  intros (p & q & ->). exists p, (q +:+ post). now rewrite !append_assoc.
Qed.

Lemma join_sp_names (l : list string) (x : string) :
  x ∈ l -> names (join_sp l) x.
Proof.
  induction l as [|y l IH]; intros Hin; [inversion Hin|].
  apply elem_of_cons in Hin as [->|Hin].
  - destruct l as [|z l]; cbn [join_sp]; [apply names_refl|].
    apply names_app_r, names_refl.
  - destruct l as [|z l]; [inversion Hin|].
    change (join_sp (y :: z :: l)) with (y +:+ " " +:+ join_sp (z :: l)).
    apply names_app_l, names_app_l, IH, Hin.
Qed.

Lemma fmt_v_names (l : list string) (x : string) : x ∈ l -> names (fmt_v l) x.
Proof.
  intros Hin. unfold fmt_v.
  apply names_app_l, names_app_r, join_sp_names, Hin.
Qed.

(** ** Traces *)

Lemma count_app (p : Event -> bool) (l k : list Event) :
  count p (l ++ k) = (count p l + count p k)%nat.
Proof. unfold count. now rewrite List.filter_app, length_app. Qed.

Lemma count_snoc (p : Event -> bool) (l : list Event) (e : Event) :
  count p (l ++ [e]) = (count p l + if p e then 1 else 0)%nat.
Proof. rewrite count_app. unfold count. simpl. now destruct (p e). Qed.

Lemma dialed_links_app (l k : list Event) :
  dialed_links (l ++ k) = dialed_links l ++ dialed_links k.
Proof. apply omap_app. Qed.

Lemma handled_app (l k : list Event) : handled (l ++ k) = handled l ++ handled k.
Proof. apply omap_app. Qed.

Lemma on_close_types_app (l k : list Event) :
  on_close_types (l ++ k) = on_close_types l ++ on_close_types k.
Proof. apply omap_app. Qed.

(** ** Dial *)

(** Every candidate of [links] fails, the first one being dial number [n]. *)
Definition all_fail (d : string -> nat -> DialResult) (n : nat)
    (links : list string) : Prop :=
  forall j l, links !! j = Some l -> exists e, d l (n + j)%nat = DialFail e.

Lemma all_fail_tail d n l links :
  all_fail d n (l :: links) -> all_fail d (S n) links.
Proof.
  intros H j x Hx. destruct (H (S j) x Hx) as [e He]. exists e.
  now replace (S n + j)%nat with (n + S j)%nat by lia.
Qed.

Lemma dial_loop_all_fail (links : list string) (err : option error) (w : World) :
  all_fail (dialer w) (dialed w) links ->
  exists err' w',
    dial_loop links err w = (err', w') /\
    dialed_links (trace w') = dialed_links (trace w) ++ links /\
    msgChan (client w') = msgChan (client w) /\
    match links with
    | [] => err' = err /\ conn (client w') = conn (client w)
    | _ => is_Some err' /\ conn (client w') = None
    end.
Proof.
  revert err w. induction links as [|l links IH]; intros err w Hall.
  - exists err, w. cbn. rewrite app_nil_r. auto.
  - destruct (Hall 0%nat l eq_refl) as [e He].
    rewrite Nat.add_0_r in He. cbn [dial_loop net_dial]. rewrite He.
    edestruct (IH (Some e)) as (err' & w' & Heq & Htr & Hq & Hrest);
      [|exists err', w'; rewrite Heq; split; [reflexivity|]].
    + cbn. eapply all_fail_tail, Hall.
    + cbn in Htr, Hq. rewrite Htr, Hq.
      rewrite !dialed_links_app. cbn. rewrite app_nil_r, <- app_assoc.
      split; [reflexivity|]. split; [reflexivity|].
      destruct links; [|exact Hrest].
      destruct Hrest as [-> Hc]. cbn in Hc. split; [eauto|exact Hc].
Qed.

Lemma dial_loop_first_success (links : list string) (i : nat) (link : string)
    (c : Conn) (err : option error) (w : World) :
  links !! i = Some link ->
  dialer w link (dialed w + i)%nat = DialOk c ->
  all_fail (dialer w) (dialed w) (take i links) ->
  exists w',
    dial_loop links err w = (None, w') /\
    conn (client w') = Some c /\
    msgChan (client w') = msgChan (client w) /\
    dialed_links (trace w') = dialed_links (trace w) ++ take (S i) links.
Proof.
  revert i err w. induction links as [|l links IH]; intros i err w Hi Hok Hfail;
    [discriminate|].
  destruct i as [|i].
  - injection Hi as ->. rewrite Nat.add_0_r in Hok.
    cbn [dial_loop net_dial]. rewrite Hok. eexists. split; [reflexivity|].
    cbn. rewrite dialed_links_app, take_0. auto.
  - destruct (Hfail 0%nat l eq_refl) as [e He]. rewrite Nat.add_0_r in He.
    cbn [dial_loop net_dial]. rewrite He.
    edestruct (IH i (Some e)) as (w' & Heq & Hc & Hq & Htr);
      [exact Hi| | |exists w'; rewrite Heq; split; [reflexivity|]].
    + cbn. rewrite <- Hok. f_equal. lia.
    + cbn. eapply all_fail_tail, Hfail.
    + cbn in Htr, Hq. rewrite Htr, Hq, !dialed_links_app. cbn.
      rewrite app_nil_r, <- app_assoc. auto.
Qed.

(** C5: [Dial] tries the candidates in order.  When candidate [i] is the
    first one that connects, [Dial] returns no error, binds that connection
    and has dialed exactly the candidates up to [i], whatever failed before.
    When the list is not empty and every candidate fails, [Dial] returns an
    error whose text names every candidate, has dialed all of them in order,
    and leaves no connection bound. *)
Theorem Dial_first_success_or_aggregate (links : list string) (w : World) :
  (forall i link c,
      links !! i = Some link ->
      dialer w link (dialed w + i)%nat = DialOk c ->
      all_fail (dialer w) (dialed w) (take i links) ->
      fst (Dial links w) = None /\
      conn (client (snd (Dial links w))) = Some c /\
      dialed_links (trace (snd (Dial links w)))
      = dialed_links (trace w) ++ take (S i) links) /\
  (links <> [] ->
   all_fail (dialer w) (dialed w) links ->
   (exists cause,
       fst (Dial links w)
       = Some (Wrapf cause ("websocket dial fail. links:" +:+ fmt_v links))) /\
   (exists e, fst (Dial links w) = Some e /\ forall l, l ∈ links -> names e l) /\
   conn (client (snd (Dial links w))) = None /\
   dialed_links (trace (snd (Dial links w))) = dialed_links (trace w) ++ links).
Proof.
  split.
  - intros i link c Hi Hok Hfail.
    destruct (dial_loop_first_success links i link c None w Hi Hok Hfail)
      as (w' & Heq & Hc & _ & Htr).
    unfold Dial. rewrite Heq. cbn. rewrite dialed_links_app. cbn.
    rewrite app_nil_r. auto.
  - intros Hne Hall.
    destruct (dial_loop_all_fail links None w Hall) as (err & w' & Heq & Htr & _ & Hrest).
    destruct links as [|l0 links]; [congruence|].
    destruct Hrest as [[cause ->] Hc].
    unfold Dial. rewrite Heq. cbn [fst snd].
    split; [eauto|]. split; [|auto].
    eexists. split; [reflexivity|]. intros l Hl.
    unfold Wrapf. apply names_app_r, names_app_l, fmt_v_names, Hl.
Qed.

Lemma Dial_first_success_or_aggregate_witness :
  (fst (Dial ["ws://a"; "ws://b"] demo_new) = None /\
   conn (client (snd (Dial ["ws://a"; "ws://b"] demo_new))) = Some 0%nat) /\
  conn (client (snd (Dial ["ws://a"; "ws://c"] demo_new))) = None.
Proof.
  split.
  - destruct (Dial_first_success_or_aggregate ["ws://a"; "ws://b"] demo_new)
      as [Hok _].
    destruct (Hok 1%nat "ws://b" 0%nat) as (H1 & H2 & _);
      [reflexivity | reflexivity | | auto].
    intros j l Hj. destruct j as [|[|j]]; [|discriminate..].
    injection Hj as <-. eexists. reflexivity.
  - destruct (Dial_first_success_or_aggregate ["ws://a"; "ws://c"] demo_new)
      as [_ Hfail].
    apply Hfail; [discriminate|].
    intros j l Hj. destruct j as [|[|[|j]]]; [| |discriminate..];
      injection Hj as <-; eexists; reflexivity.
Defined.

(** C9: [Dial] with no candidate dials nothing, leaves the connection field
    as it was, and returns no error: the same result as a dial whose
    candidate connects. *)
Theorem Dial_no_candidates (w : World) :
  fst (Dial [] w) = None /\
  conn (client (snd (Dial [] w))) = conn (client w) /\
  dialed_links (trace (snd (Dial [] w))) = dialed_links (trace w) /\
  dialed (snd (Dial [] w)) = dialed w /\
  snd (Dial [] w) = log LInfo "dial success" [] w /\
  fst (Dial [] w) = fst (Dial ["ws://b"] demo_new) /\
  conn (client (snd (Dial [] demo_new))) = None.
Proof.
  unfold Dial. cbn. rewrite dialed_links_app. cbn. rewrite app_nil_r.
  repeat split.
Qed.

(** ** Reset *)

(** C8: after [Reset] the guard is a new [sync.Once], unused and absent from
    the heap before the call, the close signal is a new open channel, absent
    from the heap before the call, both flags are cleared, and the dispatch
    table and the logger are the ones from before. *)
Theorem Reset_rearms (w : World) :
  cur_once (Reset w) = Some (mkOnce false false) /\
  onces w !! once (client (Reset w)) = None /\
  chans (Reset w) !! closeChan (client (Reset w)) = Some false /\
  chans w !! closeChan (client (Reset w)) = None /\
  authed (client (Reset w)) = false /\
  isClosed (client (Reset w)) = false /\
  dispatcher (client (Reset w)) = dispatcher (client w) /\
  logger (client (Reset w)) = logger (client w).
Proof.
  unfold cur_once, Reset. cbn.
  rewrite !lookup_app_r, !Nat.sub_diag by lia. cbn.
  repeat split; apply lookup_ge_None_2; lia.
Qed.

(** ** Steps of the program *)

Lemma exec_step (c : Config) (tid : nat) (sel : Select) (th th' : Thread)
    (w' : World) (sp : list Thread) :
  crashed c = None ->
  threads c !! tid = Some th ->
  thread_step th sel (world c) = Next th' w' sp ->
  exec (ActStep tid sel) c = mkConfig w' (<[tid := th']> (threads c) ++ sp) None.
Proof.
  intros Hc Hth Hst. unfold exec, exec_opt. now rewrite Hc, Hth, Hst.
Qed.

Lemma exec_step_alone (c : Config) (tid : nat) (sel : Select) (th th' : Thread)
    (w' : World) :
  crashed c = None ->
  threads c !! tid = Some th ->
  thread_step th sel (world c) = Next th' w' [] ->
  exec (ActStep tid sel) c = mkConfig w' (<[tid := th']> (threads c)) None.
Proof.
  intros Hc Hth Hst. erewrite exec_step by eassumption. now rewrite app_nil_r.
Qed.

(** Rewrites the step taken from an explicit configuration. *)
Ltac step_alone :=
  match goal with
  | |- context [exec (ActStep ?t ?s) (mkConfig ?w ?ths ?cr)] =>
      erewrite (exec_step_alone (mkConfig w ths cr) t s)
  end.

Lemma run_app (xs ys : list Action) (c : Config) :
  run (xs ++ ys) c = run ys (run xs c).
Proof. apply foldl_app. Qed.

Lemma run_cons (a : Action) (xs : list Action) (c : Config) :
  run (a :: xs) c = run xs (exec a c).
Proof. reflexivity. Qed.

(** ** The event loop *)

(** C7: when the event loop takes a message off the queue and its operation
    code has a handler, the handler is invoked on it, an error of the handler
    adds one log line, and the loop is back at its [select]; when the code
    has no handler, the message leaves the queue, nothing is logged, and the
    loop is back at its [select]. *)
Theorem eventLoop_dispatch (tm : Timers) (w : World) (m : Message)
    (rest : list (option Message)) :
  msgChan (client w) = Some m :: rest ->
  (forall handle,
      dispatcher (client w) !! Operation m = Some handle ->
      exists w',
        eventLoop_step (ESelect tm) SelMsg w = Next (TEvent (ESelect tm)) w' [] /\
        msgChan (client w') = rest /\
        trace w' = trace w ++ EvHandle (Operation m) m ::
                     match handle m with
                     | Some e => [EvLog LError "handle msg fail" [AStr "err" e]]
                     | None => []
                     end) /\
  (dispatcher (client w) !! Operation m = None ->
   eventLoop_step (ESelect tm) SelMsg w
   = Next (TEvent (ESelect tm)) (with_client (set_msgChan rest) w) [] /\
   trace (with_client (set_msgChan rest) w) = trace w).
Proof.
  intros Hq. split.
  - intros handle Hh. simpl. rewrite Hq. unfold dispatch. simpl. rewrite Hh.
    eexists. split; [reflexivity|].
    destruct (handle m); simpl; [rewrite <- app_assoc|]; auto.
  - intros Hnone. simpl. rewrite Hq. unfold dispatch. simpl. now rewrite Hnone.
Qed.

Lemma eventLoop_dispatch_witness :
  let w := with_client
             (fun k => set_msgChan [Some (mkMessage 9 [7])]
                         (set_dispatcher {[ 5 := fun _ => Some "bad" ]} k))
             demo_world in
  eventLoop_step (ESelect (mkTimers 0 false false)) SelMsg w
  = Next (TEvent (ESelect (mkTimers 0 false false)))
         (with_client (set_msgChan []) w) [] /\
  trace (with_client (set_msgChan []) w) = trace w.
Proof.
  intros w.
  destruct (eventLoop_dispatch (mkTimers 0 false false) w (mkMessage 9 [7]) [])
    as [_ Hdrop]; [reflexivity|].
  apply Hdrop. reflexivity.
Defined.

Lemma advance_timer (d : Z) (tm : Timers) :
  trC tm = false ->
  trC (advance d tm) = true <-> elapsed tm < authTimeout <= elapsed tm + d.
Proof.
  intros H. unfold advance. cbn [trC]. rewrite H, orb_false_l, andb_true_iff.
  rewrite Z.ltb_lt, Z.leb_le. reflexivity.
Qed.

(** C6: the timer of the event loop becomes ready when the time since the
    loop created it crosses 10 seconds.  When the loop takes the timer and
    [authed] is false, it logs the timeout, runs its deferred calls and
    exits: no goroutine is started and the world changes by two log lines
    and by the wait group alone.  When [authed] is true the loop is back at
    its [select] and the world is as before. *)
Theorem eventLoop_auth_timer (c : Config) (tid : nat) (tm : Timers) :
  crashed c = None ->
  threads c !! tid = Some (TEvent (ESelect tm)) ->
  trC tm = true ->
  0 < closeWait (client (world c)) ->
  authTimeout = 10000000000 /\
  (forall d tm0, trC tm0 = false ->
     trC (advance d tm0) = true <->
     elapsed tm0 < authTimeout <= elapsed tm0 + d) /\
  (authed (client (world c)) = false ->
   run [ActStep tid SelTimer; ActStep tid SelTimer; ActStep tid SelTimer] c
   = mkConfig
       (with_client (set_closeWait (closeWait (client (world c)) - 1))
          (log LInfo "ws event loop stop" []
             (log LError "auth timeout" [] (world c))))
       (<[tid := TEvent EExit]> (threads c)) None) /\
  (authed (client (world c)) = true ->
   exec (ActStep tid SelTimer) c
   = mkConfig (world c)
       (<[tid := TEvent (ESelect (mkTimers (elapsed tm) false (tickC tm)))]>
          (threads c))
       None).
Proof.
  intros Hc Hth Htr Hwg.
  assert (Hlt : (tid < length (threads c))%nat) by (eapply lookup_lt_Some, Hth).
  split; [reflexivity|]. split; [exact advance_timer|]. split.
  - intros Hau. rewrite run_cons.
    erewrite (exec_step_alone c);
      [|exact Hc|exact Hth|simpl; rewrite Htr, Hau; reflexivity].
    rewrite run_cons.
    erewrite exec_step_alone;
      [|reflexivity|apply list_lookup_insert_eq, Hlt|reflexivity].
    rewrite run_cons.
    erewrite exec_step_alone;
      [|reflexivity
       |simpl; apply list_lookup_insert_eq; rewrite length_insert; exact Hlt
       |].
    + simpl. rewrite !list_insert_insert_eq. reflexivity.
    + simpl. unfold wg_add. simpl.
      destruct (closeWait (client (world c)) + -1 <? 0) eqn:E;
        [apply Z.ltb_lt in E; lia|reflexivity].
  - intros Hau. erewrite exec_step_alone; [reflexivity|exact Hc|exact Hth|].
    simpl. rewrite Htr, Hau. reflexivity.
Qed.

Lemma eventLoop_auth_timer_witness :
  let c0 := mkConfig (with_client (set_closeWait 1) demo_world)
              [TEvent (ESelect (advance authTimeout (mkTimers 0 false false)))]
              None in
  threads (run [ActStep 0%nat SelTimer; ActStep 0%nat SelTimer;
                ActStep 0%nat SelTimer] c0) = [TEvent EExit] /\
  threads (exec (ActStep 0%nat SelTimer) (exec ActAuthSuccess c0))
  = [TEvent (ESelect (mkTimers authTimeout false false))].
Proof.
  intros c0. split.
  - destruct (eventLoop_auth_timer c0 0%nat
                (advance authTimeout (mkTimers 0 false false)))
      as (_ & _ & Hexit & _); [reflexivity..|].
    rewrite Hexit; reflexivity.
  - destruct (eventLoop_auth_timer (exec ActAuthSuccess c0) 0%nat
                (advance authTimeout (mkTimers 0 false false)))
      as (_ & _ & _ & Hgo); [reflexivity..|].
    rewrite Hgo; reflexivity.
Defined.

(** ** The queue across a reset *)

Lemma dial_loop_frame (links : list string) (err : option error) (w : World) :
  let w' := snd (dial_loop links err w) in
  msgChan (client w') = msgChan (client w) /\
  dispatcher (client w') = dispatcher (client w) /\
  closeWait (client w') = closeWait (client w) /\
  handled (trace w') = handled (trace w).
Proof.
  revert err w. induction links as [|l links IH]; intros err w; [simpl; auto|].
  cbn [dial_loop net_dial].
  destruct (dialer w l (dialed w)) as [c|e].
  - simpl. rewrite handled_app. simpl. rewrite app_nil_r. auto.
  - cbv zeta in IH. destruct (IH (Some e)
      (log LError "websocket dial fail" [AStr "link" l; AStr "err" e]
         (with_client (set_conn None)
            (set_dialed (S (dialed w)) (emit (EvDial l) w)))))
      as (H1 & H2 & H3 & H4).
    cbv zeta. rewrite H1, H2, H3, H4. simpl.
    rewrite !handled_app. simpl. rewrite !app_nil_r. auto.
Qed.

Lemma Dial_frame (links : list string) (w : World) :
  let w' := snd (Dial links w) in
  msgChan (client w') = msgChan (client w) /\
  dispatcher (client w') = dispatcher (client w) /\
  closeWait (client w') = closeWait (client w) /\
  handled (trace w') = handled (trace w).
Proof.
  pose proof (dial_loop_frame links None w) as H. cbv zeta in *.
  unfold Dial. destruct (dial_loop links None w) as [[e|] w1]; simpl in *;
    [exact H|].
  rewrite handled_app. simpl. rewrite app_nil_r. exact H.
Qed.

(** The handler of the operation code of [m] exists. *)
Definition registered (w : World) (m : Message) : Prop :=
  is_Some (dispatcher (client w) !! Operation m).

#[local] Instance registered_dec w m : Decision (registered w m).
Proof. unfold registered. apply _. Defined.

Lemma dispatch_handled (w : World) (m : Message) :
  handled (trace (dispatch (Some m) w))
  = handled (trace w) ++ (if decide (registered w m) then [m] else []) /\
  dispatcher (client (dispatch (Some m) w)) = dispatcher (client w) /\
  msgChan (client (dispatch (Some m) w)) = msgChan (client w).
Proof.
  unfold dispatch. destruct (decide (registered w m)) as [[h Hh]|Hn].
  - rewrite Hh. destruct (h m); simpl; rewrite !handled_app; simpl;
      rewrite ?app_nil_r; auto.
  - destruct (dispatcher (client w) !! Operation m) as [h|] eqn:E.
    + exfalso. apply Hn. unfold registered. rewrite E. eauto.
    + rewrite app_nil_r. auto.
Qed.

Lemma eventLoop_drains (ms : list Message) (c : Config) (tid : nat)
    (tm : Timers) :
  crashed c = None ->
  threads c !! tid = Some (TEvent (ESelect tm)) ->
  msgChan (client (world c)) = Some <$> ms ->
  let c' := run (repeat (ActStep tid SelMsg) (length ms)) c in
  crashed c' = None /\
  threads c' = threads c /\
  msgChan (client (world c')) = [] /\
  handled (trace (world c'))
  = handled (trace (world c)) ++ filter (registered (world c)) ms.
Proof.
  revert c. induction ms as [|m ms IH]; intros c Hc Hth Hq.
  - simpl. rewrite app_nil_r. auto.
  - cbn [length repeat]. cbv zeta. rewrite run_cons. rewrite fmap_cons in Hq.
    erewrite exec_step_alone; [|exact Hc|exact Hth|];
      [|cbn [thread_step eventLoop_step]; rewrite Hq; reflexivity].
    destruct (dispatch_handled (with_client (set_msgChan (Some <$> ms)) (world c)) m)
      as (Hh & Hd & Hm).
    edestruct (IH (mkConfig
                     (dispatch (Some m)
                        (with_client (set_msgChan (Some <$> ms)) (world c)))
                     (<[tid := TEvent (ESelect tm)]> (threads c)) None))
      as (H1 & H2 & H3 & H4).
    + reflexivity.
    + simpl. apply list_lookup_insert_eq. eapply lookup_lt_Some, Hth.
    + etransitivity; [exact Hm|reflexivity].
    + cbv zeta in H1, H2, H3, H4. cbn [world threads] in H2, H4.
      rewrite H1, H2, H3, H4.
      rewrite list_insert_id by exact Hth.
      repeat split; try reflexivity.
      rewrite Hh. cbn [trace with_client]. rewrite <- app_assoc. f_equal.
      rewrite filter_cons.
      assert (Hreg : forall x,
                 registered
                   (dispatch (Some m)
                      (with_client (set_msgChan (Some <$> ms)) (world c))) x
                 <-> registered (world c) x).
      { intros x. unfold registered. rewrite Hd. reflexivity. }
      rewrite (list_filter_iff _ _ ms Hreg).
      destruct (decide (registered _ m)); reflexivity.
Qed.

Lemma eventLoop_starts (w : World) (ths : list Thread) (tid : nat) :
  ths !! tid = Some (TEvent EStart) ->
  0 <= closeWait (client w) ->
  run (solo tid 3) (mkConfig w ths None)
  = mkConfig
      (with_client (set_closeWait (closeWait (client w) + 1))
         (log LInfo "ws event loop start" [] w))
      (<[tid := TEvent (ESelect (mkTimers 0 false false))]> ths) None.
Proof.
  intros Hth Hwg.
  assert (Hlt : (tid < length ths)%nat) by (eapply lookup_lt_Some, Hth).
  unfold solo. cbn [repeat]. rewrite !run_cons.
  step_alone; [|reflexivity|exact Hth|reflexivity].
  cbn [threads world].
  step_alone; [|reflexivity|apply list_lookup_insert_eq, Hlt|]; cycle 1.
  { cbn [thread_step eventLoop_step world]. unfold wg_add.
    cbn [client log emit closeWait].
    destruct (closeWait (client w) + 1 <? 0) eqn:E;
      [apply Z.ltb_lt in E; lia|reflexivity]. }
  cbn [threads world].
  step_alone;
    [|reflexivity
     |apply list_lookup_insert_eq; rewrite length_insert; exact Hlt
     |reflexivity].
  cbn [threads world run foldl]. now rewrite !list_insert_insert_eq.
Qed.

Lemma Reset_frame (w : World) :
  msgChan (client (Reset w)) = msgChan (client w) /\
  dispatcher (client (Reset w)) = dispatcher (client w) /\
  closeWait (client (Reset w)) = 0 /\
  trace (Reset w) = trace w.
Proof. unfold Reset. simpl. auto. Qed.

(** C10: [Reset] leaves the queue as it is, and so does the [Dial] that
    follows; the event loop started by the next [Run] takes the messages
    that were left, in their order, and hands those whose operation code has
    a handler to it. *)
Theorem Reset_keeps_queue (w : World) (links : list string) (ms : list Message) :
  msgChan (client w) = Some <$> ms ->
  msgChan (client (Reset w)) = Some <$> ms /\
  msgChan (client (snd (Dial links (Reset w)))) = Some <$> ms /\
  let c := run (solo 1 3 ++ repeat (ActStep 1%nat SelMsg) (length ms))
             (Run (mkConfig (snd (Dial links (Reset w))) [] None)) in
  crashed c = None /\
  msgChan (client (world c)) = [] /\
  handled (trace (world c)) = handled (trace w) ++ filter (registered w) ms.
Proof.
  intros Hq.
  destruct (Reset_frame w) as (Rq & Rd & Rw & Rt).
  destruct (Dial_frame links (Reset w)) as (Dq & Dd & Dw & Dt).
  cbv zeta in Dq, Dd, Dw, Dt.
  set (w2 := snd (Dial links (Reset w))) in *.
  split; [congruence|]. split; [congruence|].
  cbv zeta. rewrite run_app. unfold Run. cbn [threads world crashed app].
  rewrite (eventLoop_starts w2 [TReader RStart; TEvent EStart] 1%nat)
    by (try reflexivity; lia).
  match goal with
  | |- context [run _ ?c0] =>
      pose proof (eventLoop_drains ms c0 1%nat (mkTimers 0 false false)) as H
  end.
  cbv zeta in H. destruct H as (H1 & _ & H3 & H4);
    [reflexivity|reflexivity|cbn; congruence|].
  split; [exact H1|]. split; [exact H3|]. rewrite H4.
  cbn [world trace with_client log emit].
  rewrite handled_app. cbn [handled omap]. rewrite app_nil_r.
  fold (handled (trace w2)). rewrite Dt, Rt. f_equal.
  apply list_filter_iff. intros x. unfold registered. cbn.
  rewrite Dd, Rd. reflexivity.
Qed.

Lemma Reset_keeps_queue_witness :
  let w := with_client
             (fun k => set_msgChan [Some (mkMessage 5 [1]); Some (mkMessage 9 [])]
                         (set_dispatcher {[ 5 := fun _ => None ]} k))
             demo_world in
  handled (trace (world
     (run (solo 1 3 ++ repeat (ActStep 1%nat SelMsg) 2)
        (Run (mkConfig (snd (Dial ["ws://b"] (Reset w))) [] None)))))
  = [mkMessage 5 [1]].
Proof.
  intros w.
  destruct (Reset_keeps_queue w ["ws://b"] [mkMessage 5 [1]; mkMessage 9 []])
    as (_ & _ & _ & _ & H); [reflexivity|].
  cbv zeta in H. cbn [length] in H. rewrite H. vm_compute. reflexivity.
Defined.

(** ** What a step leaves alone *)

(** The parts of the world the close guard depends on are the same in [w]
    and [w']. *)
Record same_guard (w w' : World) : Prop := mkSameGuard {
  sg_once : once (client w') = once (client w);
  sg_onClose : onClose (client w') = onClose (client w);
  sg_conn : conn (client w') = conn (client w);
  sg_result : close_result w' = close_result w;
  sg_onces : onces w' = onces w;
  sg_closes : count is_conn_close (trace w') = count is_conn_close (trace w);
  sg_callbacks : count is_on_close (trace w') = count is_on_close (trace w);
  sg_frames : count is_close_frame (trace w') = count is_close_frame (trace w);
  sg_types : on_close_types (trace w') = on_close_types (trace w)
}.

Lemma same_guard_refl (w : World) : same_guard w w.
Proof. now constructor. Qed.

Lemma same_guard_trans (w1 w2 w3 : World) :
  same_guard w1 w2 -> same_guard w2 w3 -> same_guard w1 w3.
Proof. intros [] []. constructor; congruence. Qed.

Lemma on_close_types_snoc (tr : list Event) (e : Event) :
  is_on_close e = false -> on_close_types (tr ++ [e]) = on_close_types tr.
Proof.
  intros H. rewrite on_close_types_app.
  destruct e; try discriminate; apply app_nil_r.
Qed.

Lemma same_guard_log (lvl : Level) (msg : string) (attrs : list Attr) (w : World) :
  same_guard w (log lvl msg attrs w).
Proof.
  constructor; try reflexivity; simpl;
    rewrite ?count_snoc, ?on_close_types_snoc; simpl; auto; lia.
Qed.

Lemma same_guard_client (f : WsClient -> WsClient) (w : World) :
  once (f (client w)) = once (client w) ->
  onClose (f (client w)) = onClose (client w) ->
  conn (f (client w)) = conn (client w) ->
  same_guard w (with_client f w).
Proof.
  intros H1 H2 H3. constructor; try assumption; try reflexivity.
  unfold close_result. simpl. now rewrite H3.
Qed.

Lemma close_result_conns (w : World) (c : Conn) (cs cs' : ConnState) :
  conns w !! c = Some cs ->
  closeErr cs' = closeErr cs ->
  close_result (set_conns (<[c := cs']> (conns w)) w) = close_result w.
Proof.
  intros Hc He. unfold close_result. simpl.
  destruct (conn (client w)) as [k|]; [|reflexivity].
  destruct (decide (k = c)) as [->|Hne].
  - rewrite list_lookup_insert_eq by (eapply lookup_lt_Some, Hc).
    now rewrite Hc, He.
  - now rewrite list_lookup_insert_ne by congruence.
Qed.

Lemma net_read_same_guard (c : Conn) (w w' : World) (r : ReadResult) :
  net_read c w = Some (r, w') -> same_guard w w'.
Proof.
  unfold net_read. intros H.
  destruct (conns w !! c) as [cs|] eqn:E; [|injection H as _ <-; apply same_guard_refl].
  destruct (conn_closed cs); [injection H as _ <-; apply same_guard_refl|].
  destruct (inbox cs) as [|x rest]; [discriminate|]. injection H as _ <-.
  constructor; try reflexivity. now apply close_result_conns with cs.
Qed.

Lemma net_write_trace (c : Conn) (ty : Z) (data : list Z) (w : World) :
  trace (snd (net_write c ty data w)) = trace w ++ [EvWrite c ty data].
Proof.
  unfold net_write. destruct (conns w !! c) as [cs|]; [|reflexivity].
  destruct (conn_closed cs); [reflexivity|].
  destruct (writeErrs cs); reflexivity.
Qed.

(** A write leaves the guard alone, but for the frame it sends. *)
Lemma net_write_guard (c : Conn) (ty : Z) (data : list Z) (w : World) :
  let w' := snd (net_write c ty data w) in
  once (client w') = once (client w) /\
  onClose (client w') = onClose (client w) /\
  conn (client w') = conn (client w) /\
  close_result w' = close_result w /\
  onces w' = onces w /\
  chans w' = chans w /\
  client w' = client w.
Proof.
  unfold net_write. destruct (conns w !! c) as [cs|] eqn:E; [|simpl; auto 10].
  destruct (conn_closed cs); [simpl; auto 10|].
  destruct (writeErrs cs); [simpl; auto 10|]. simpl.
  repeat split.
  change (close_result (set_conns (<[c := mkConn (inbox cs) false (closeErr cs) l]>
                                     (conns (emit (EvWrite c ty data) w)))
                          (emit (EvWrite c ty data) w)) = close_result w).
  now rewrite (close_result_conns _ c cs).
Qed.

Lemma net_write_same_guard (c : Conn) (ty : Z) (data : list Z) (w : World) :
  ty <> websocket.CloseMessage ->
  same_guard w (snd (net_write c ty data w)).
Proof.
  intros Hty. destruct (net_write_guard c ty data w) as (H1 & H2 & H3 & H4 & H5 & _).
  constructor; try assumption;
    rewrite net_write_trace, ?count_snoc, ?on_close_types_snoc; simpl;
    auto; try lia.
  destruct (ty =? websocket.CloseMessage) eqn:E; [apply Z.eqb_eq in E; easy|].
  lia.
Qed.

Lemma wg_add_same_guard (d : Z) (w w' : World) :
  wg_add d w = Some w' -> same_guard w w'.
Proof.
  unfold wg_add. destruct (_ <? 0); [discriminate|]. intros [= <-].
  now apply same_guard_client.
Qed.

Lemma dispatch_same_guard (msg : option Message) (w : World) :
  same_guard w (dispatch msg w).
Proof.
  unfold dispatch. destruct msg as [m|]; [|apply same_guard_refl].
  destruct (dispatcher (client w) !! Operation m) as [h|]; [|apply same_guard_refl].
  assert (He : same_guard w (emit (EvHandle (Operation m) m) w)).
  { constructor; try reflexivity; simpl;
      rewrite ?count_snoc, ?on_close_types_snoc; simpl; auto; lia. }
  destruct (h m); [|exact He].
  eapply same_guard_trans; [exact He|apply same_guard_log].
Qed.

(** The two loops leave the close guard alone: they only start calls to
    [Close]. *)
Lemma readMessage_step_same_guard (pc : ReaderPc) (w w' : World) (th : Thread)
    (sp : list Thread) :
  readMessage_step pc w = Next th w' sp ->
  same_guard w w' /\ is_close_call th = false /\
  Forall (fun x => not_started x = true) sp.
Proof.
  intros H. destruct pc; simpl in H;
    repeat match type of H with
      | context [match ?x with _ => _ end] => destruct x eqn:?
      end;
    try discriminate; injection H as <- <- <-;
    (split; [|split; [reflexivity|repeat constructor]]);
    auto using same_guard_refl, same_guard_log;
    try (eapply wg_add_same_guard; eassumption);
    try (eapply net_read_same_guard; eassumption);
    now apply same_guard_client.
Qed.

Lemma SendMessage_same_guard (msg : Message) (w w' : World) (r : option error) :
  SendMessage msg w = Some (r, w') -> same_guard w w'.
Proof.
  unfold SendMessage. destruct (conn (client w)) as [c|]; [|discriminate].
  pose proof (net_write_same_guard c websocket.BinaryMessage
                (ToBytes (codec w) msg) w) as Hg.
  destruct (net_write c websocket.BinaryMessage (ToBytes (codec w) msg) w)
    as [[e|] w1]; intros [= <- <-]; apply Hg; discriminate.
Qed.

Lemma eventLoop_step_same_guard (pc : EventPc) (sel : Select) (w w' : World)
    (th : Thread) (sp : list Thread) :
  eventLoop_step pc sel w = Next th w' sp ->
  same_guard w w' /\ is_close_call th = false /\ sp = [].
Proof.
  intros H. destruct pc; simpl in H; try destruct sel;
    repeat match type of H with
      | context [match ?x with _ => _ end] => destruct x eqn:?
      end;
    try discriminate; injection H as <- <- <-;
    (split; [|split; reflexivity]);
    auto using same_guard_refl, same_guard_log;
    try (eapply wg_add_same_guard; eassumption).
  - eapply same_guard_trans; [apply same_guard_log|].
    eapply same_guard_trans; [eapply SendMessage_same_guard; eassumption|].
    apply same_guard_log.
  - eapply same_guard_trans; [apply same_guard_log|].
    eapply SendMessage_same_guard; eassumption.
  - eapply same_guard_trans; [|apply dispatch_same_guard].
    now apply same_guard_client.
Qed.

(** ** The close guard is an invariant *)

Lemma thread_inv_counts (b w w' : World) (o : Once) (th : Thread) :
  count is_conn_close (trace w') = count is_conn_close (trace w) ->
  count is_on_close (trace w') = count is_on_close (trace w) ->
  thread_inv b w o th -> thread_inv b w' o th.
Proof.
  intros H1 H2. destruct th as [t pc e| |]; [|auto..].
  destruct pc; simpl; unfold untouched, conn_released, torn_down;
    rewrite ?H1, ?H2; auto.
Qed.

Lemma thread_inv_bystander (b w w' : World) (o o' : Once) (th : Thread) :
  holds th = false ->
  (done o = true -> done o' = true) ->
  thread_inv b w o th -> thread_inv b w' o' th.
Proof.
  intros Hh Hd. destruct th as [t pc e| |]; [|auto..].
  destruct pc; simpl in *; try discriminate; intuition.
Qed.

Lemma thread_inv_locked (b w : World) (o : Once) (th : Thread) :
  thread_inv b w o th -> holds th = true -> locked o = true.
Proof.
  destruct th as [t pc e| |]; [|discriminate..].
  destruct pc; simpl; try discriminate; intuition.
Qed.

Lemma thread_inv_not_started (b w : World) (o : Once) (th : Thread) :
  not_started th = true ->
  thread_inv b w o th /\ holds th = false /\ wrote th = 0%nat.
Proof.
  destruct th as [t pc e| |]; [|simpl; auto..].
  destruct pc, e; simpl; try discriminate; auto.
Qed.


Lemma sum_wrote_insert (l : list Thread) (tid : nat) (th th' : Thread) :
  l !! tid = Some th ->
  (sum_list_with wrote (<[tid := th']> l) + wrote th
   = sum_list_with wrote l + wrote th')%nat.
Proof.
  revert tid. induction l as [|x l IH]; intros tid H; [discriminate|].
  destruct tid as [|tid]; simpl in *.
  - injection H as ->. lia.
  - specialize (IH tid H). lia.
Qed.

Lemma not_started_idle (th : Thread) :
  not_started th = true -> holds th = false /\ wrote th = 0%nat.
Proof.
  destruct th as [t pc e| |]; [|simpl; auto..].
  destruct pc, e; simpl; try discriminate; auto.
Qed.

Lemma not_started_carries (th : Thread) :
  not_started th = true -> carries th = false.
Proof.
  destruct th as [t pc e| |]; [|simpl; auto..].
  destruct pc, e; simpl; try discriminate; auto.
Qed.

Lemma thread_inv_carries (b w : World) (o : Once) (th : Thread) :
  thread_inv b w o th -> holds th = false -> carries th = true ->
  done o = true.
Proof.
  destruct th as [t pc e| |]; [|discriminate..].
  destruct pc; simpl; try discriminate; intuition; subst; discriminate.
Qed.

Lemma sum_wrote_not_started (sp : list Thread) :
  Forall (fun x => not_started x = true) sp -> sum_list_with wrote sp = 0%nat.
Proof.
  induction 1 as [|x sp Hx _ IH]; [reflexivity|]. simpl.
  destruct (not_started_idle x Hx) as [_ ->]. exact IH.
Qed.

Lemma guard_inv_spawn (b w : World) (l sp : list Thread) (cr cr' : option string) :
  guard_inv b (mkConfig w l cr) ->
  Forall (fun x => not_started x = true) sp ->
  guard_inv b (mkConfig w (l ++ sp) cr').
Proof.
  intros [P1 P2 P3 P4 (o & Ho & Hth & Huniq & Hdone & Hidle) P5] Hsp.
  simpl in *.
  assert (Hnew : forall i x, (l ++ sp) !! i = Some x ->
                   l !! i = Some x \/ not_started x = true).
  { intros i x H. apply lookup_app_Some in H as [H|[_ H]]; [auto|right].
    eapply Forall_forall in Hsp; [exact Hsp|].
    eapply list_elem_of_lookup_2, H. }
  constructor; simpl; try assumption.
  - rewrite sum_list_with_app, (sum_wrote_not_started sp Hsp). lia.
  - exists o. split; [exact Ho|]. split; [|split; [|split]].
    + intros i x H. destruct (Hnew i x H) as [H'|H']; [eauto|].
      now apply thread_inv_not_started.
    + intros i j x y Hi Hj Hx Hy.
      destruct (Hnew i x Hi) as [Hi'|Hi'];
        [|apply not_started_idle in Hi' as [? _]; congruence].
      destruct (Hnew j y Hj) as [Hj'|Hj'];
        [|apply not_started_idle in Hj' as [? _]; congruence].
      eauto.
    + exact Hdone.
    + intros Hd Hall. apply Hidle; [exact Hd|].
      intros i x H. apply (Hall i). now apply lookup_app_l_Some.
  - intros i j x y Hi Hj Hx Hy.
    destruct (Hnew i x Hi) as [Hi'|Hi'];
      [|apply not_started_carries in Hi'; congruence].
    destruct (Hnew j y Hj) as [Hj'|Hj'];
      [|apply not_started_carries in Hj'; congruence].
    eauto.
Qed.

(** One goroutine goes from [th] to [th'] and takes the world to [w'],
    where the guard is [o']. *)
Lemma guard_inv_update (b : World) (c : Config) (tid : nat) (th th' : Thread)
    (w' : World) (o o' : Once) (cr : option string) :
  guard_inv b c ->
  threads c !! tid = Some th ->
  cur_once (world c) = Some o ->
  once (client w') = once (client (world c)) ->
  onClose (client w') = onClose (client (world c)) ->
  close_result w' = close_result (world c) ->
  cur_once w' = Some o' ->
  (count is_close_frame (trace w') + wrote th
   = count is_close_frame (trace (world c)) + wrote th')%nat ->
  thread_inv b w' o' th' ->
  ((o' = o /\
    count is_conn_close (trace w') = count is_conn_close (trace (world c)) /\
    count is_on_close (trace w') = count is_on_close (trace (world c))) \/
   ((holds th = true \/ (holds th' = true /\ locked o = false)) /\
    (done o = true -> done o' = true))) ->
  (holds th' = true -> holds th = true \/ locked o = false) ->
  (done o' = true -> torn_down b w') ->
  (done o' = false -> holds th' = false ->
   holds th = false /\ done o = false /\
   count is_conn_close (trace w') = count is_conn_close (trace (world c)) /\
   count is_on_close (trace w') = count is_on_close (trace (world c))) ->
  (carries th' = true ->
   carries th = true \/ (holds th = true /\ done o = false)) ->
  guard_inv b (mkConfig w' (<[tid := th']> (threads c)) cr).
Proof.
  intros [P1 P2 P3 P4 (o0 & Ho0 & Hth & Huniq & Hdone & Hidle) P5]
         Htid Ho Q1 Q2 Q3 Ho' Qfr Hnew Hby Hlock Htorn Hrest Hcar.
  assert (o0 = o) as -> by congruence.
  assert (Hlt : (tid < length (threads c))%nat) by (eapply lookup_lt_Some, Htid).
  assert (Hothers : forall i x, i <> tid -> threads c !! i = Some x ->
                      holds th = true \/ (holds th' = true /\ locked o = false) ->
                      holds x = false).
  { intros i x Hne Hi Hcase. destruct (holds x) eqn:Hx; [exfalso|reflexivity].
    destruct Hcase as [Hh|[_ Hl]].
    - apply Hne. eapply Huniq; eassumption.
    - pose proof (thread_inv_locked _ _ _ _ (Hth i x Hi) Hx). congruence. }
  constructor; simpl; try congruence.
  - pose proof (sum_wrote_insert (threads c) tid th th' Htid). lia.
  - exists o'. split; [exact Ho'|]. split; [|split; [|split]].
    + intros i x Hi. destruct (decide (i = tid)) as [->|Hne].
      * rewrite list_lookup_insert_eq in Hi by exact Hlt. now injection Hi as <-.
      * rewrite list_lookup_insert_ne in Hi by congruence.
        destruct Hby as [(-> & C1 & C2)|[Hcase Hmono]].
        -- eapply thread_inv_counts; eauto.
        -- eapply thread_inv_bystander; eauto.
    + intros i j x y Hi Hj Hx Hy.
      destruct (decide (i = tid)) as [->|Hni];
        destruct (decide (j = tid)) as [->|Hnj]; try reflexivity.
      * rewrite list_lookup_insert_eq in Hi by exact Hlt. injection Hi as <-.
        rewrite list_lookup_insert_ne in Hj by congruence.
        exfalso. destruct (Hlock Hx) as [Hh|Hl].
        -- apply Hnj. eapply Huniq; eassumption.
        -- pose proof (thread_inv_locked _ _ _ _ (Hth j y Hj) Hy). congruence.
      * rewrite list_lookup_insert_eq in Hj by exact Hlt. injection Hj as <-.
        rewrite list_lookup_insert_ne in Hi by congruence.
        exfalso. destruct (Hlock Hy) as [Hh|Hl].
        -- apply Hni. eapply Huniq; eassumption.
        -- pose proof (thread_inv_locked _ _ _ _ (Hth i x Hi) Hx). congruence.
      * rewrite list_lookup_insert_ne in Hi, Hj by congruence. eauto.
    + exact Htorn.
    + intros Hd Hall.
      assert (Hh' : holds th' = false).
      { apply (Hall tid). now apply list_lookup_insert_eq. }
      destruct (Hrest Hd Hh') as (Hh & Hd0 & C1 & C2).
      assert (Hu : untouched b (world c)).
      { apply Hidle; [exact Hd0|]. intros i x Hi.
        destruct (decide (i = tid)) as [->|Hne]; [congruence|].
        apply (Hall i). now rewrite list_lookup_insert_ne by congruence. }
      destruct Hu as [U1 U2]. split; congruence.
  - assert (Hone : forall j y, j <> tid -> threads c !! j = Some y ->
                     carries th' = true -> carries y = true -> False).
    { intros j y Hne Hj Hc' Hy. destruct (Hcar Hc') as [Hc|[Hh Hd]].
      - apply Hne. eapply P5; eassumption.
      - assert (Hy' : holds y = false) by (eapply Hothers; eauto).
        pose proof (thread_inv_carries _ _ _ _ (Hth j y Hj) Hy' Hy).
        congruence. }
    intros i j x y Hi Hj Hx Hy.
    destruct (decide (i = tid)) as [->|Hni];
      destruct (decide (j = tid)) as [->|Hnj]; try reflexivity.
    + rewrite list_lookup_insert_eq in Hi by exact Hlt. injection Hi as <-.
      rewrite list_lookup_insert_ne in Hj by congruence.
      exfalso. eapply Hone; eassumption.
    + rewrite list_lookup_insert_eq in Hj by exact Hlt. injection Hj as <-.
      rewrite list_lookup_insert_ne in Hi by congruence.
      exfalso. eapply Hone; eassumption.
    + rewrite list_lookup_insert_ne in Hi, Hj by congruence. eauto.
Qed.

Lemma update_once_spec (f : Once -> Once) (w : World) (o : Once) :
  cur_once w = Some o ->
  cur_once (update_once f w) = Some (f o) /\
  client (update_once f w) = client w /\
  trace (update_once f w) = trace w /\
  chans (update_once f w) = chans w /\
  conns (update_once f w) = conns w.
Proof.
  unfold cur_once, update_once. intros Ho. rewrite Ho. simpl.
  rewrite list_lookup_insert_eq by (eapply lookup_lt_Some, Ho). auto.
Qed.

Lemma update_once_result (f : Once -> Once) (w : World) :
  close_result (update_once f w) = close_result w.
Proof.
  unfold update_once. now destruct (onces w !! once (client w)).
Qed.

Lemma net_close_spec (c : Conn) (w w1 : World) (e : option error) :
  conn (client w) = Some c ->
  net_close c w = (e, w1) ->
  e = close_result w /\ close_result w1 = close_result w /\
  client w1 = client w /\ onces w1 = onces w /\ chans w1 = chans w /\
  trace w1 = trace w ++ [EvConnClose c].
Proof.
  intros Hc. unfold net_close, close_result. rewrite Hc.
  destruct (conns w !! c) as [cs|] eqn:E; intros [= <- <-]; simpl; rewrite ?Hc.
  - rewrite list_lookup_insert_eq by (eapply lookup_lt_Some, E). simpl. auto 10.
  - rewrite E. auto 10.
Qed.

(** Side conditions of [guard_inv_update] on a step of [Close]. *)
Ltac guard_side :=
  simpl; unfold cur_once, untouched, conn_released, torn_down in *; simpl;
  repeat match goal with
    | H : trace ?w = _ |- context [trace ?w] => rewrite H
    | H : client ?w = _ |- context [client ?w] => rewrite H
    end;
  rewrite ?count_snoc; simpl;
  intuition (try congruence; try discriminate; try lia).

Lemma guard_inv_Close_step (b : World) (c : Config) (tid : nat) (t : Z)
    (pc : ClosePc) (err : option error) (th' : Thread) (w' : World)
    (sp : list Thread) :
  guard_inv b c ->
  threads c !! tid = Some (TClose t pc err) ->
  Close_step t pc err (world c) = Next th' w' sp ->
  sp = [] /\ guard_inv b (mkConfig w' (<[tid := th']> (threads c)) None).
Proof.
  intros Hinv Htid Hstep.
  pose proof Hinv as [P1 P2 P3 P4 (o & Ho & Hth & Huniq & Hdone & Hidle) P5].
  pose proof (Hth tid _ Htid) as Hme.
  assert (Hfree : done o = false ->
                  (forall i x, threads c !! i = Some x -> holds x = true -> i = tid) ->
                  holds (TClose t pc err) = false -> untouched b (world c)).
  { intros Hd Honly Hh. apply Hidle; [exact Hd|]. intros i x Hi.
    destruct (holds x) eqn:Hx; [|reflexivity].
    rewrite (Honly i x Hi Hx) in Hi. congruence. }
  unfold cur_once in Ho.
  destruct pc; simpl in Hstep, Hme.
  - (* CLog *)
    injection Hstep as <- <- <-. split; [reflexivity|].
    eapply (guard_inv_update b c tid _ _ _ o o); eauto; guard_side.
  - (* CWrite *)
    destruct (conn (client (world c))) as [k|] eqn:Hk; [|discriminate].
    pose proof (net_write_guard k websocket.CloseMessage
      (websocket.FormatCloseMessage websocket.CloseNormalClosure []) (world c))
      as (G1 & G2 & G3 & G4 & G5 & G6 & G7).
    pose proof (net_write_trace k websocket.CloseMessage
      (websocket.FormatCloseMessage websocket.CloseNormalClosure []) (world c))
      as Gt.
    destruct (net_write k websocket.CloseMessage _ (world c)) as [r w1].
    simpl in G1, G2, G3, G4, G5, G6, G7, Gt.
    injection Hstep as <- <- <-. split; [reflexivity|].
    eapply (guard_inv_update b c tid _ _ _ o o); eauto;
      try (unfold cur_once; rewrite G5, G1; exact Ho); guard_side.
  - (* CDoFast *)
    rewrite Ho in Hstep. destruct (done o) eqn:Hd;
      injection Hstep as <- <- <-; (split; [reflexivity|]);
      eapply (guard_inv_update b c tid _ _ _ o o); eauto; guard_side.
  - (* CDoLock *)
    rewrite Ho in Hstep. destruct (locked o) eqn:Hl; [discriminate|].
    injection Hstep as <- <- <-. split; [reflexivity|].
    destruct (update_once_spec (set_locked true) (world c) o Ho)
      as (U1 & U2 & U3 & U4 & U5).
    assert (Hu : done o = false -> untouched b (world c)).
    { intros Hd. apply Hidle; [exact Hd|]. intros i x Hi.
      destruct (holds x) eqn:Hx; [|reflexivity].
      pose proof (thread_inv_locked _ _ _ _ (Hth i x Hi) Hx). congruence. }
    eapply (guard_inv_update b c tid _ _ _ o (set_locked true o)); eauto;
      rewrite ?update_once_result; guard_side.
  - (* CDoCheck *)
    rewrite Ho in Hstep. destruct (done o) eqn:Hd;
      injection Hstep as <- <- <-; (split; [reflexivity|]);
      eapply (guard_inv_update b c tid _ _ _ o o); eauto; guard_side.
  - (* CBodyCloseChan *)
    destruct (chans (world c) !! closeChan (client (world c))) as [[|]|];
      try discriminate.
    injection Hstep as <- <- <-. split; [reflexivity|].
    eapply (guard_inv_update b c tid _ _ _ o o); eauto; guard_side.
  - (* CBodySetClosed *)
    injection Hstep as <- <- <-. split; [reflexivity|].
    eapply (guard_inv_update b c tid _ _ _ o o); eauto; guard_side.
  - (* CBodyWait *)
    destruct (closeWait (client (world c)) =? 0); [|discriminate].
    injection Hstep as <- <- <-. split; [reflexivity|].
    eapply (guard_inv_update b c tid _ _ _ o o); eauto; guard_side.
  - (* CBodyConnClose *)
    destruct (conn (client (world c))) as [k|] eqn:Hk; [|discriminate].
    destruct (net_close k (world c)) as [e w1] eqn:Hn.
    destruct (net_close_spec k (world c) w1 e Hk Hn)
      as (N1 & N2 & N3 & N4 & N5 & N6).
    injection Hstep as <- <- <-. split; [reflexivity|].
    eapply (guard_inv_update b c tid _ _ _ o o); eauto;
      try (unfold cur_once; rewrite N4, N3; exact Ho); guard_side.
  - (* CBodyOnClose *)
    assert (Hcbs : callbacks b
                   = match onClose (client (world c)) with
                     | Some _ => 1%nat
                     | None => 0%nat
                     end) by (unfold callbacks; now rewrite P2).
    destruct (onClose (client (world c))) as [cb|] eqn:Hcb;
      injection Hstep as <- <- <-; (split; [reflexivity|]);
      eapply (guard_inv_update b c tid _ _ _ o o); eauto; guard_side.
  - (* CDoStore *)
    injection Hstep as <- <- <-. split; [reflexivity|].
    destruct (update_once_spec (set_done true) (world c) o Ho)
      as (U1 & U2 & U3 & U4 & U5).
    eapply (guard_inv_update b c tid _ _ _ o (set_done true o)); eauto;
      rewrite ?update_once_result; guard_side.
  - (* CDoUnlock *)
    injection Hstep as <- <- <-. split; [reflexivity|].
    destruct (update_once_spec (set_locked false) (world c) o Ho)
      as (U1 & U2 & U3 & U4 & U5).
    eapply (guard_inv_update b c tid _ _ _ o (set_locked false o)); eauto;
      rewrite ?update_once_result; guard_side.
  - discriminate.
Qed.

Lemma loop_thread_idle (b w : World) (o : Once) (th : Thread) :
  is_close_call th = false ->
  thread_inv b w o th /\ holds th = false /\ wrote th = 0%nat /\
  carries th = false.
Proof. destruct th; simpl; try discriminate; auto. Qed.

Lemma guard_inv_world (b w w' : World) (l : list Thread) (cr cr' : option string) :
  same_guard w w' ->
  guard_inv b (mkConfig w l cr) -> guard_inv b (mkConfig w' l cr').
Proof.
  intros [S1 S2 S3 S4 S5 S6 S7 S8 _]
         [P1 P2 P3 P4 (o & Ho & Hth & Huniq & Hdone & Hidle) P5].
  simpl in *. unfold cur_once, untouched, torn_down in *.
  constructor; simpl; try congruence; [|exact P5].
  exists o. unfold cur_once, untouched, torn_down. rewrite S1, S5, S6, S7.
  repeat split; auto; try (apply Hdone; assumption);
    try (apply Hidle; assumption).
  intros i x Hi. eapply thread_inv_counts; [| |eapply Hth, Hi]; congruence.
Qed.

Lemma guard_inv_loop_step (b : World) (c : Config) (tid : nat) (th th' : Thread)
    (w' : World) (sp : list Thread) :
  guard_inv b c ->
  threads c !! tid = Some th ->
  is_close_call th = false ->
  is_close_call th' = false ->
  same_guard (world c) w' ->
  Forall (fun x => not_started x = true) sp ->
  guard_inv b (mkConfig w' (<[tid := th']> (threads c) ++ sp) None).
Proof.
  intros Hinv Htid Hth Hth' Hsg Hsp.
  apply guard_inv_spawn with (cr := None); [|exact Hsp].
  apply guard_inv_world with (w := world c) (cr := None); [exact Hsg|].
  pose proof Hinv as [P1 P2 P3 P4 (o & Ho & Hall & Huniq & Hdone & Hidle) P5].
  destruct (loop_thread_idle b (world c) o th Hth) as (_ & A2 & A3 & A4).
  destruct (loop_thread_idle b (world c) o th' Hth') as (B1 & B2 & B3 & B4).
  eapply (guard_inv_update b c tid th th' (world c) o o); eauto;
    rewrite ?A2, ?A3, ?A4, ?B2, ?B3, ?B4; auto; try discriminate.
Qed.

Lemma guard_inv_advance (b : World) (c : Config) (d : Z) (cr : option string) :
  guard_inv b c ->
  guard_inv b (mkConfig (world c) (advance_thread d <$> threads c) cr).
Proof.
  intros [P1 P2 P3 P4 (o & Ho & Hth & Huniq & Hdone & Hidle) P5].
  assert (Hsame : forall x, thread_inv b (world c) o (advance_thread d x)
                            = thread_inv b (world c) o x /\
                            holds (advance_thread d x) = holds x /\
                            wrote (advance_thread d x) = wrote x).
  { intros [t pc e|pc|[]]; simpl; auto. }
  assert (Hcarr : forall x, carries (advance_thread d x) = carries x).
  { intros [t pc e|pc|[]]; simpl; auto. }
  assert (Hlook : forall i y, (advance_thread d <$> threads c) !! i = Some y ->
                    exists x, threads c !! i = Some x /\ y = advance_thread d x).
  { intros i y H. rewrite list_lookup_fmap in H.
    destruct (threads c !! i) as [x|]; [|discriminate].
    injection H as <-. eauto. }
  constructor; simpl; try assumption.
  - rewrite P4. f_equal. clear -Hsame.
    induction (threads c) as [|x l IH]; [reflexivity|]. simpl.
    destruct (Hsame x) as (_ & _ & ->). now rewrite IH.
  - exists o. split; [exact Ho|]. split; [|split; [|split]].
    + intros i y H. destruct (Hlook i y H) as (x & Hx & ->).
      destruct (Hsame x) as (-> & _ & _). eauto.
    + intros i j y y' Hi Hj Hy Hy'.
      destruct (Hlook i y Hi) as (x & Hx & ->).
      destruct (Hlook j y' Hj) as (x' & Hx' & ->).
      destruct (Hsame x) as (_ & E1 & _). destruct (Hsame x') as (_ & E2 & _).
      rewrite E1 in Hy. rewrite E2 in Hy'. eauto.
    + exact Hdone.
    + intros Hd Hall. apply Hidle; [exact Hd|]. intros i x Hx.
      destruct (Hsame x) as (_ & <- & _). apply (Hall i).
      rewrite list_lookup_fmap, Hx. reflexivity.
  - intros i j y y' Hi Hj Hy Hy'.
    destruct (Hlook i y Hi) as (x & Hx & ->).
    destruct (Hlook j y' Hj) as (x' & Hx' & ->).
    rewrite Hcarr in Hy, Hy'. eauto.
Qed.

(** Every action of the program keeps the invariant of the guard. *)
Lemma guard_inv_exec (b : World) (a : Action) (c : Config) :
  guard_inv b c -> guard_inv b (exec a c).
Proof.
  intros Hinv. unfold exec, exec_opt.
  destruct (crashed c) eqn:Hc; [exact Hinv|].
  destruct a as [tid sel|d|t| |]; simpl.
  - destruct (threads c !! tid) as [th|] eqn:Htid; [|exact Hinv].
    destruct (thread_step th sel (world c)) as [|why|th' w' sp] eqn:Hst;
      simpl; [exact Hinv| |].
    { destruct c as [w l cr]. eapply guard_inv_world; [apply same_guard_refl|].
      exact Hinv. }
    destruct th as [t pc e|pc|pc]; simpl in Hst.
    + destruct (guard_inv_Close_step b c tid t pc e th' w' sp Hinv Htid Hst)
        as [-> H]. now rewrite app_nil_r.
    + destruct (readMessage_step_same_guard pc (world c) w' th' sp Hst)
        as (Hsg & Hth' & Hsp).
      eapply guard_inv_loop_step; eauto.
    + destruct (eventLoop_step_same_guard pc sel (world c) w' th' sp Hst)
        as (Hsg & Hth' & ->).
      eapply guard_inv_loop_step; eauto.
  - destruct (0 <? d); simpl; [|exact Hinv]. now apply guard_inv_advance.
  - destruct c as [w l cr]. eapply guard_inv_spawn; [exact Hinv|].
    repeat constructor.
  - destruct c as [w l cr]. eapply guard_inv_world; [|exact Hinv].
    now apply same_guard_client.
  - destruct c as [w l cr]. unfold Run. simpl in *. subst cr.
    eapply guard_inv_spawn; [exact Hinv|]. repeat constructor.
Qed.

Lemma guard_inv_run (b : World) (acts : list Action) (c : Config) :
  guard_inv b c -> guard_inv b (run acts c).
Proof.
  revert c. induction acts as [|a acts IH]; intros c H; [exact H|].
  rewrite run_cons. apply IH, guard_inv_exec, H.
Qed.

Lemma guard_inv_fresh (c : Config) : fresh c -> guard_inv (world c) c.
Proof.
  intros (Hc & Ho & Hall).
  assert (Hlook : forall i x, threads c !! i = Some x -> not_started x = true).
  { intros i x H. eapply Forall_forall in Hall; [exact Hall|].
    eapply list_elem_of_lookup_2, H. }
  constructor; try reflexivity.
  - rewrite (sum_wrote_not_started _ Hall). lia.
  - exists (mkOnce false false). split; [exact Ho|].
    split; [|split; [|split]].
    + intros i x H. now apply thread_inv_not_started, (Hlook i).
    + intros i j x y Hi Hj Hx.
      apply Hlook, not_started_idle in Hi as [? _]. congruence.
    + discriminate.
    + intros _ _. split; reflexivity.
  - intros i j x y Hi Hj Hx.
    apply Hlook, not_started_carries in Hi. congruence.
Qed.

(** ** A call to [Close] run alone *)

Lemma exec_next (w w' : World) (l : list Thread) (tid : nat) (th th' : Thread)
    (sel : Select) :
  (tid < length l)%nat ->
  thread_step th sel w = Next th' w' [] ->
  exec (ActStep tid sel) (mkConfig w (<[tid := th]> l) None)
  = mkConfig w' (<[tid := th']> l) None.
Proof.
  intros Hlt Hst. erewrite exec_step_alone; [|reflexivity| |exact Hst].
  - simpl. now rewrite list_insert_insert_eq.
  - simpl. now apply list_lookup_insert_eq.
Qed.

Lemma exec_waits (w : World) (l : list Thread) (tid : nat) (th : Thread)
    (sel : Select) :
  (tid < length l)%nat ->
  thread_step th sel w = Blocked ->
  exec (ActStep tid sel) (mkConfig w (<[tid := th]> l) None)
  = mkConfig w (<[tid := th]> l) None.
Proof.
  intros Hlt Hst. unfold exec, exec_opt. simpl.
  now rewrite list_lookup_insert_eq, Hst by exact Hlt.
Qed.

Lemma run_returned (w : World) (l : list Thread) (tid : nat) (t : Z)
    (e : option error) (n : nat) :
  (tid < length l)%nat ->
  run (solo tid n) (mkConfig w (<[tid := TClose t CRet e]> l) None)
  = mkConfig w (<[tid := TClose t CRet e]> l) None.
Proof.
  intros Hlt. induction n as [|n IH]; [reflexivity|].
  unfold solo in *. cbn [repeat]. rewrite run_cons.
  rewrite exec_waits by (auto; reflexivity). exact IH.
Qed.

Lemma update_once_eq (f : Once -> Once) (w : World) (o : Once) :
  onces w !! once (client w) = Some o ->
  update_once f w = set_onces (<[once (client w) := f o]> (onces w)) w.
Proof. intros H. unfold update_once. now rewrite H. Qed.

(** Rewrite the innermost step of a run of one goroutine. *)
Ltac next_step :=
  match goal with
  | |- context [exec (ActStep ?t ?s) (mkConfig ?w (<[?t := ?th]> ?l) None)] =>
      erewrite (exec_next w _ l t th _ s)
  end.

Ltac wait_step :=
  match goal with
  | |- context [exec (ActStep ?t ?s) (mkConfig ?w (<[?t := ?th]> ?l) None)] =>
      rewrite (exec_waits w l t th s) by (assumption || reflexivity)
  end.

(** The steps of an uninterrupted call are those of [Close]. *)
Lemma Close_solo (c : Config) (tid : nat) (t : Z) (r : option error)
    (w' : World) :
  crashed c = None ->
  threads c !! tid = Some (TClose t CLog None) ->
  Close t (world c) = Some (r, w') ->
  run (solo tid 12) c
  = mkConfig w' (<[tid := TClose t CRet r]> (threads c)) None.
Proof.
  destruct c as [w l cr]. simpl. intros -> Htid HC.
  assert (Hlt : (tid < length l)%nat) by (eapply lookup_lt_Some, Htid).
  rewrite <- (list_insert_id l tid _ Htid) at 1.
  unfold Close in HC. cbv zeta in HC.
  destruct (conn (client (log LInfo "ws client close" [AInt "close_type" t] w)))
    as [k|] eqn:Hk; [|discriminate].
  destruct (net_write k websocket.CloseMessage _ _) as [r0 w2] eqn:Hw.
  destruct (onces w2 !! once (client w2)) as [o|] eqn:Ho; [|discriminate].
  next_step; [|exact Hlt|reflexivity].
  next_step; [|exact Hlt|]; cycle 1.
  { cbn [thread_step Close_step]. rewrite Hk, Hw. reflexivity. }
  destruct (done o) eqn:Hd.
  { injection HC as <- <-.
    next_step; [|exact Hlt|]; cycle 1.
    { cbn [thread_step Close_step]. rewrite Ho, Hd. reflexivity. }
    repeat wait_step. reflexivity. }
  destruct (locked o) eqn:Hl; [discriminate|].
  assert (Hk2 : conn (client w2) = Some k).
  { pose proof (net_write_guard k websocket.CloseMessage
      (websocket.FormatCloseMessage websocket.CloseNormalClosure [])
      (log LInfo "ws client close" [AInt "close_type" t] w))
      as G.
    cbv zeta in G. rewrite Hw in G. destruct G as (_ & _ & G3 & _).
    simpl in G3. rewrite G3. exact Hk. }
  clear Hw Hk. destruct o as [d0 l0]. simpl in Hd, Hl. subst d0 l0.
  destruct w2 as [[lg cn q dsp au oc wg op ch ic] os chs cns dl dd cd tr].
  simpl in Ho, Hk2, HC. subst cn.
  destruct (chs !! ch) as [[|]|] eqn:Hch; try discriminate.
  destruct (wg =? 0) eqn:Hwg; [|discriminate].
  assert (Hop : (op < length os)%nat) by (eapply lookup_lt_Some, Ho).
  next_step; [|exact Hlt|]; cycle 1.
  { simpl. rewrite Ho. reflexivity. }
  next_step; [|exact Hlt|]; cycle 1.
  { simpl. rewrite Ho. reflexivity. }
  unfold update_once. simpl. rewrite Ho.
  next_step; [|exact Hlt|]; cycle 1.
  { simpl. rewrite list_lookup_insert_eq by exact Hop. reflexivity. }
  next_step; [|exact Hlt|]; cycle 1.
  { simpl. rewrite Hch. reflexivity. }
  next_step; [|exact Hlt|reflexivity].
  next_step; [|exact Hlt|]; cycle 1.
  { simpl. rewrite Hwg. reflexivity. }
  unfold net_close in HC. simpl in HC.
  destruct (cns !! k) as [cs|] eqn:Hcs; destruct oc as [cb|];
    injection HC as <- <-;
    (next_step;
       [|exact Hlt|simpl; unfold net_close; simpl; rewrite Hcs; reflexivity]);
    (next_step; [|exact Hlt|reflexivity]);
    (next_step; [|exact Hlt|reflexivity]);
    (next_step; [|exact Hlt|reflexivity]);
    unfold update_once; simpl; rewrite Ho;
    repeat (rewrite list_lookup_insert_eq
              by (rewrite ?length_insert; exact Hop); simpl);
    rewrite ?list_insert_insert_eq; reflexivity.
Qed.

(** The events of one call [Close(t)] before the guard. *)
Definition close_prologue (k : Conn) (t : Z) : list Event :=
  [EvLog LInfo "ws client close" [AInt "close_type" t];
   EvWrite k websocket.CloseMessage
     (websocket.FormatCloseMessage websocket.CloseNormalClosure [])].

(** The events of the guarded function of [Close(t)]. *)
Definition close_teardown (k : Conn) (t : Z) (cb : option nat) : list Event :=
  EvConnClose k ::
  match cb with Some f => [EvOnClose f t] | None => [] end.

(** Evaluates the lookups of a world given by its fields. *)
Ltac eval_world :=
  repeat first
    [ progress simpl
    | progress unfold net_write, net_close, update_once, wg_add
    | match goal with
      | H : _ !! _ = _ |- _ => rewrite H
      | H : done _ = _ |- _ => rewrite H
      | H : conn_closed _ = _ |- _ => rewrite H
      | H : writeErrs _ = _ |- _ => rewrite H
      end
    | rewrite list_lookup_insert_eq by (rewrite ?length_insert; assumption) ].

(** The first call of a lifetime, with no loop registered: it returns what
    the physical close returns, after the whole teardown. *)
Lemma Close_first (t : Z) (w : World) (k : Conn) :
  conn (client w) = Some k ->
  cur_once w = Some (mkOnce false false) ->
  chans w !! closeChan (client w) = Some false ->
  closeWait (client w) = 0 ->
  exists w',
    Close t w = Some (close_result w, w') /\
    conn (client w') = Some k /\
    cur_once w' = Some (mkOnce true false) /\
    close_result w' = close_result w /\
    trace w' = trace w ++ close_prologue k t
                       ++ close_teardown k t (onClose (client w)).
Proof.
  destruct w as [[lg cn q dsp au oc wg op ch ic] os chs cns dl dd cd tr].
  unfold cur_once, close_result. simpl. intros -> Ho Hch ->.
  assert (Hop : (op < length os)%nat) by (eapply lookup_lt_Some, Ho).
  unfold Close, net_write, net_close, update_once. simpl.
  destruct (cns !! k) as [cs|] eqn:Hcs; simpl.
  - assert (Hk : (k < length cns)%nat) by (eapply lookup_lt_Some, Hcs).
    destruct (conn_closed cs) eqn:Hcl; [|destruct (writeErrs cs) as [|x xs]];
      eval_world; destruct oc; eexists; (split; [reflexivity|]);
      eval_world; rewrite <- ?app_assoc; auto.
  - eval_world.
    destruct oc; eexists; (split; [reflexivity|]); eval_world;
      rewrite <- ?app_assoc; auto.
Qed.

(** A call after the teardown: it logs, sends its close frame, and returns
    nil. *)
Lemma Close_again (t : Z) (w : World) (k : Conn) (o : Once) :
  conn (client w) = Some k ->
  cur_once w = Some o ->
  done o = true ->
  exists w',
    Close t w = Some (None, w') /\
    conn (client w') = Some k /\
    cur_once w' = Some o /\
    close_result w' = close_result w /\
    trace w' = trace w ++ close_prologue k t.
Proof.
  destruct w as [[lg cn q dsp au oc wg op ch ic] os chs cns dl dd cd tr].
  unfold cur_once, close_result. simpl. intros -> Ho Hd.
  unfold Close, net_write. simpl.
  destruct (cns !! k) as [cs|] eqn:Hcs; simpl.
  - assert (Hk : (k < length cns)%nat) by (eapply lookup_lt_Some, Hcs).
    destruct (conn_closed cs) eqn:Hcl; [|destruct (writeErrs cs) as [|x xs]];
      eval_world; eexists; (split; [reflexivity|]); eval_world;
      rewrite <- ?app_assoc; auto.
  - eval_world. eexists. split; [reflexivity|]. eval_world.
    rewrite <- ?app_assoc. auto.
Qed.

(** ** What the invariant gives *)

Lemma guard_inv_stage (b : World) (c : Config) :
  guard_inv b c ->
  untouched b (world c) \/ conn_released b (world c) \/ torn_down b (world c).
Proof.
  intros [_ _ _ _ (o & Ho & Hth & Huniq & Hdone & Hidle) _].
  destruct (done o) eqn:Hd; [auto|].
  destruct (decide (Exists (fun x => holds x = true) (threads c))) as [Hex|Hno].
  - apply Exists_exists in Hex as (x & Hin & Hx).
    apply list_elem_of_lookup in Hin as [i Hi].
    pose proof (Hth i x Hi) as Hinv.
    destruct x as [t pc e| |]; [|discriminate..].
    destruct pc; simpl in Hinv, Hx; try discriminate; intuition congruence.
  - left. apply Hidle; [reflexivity|]. intros i x Hi.
    destruct (holds x) eqn:Hx; [|reflexivity].
    exfalso. apply Hno, Exists_exists. exists x. split; [|exact Hx].
    eapply list_elem_of_lookup_2, Hi.
Qed.

Lemma guard_inv_returned (b : World) (c : Config) (i : nat) (t : Z)
    (e : option error) :
  guard_inv b c ->
  threads c !! i = Some (TClose t CRet e) ->
  torn_down b (world c) /\ (e = None \/ e = close_result b).
Proof.
  intros [_ _ _ _ (o & Ho & Hth & Huniq & Hdone & Hidle) _] Hi.
  destruct (Hth i _ Hi) as [Hd He]. auto.
Qed.

(** ** Calls run one after the other *)

(** The calls [Close(t)], for [t] in [ts], none of which has started. *)
Definition close_calls (ts : list Z) : list Thread :=
  (fun t => TClose t CLog None) <$> ts.

Lemma one_by_one_S (n : nat) : one_by_one (S n) = one_by_one n ++ solo n 12.
Proof.
  unfold one_by_one. rewrite seq_S, flat_map_app. simpl.
  now rewrite ?app_nil_r.
Qed.

(** After the first [n] calls have run, one after the other, each has
    returned: the first with the result of the physical close, the others
    with nil; the calls behind them have not started. *)
Lemma one_by_one_runs (ts : list Z) (w : World) (k : Conn) (n : nat) :
  conn (client w) = Some k ->
  cur_once w = Some (mkOnce false false) ->
  chans w !! closeChan (client w) = Some false ->
  closeWait (client w) = 0 ->
  (n <= length ts)%nat ->
  let c := run (one_by_one n) (mkConfig w (close_calls ts) None) in
  crashed c = None /\
  conn (client (world c)) = Some k /\
  close_result (world c) = close_result w /\
  cur_once (world c) = Some (mkOnce (if n is O then false else true) false) /\
  (n = 0%nat -> world c = w) /\
  length (threads c) = length ts /\
  (forall i t, ts !! i = Some t ->
     threads c !! i
     = Some (if decide (i < n)%nat
             then TClose t CRet (if i is O then close_result w else None)
             else TClose t CLog None)).
Proof.
  intros Hk Ho Hch Hwg. induction n as [|n IH]; intros Hn; cbv zeta.
  - simpl. repeat split; auto.
    + unfold close_calls. now rewrite length_fmap.
    + intros i t Hi. unfold close_calls. rewrite list_lookup_fmap, Hi.
      reflexivity.
  - rewrite one_by_one_S, run_app.
    destruct IH as (Hc & Hk' & Hr & Ho' & Hw0 & Hlen & Hths); [lia|].
    set (c := run (one_by_one n) (mkConfig w (close_calls ts) None)) in *.
    destruct (lookup_lt_is_Some_2 ts n) as [t Ht]; [lia|].
    pose proof (Hths n t Ht) as Hme.
    rewrite decide_False in Hme by lia.
    assert (Hclose : exists r w',
               Close t (world c) = Some (r, w') /\
               r = (if n is O then close_result w else None) /\
               conn (client w') = Some k /\
               close_result w' = close_result w /\
               cur_once w' = Some (mkOnce true false)).
    { destruct n as [|n].
      - rewrite (Hw0 eq_refl) in *.
        destruct (Close_first t w k Hk Ho Hch Hwg) as (w' & E & A & B & C & _).
        eauto 10.
      - destruct (Close_again t (world c) k _ Hk' Ho' eq_refl)
          as (w' & E & A & B & C & _).
        exists None, w'. rewrite C. auto 10. }
    destruct Hclose as (r & w' & HC & -> & A & B & C).
    rewrite (Close_solo c n t _ w' Hc Hme HC). simpl.
    repeat split; auto; try discriminate.
    + now rewrite length_insert.
    + intros i t' Hi. destruct (decide (i = n)) as [->|Hne].
      * rewrite list_lookup_insert_eq by (rewrite Hlen; lia).
        rewrite decide_True by lia. congruence.
      * rewrite list_lookup_insert_ne by congruence. rewrite (Hths i t' Hi).
        destruct (decide (i < n)%nat), (decide (i < S n)%nat);
          try reflexivity; lia.
Qed.

Lemma one_by_one_config (c0 : Config) (ts : list Z) (k : Conn) :
  fresh c0 ->
  threads c0 = close_calls ts ->
  conn (client (world c0)) = Some k ->
  chans (world c0) !! closeChan (client (world c0)) = Some false ->
  closeWait (client (world c0)) = 0 ->
  let c := run (one_by_one (length ts)) c0 in
  crashed c = None /\
  length (threads c) = length ts /\
  forall i t, ts !! i = Some t ->
    threads c !! i
    = Some (TClose t CRet (if i is O then close_result (world c0) else None)).
Proof.
  intros (Hc & Ho & _) Hts Hk Hch Hwg. destruct c0 as [w l cr].
  simpl in *. subst l cr.
  destruct (one_by_one_runs ts w k (length ts) Hk Ho Hch Hwg (le_n _))
    as (A & _ & _ & _ & _ & B & C).
  split; [exact A|]. split; [exact B|]. intros i t Hi.
  rewrite (C i t Hi). rewrite decide_True; [reflexivity|].
  eapply lookup_lt_Some, Hi.
Qed.

(** ** The close coordinator *)

(** C1: from the start of a connection lifetime, whatever the calls to
    [Close] and however the scheduler interleaves them with each other and
    with the loops, the connection is physically closed at most once and the
    callback is invoked at most once; as soon as one call has returned, the
    connection has been closed exactly once and a registered callback has
    been invoked exactly once.  Calls made with no loop registered do return:
    run one after the other, every one of them reaches its return. *)
Theorem Close_teardown_once (c0 : Config) :
  fresh c0 ->
  (forall acts,
      let c := run acts c0 in
      (count is_conn_close (trace (world c))
       <= S (count is_conn_close (trace (world c0))))%nat /\
      (count is_on_close (trace (world c))
       <= count is_on_close (trace (world c0)) + callbacks (world c0))%nat /\
      (forall i t e,
          threads c !! i = Some (TClose t CRet e) ->
          count is_conn_close (trace (world c))
          = S (count is_conn_close (trace (world c0))) /\
          count is_on_close (trace (world c))
          = (count is_on_close (trace (world c0)) + callbacks (world c0))%nat)) /\
  (forall ts k,
      threads c0 = close_calls ts ->
      conn (client (world c0)) = Some k ->
      chans (world c0) !! closeChan (client (world c0)) = Some false ->
      closeWait (client (world c0)) = 0 ->
      let c := run (one_by_one (length ts)) c0 in
      crashed c = None /\
      forall i t, ts !! i = Some t ->
        exists e, threads c !! i = Some (TClose t CRet e)).
Proof.
  intros Hfresh. split.
  - intros acts c.
    pose proof (guard_inv_run _ acts _ (guard_inv_fresh c0 Hfresh)) as Hinv.
    fold c in Hinv. split; [|split].
    + destruct (guard_inv_stage _ _ Hinv) as [[H _]|[[H _]|[H _]]]; lia.
    + destruct (guard_inv_stage _ _ Hinv) as [[_ H]|[[_ H]|[_ H]]]; lia.
    + intros i t e Hi. apply (guard_inv_returned _ _ _ _ _ Hinv Hi).
  - intros ts k Hts Hk Hch Hwg.
    destruct (one_by_one_config c0 ts k Hfresh Hts Hk Hch Hwg) as (A & _ & C).
    split; [exact A|]. intros i t Hi. eexists. apply (C i t Hi).
Qed.

(** Two calls whose steps alternate. *)
Definition alternating : list Action :=
  flat_map (fun _ => [ActStep 0%nat SelClose; ActStep 1%nat SelClose])
           (seq 0 14).

Lemma Close_teardown_once_witness :
  count is_conn_close (trace (world (run alternating demo_two_calls))) = 1%nat /\
  count is_on_close (trace (world (run alternating demo_two_calls))) = 1%nat.
Proof.
  assert (Hfresh : fresh demo_two_calls).
  { split; [reflexivity|]. split; [reflexivity|]. repeat constructor. }
  destruct (Close_teardown_once demo_two_calls Hfresh) as [Hsafe _].
  destruct (Hsafe alternating) as (_ & _ & Hret).
  apply (Hret 0%nat CloseActively (Some "broken pipe")). reflexivity.
Defined.





(** The claim that a second call returns what the first returned: the calls
    that have returned have the same result. *)
Definition close_same_result : Prop :=
  forall c0 acts r1 r2,
    fresh c0 ->
    r1 ∈ results (run acts c0) -> r2 ∈ results (run acts c0) -> r1 = r2.

(** When the physical close fails, the first call returns the error and the
    second returns nil. *)
Lemma Close_results_differ : ~ close_same_result.
Proof.
  intros H.
  assert (Hfresh : fresh demo_two_calls).
  { split; [reflexivity|]. split; [reflexivity|]. repeat constructor. }
  specialize (H demo_two_calls (one_by_one 2) (Some "broken pipe") None Hfresh).
  assert (E : results (run (one_by_one 2) demo_two_calls)
              = [Some "broken pipe"; None]) by reflexivity.
  rewrite E in H. discriminate H; repeat constructor.
Qed.

(** C3, amended: a call to [Close] returns only after the teardown is
    complete, and it returns nil or what the physical close returned; at most
    one call of a lifetime returns an error.  Run one after the other, the
    first call returns what the physical close returned and every later call
    returns nil. *)
Theorem Close_result (c0 : Config) :
  fresh c0 ->
  (forall acts,
      let c := run acts c0 in
      (forall i t e,
          threads c !! i = Some (TClose t CRet e) ->
          (e = None \/ e = close_result (world c0)) /\
          torn_down (world c0) (world c)) /\
      (forall i j t t' e e',
          threads c !! i = Some (TClose t CRet (Some e)) ->
          threads c !! j = Some (TClose t' CRet (Some e')) ->
          i = j)) /\
  (forall ts k,
      threads c0 = close_calls ts ->
      conn (client (world c0)) = Some k ->
      chans (world c0) !! closeChan (client (world c0)) = Some false ->
      closeWait (client (world c0)) = 0 ->
      forall i t, ts !! i = Some t ->
        threads (run (one_by_one (length ts)) c0) !! i
        = Some (TClose t CRet
                  (if i is O then close_result (world c0) else None))).
Proof.
  intros Hfresh. split.
  - intros acts c.
    pose proof (guard_inv_run _ acts _ (guard_inv_fresh c0 Hfresh)) as Hinv.
    fold c in Hinv. split.
    + intros i t e Hi.
      destruct (guard_inv_returned _ _ _ _ _ Hinv Hi) as [A B]. auto.
    + intros i j t t' e e' Hi Hj.
      eapply (gi_carrier _ _ Hinv); eauto.
  - intros ts k Hts Hk Hch Hwg.
    apply (one_by_one_config c0 ts k Hfresh Hts Hk Hch Hwg).
Qed.

Lemma Close_result_witness :
  threads (run (one_by_one 2) demo_two_calls) !! 0%nat
  = Some (TClose CloseActively CRet (Some "broken pipe")) /\
  threads (run (one_by_one 2) demo_two_calls) !! 1%nat
  = Some (TClose CloseActively CRet None).
Proof.
  assert (Hfresh : fresh demo_two_calls).
  { split; [reflexivity|]. split; [reflexivity|]. repeat constructor. }
  destruct (Close_result demo_two_calls Hfresh) as [_ Hseq].
  pose proof (Hseq [CloseActively; CloseActively] 0%nat eq_refl eq_refl
                eq_refl eq_refl) as H.
  split; [exact (H 0%nat _ eq_refl)|exact (H 1%nat _ eq_refl)].
Defined.

(** ** A close frame read by the reader *)

(** [ReadMessage] returned a close-type frame and no error. *)
Definition shutdown_frame (r : ReadResult) : bool :=
  match r_err r with
  | None => r_msgType r =? websocket.CloseMessage
  | Some _ => false
  end.

(** Goroutines from which no call [Close(CloseReadingConnError)] can come:
    calls to [Close] for a shutdown message, a reader that holds a close
    frame or is past its loop, and event loops. *)
Definition shutdown_only (th : Thread) : bool :=
  match th with
  | TClose t _ _ => t =? CloseReceivedShutdownMessage
  | TReader (RGot r) => shutdown_frame r
  | TReader RDeferLog | TReader RDeferDone | TReader RExit => true
  | TReader _ => false
  | TEvent _ => true
  end.

(** Actions of the scheduler alone: the caller neither calls [Close] nor
    [Run]. *)
Definition scheduler_only (a : Action) : bool :=
  match a with
  | ActClose _ | ActRun => false
  | _ => true
  end.

(** The reasons the callback was given since the trace was [tr0] are all
    [CloseReceivedShutdownMessage]. *)
Definition shutdown_reasons (tr0 : list Event) (c : Config) : Prop :=
  Forall (fun th => shutdown_only th = true) (threads c) /\
  exists ts,
    on_close_types (trace (world c)) = on_close_types tr0 ++ ts /\
    Forall (fun t => t = CloseReceivedShutdownMessage) ts.

(** The schedule of a shutdown started by the reader (goroutine 0) next to
    the event loop (goroutine 1): the reader starts the call to [Close]
    (goroutine 2) and leaves, the call closes the close signal, the event
    loop sees it and leaves, the call finishes the teardown. *)
Definition shutdown_schedule : list Action :=
  solo 0 3 ++ solo 2 7 ++ solo 1 3 ++ solo 2 5.

Lemma update_once_trace (f : Once -> Once) (w : World) :
  trace (update_once f w) = trace w.
Proof. unfold update_once. now destruct (onces w !! once (client w)). Qed.

Lemma Close_step_types (t : Z) (pc : ClosePc) (err : option error)
    (w w' : World) (th' : Thread) (sp : list Thread) :
  Close_step t pc err w = Next th' w' sp ->
  (exists pc' e', th' = TClose t pc' e') /\ sp = [] /\
  (on_close_types (trace w') = on_close_types (trace w) \/
   on_close_types (trace w') = on_close_types (trace w) ++ [t]).
Proof.
  intros H. destruct pc; simpl in H;
    repeat match type of H with
      | context [match ?x with _ => _ end] => destruct x eqn:?
      end;
    try discriminate; injection H as <- <- <-;
    (split; [eauto|split; [reflexivity|]]);
    rewrite ?update_once_trace; simpl;
    rewrite ?on_close_types_snoc by reflexivity; auto.
  - left.
    match goal with
    | H : net_write ?k ?ty ?d ?w0 = (_, ?w1) |- _ =>
        pose proof (net_write_trace k ty d w0) as Ht; rewrite H in Ht
    end.
    simpl in Ht. rewrite Ht. now apply on_close_types_snoc.
  - left.
    match goal with
    | H : net_close ?k ?w0 = (_, ?w1) |- _ =>
        unfold net_close in H; destruct (conns w0 !! k); injection H as _ <-
    end; simpl; now apply on_close_types_snoc.
  - right. now rewrite on_close_types_app.
Qed.

Lemma eventLoop_step_thread (pc : EventPc) (sel : Select) (w w' : World)
    (th : Thread) (sp : list Thread) :
  eventLoop_step pc sel w = Next th w' sp -> exists pc', th = TEvent pc'.
Proof.
  intros H. destruct pc; simpl in H; try destruct sel;
    repeat match type of H with
      | context [match ?x with _ => _ end] => destruct x eqn:?
      end;
    try discriminate; injection H as <- <- <-; eauto.
Qed.

Lemma shutdown_only_step (th th' : Thread) (sel : Select) (w w' : World)
    (sp : list Thread) :
  thread_step th sel w = Next th' w' sp ->
  shutdown_only th = true ->
  shutdown_only th' = true /\
  Forall (fun x => shutdown_only x = true) sp /\
  exists ts,
    on_close_types (trace w') = on_close_types (trace w) ++ ts /\
    Forall (fun t => t = CloseReceivedShutdownMessage) ts.
Proof.
  intros Hst Hok. destruct th as [t pc e|pc|pc]; simpl in Hst.
  - destruct (Close_step_types t pc e w w' th' sp Hst)
      as ((pc' & e' & ->) & -> & Htr).
    simpl in Hok |- *. split; [exact Hok|]. split; [constructor|].
    apply Z.eqb_eq in Hok. destruct Htr as [Htr|Htr]; rewrite Htr.
    + exists []. rewrite app_nil_r. auto.
    + exists [t]. auto.
  - pose proof (readMessage_step_same_guard pc w w' th' sp Hst) as (Hsg & _ & _).
    assert (Hgo : shutdown_only th' = true /\
                  Forall (fun x => shutdown_only x = true) sp).
    { destruct pc; simpl in Hok, Hst; try discriminate.
      - unfold shutdown_frame in Hok.
        destruct (r_err r); [discriminate|]. rewrite Hok in Hst.
        injection Hst as <- <- <-. split; [reflexivity|]. repeat constructor.
      - injection Hst as <- <- <-. auto.
      - destruct (wg_add (-1) w); [|discriminate].
        injection Hst as <- <- <-. auto. }
    destruct Hgo as [A B]. split; [exact A|]. split; [exact B|].
    exists []. rewrite app_nil_r. split; [apply Hsg|constructor].
  - pose proof (eventLoop_step_same_guard pc sel w w' th' sp Hst)
      as (Hsg & Hth' & ->).
    destruct (eventLoop_step_thread pc sel w w' th' [] Hst) as [pc' ->].
    split; [reflexivity|]. split; [constructor|].
    exists []. rewrite app_nil_r. split; [apply Hsg|constructor].
Qed.

Lemma shutdown_reasons_exec (tr0 : list Event) (a : Action) (c : Config) :
  scheduler_only a = true ->
  shutdown_reasons tr0 c -> shutdown_reasons tr0 (exec a c).
Proof.
  intros Ha [Hths (ts & Htr & Hts)]. unfold exec, exec_opt.
  destruct (crashed c); [now split; eauto|].
  destruct a as [tid sel|d|t| |]; try discriminate; simpl.
  - destruct (threads c !! tid) as [th|] eqn:Htid; [|now split; eauto].
    destruct (thread_step th sel (world c)) as [|why|th' w' sp] eqn:Hst;
      simpl; [now split; eauto..|].
    assert (Hth : shutdown_only th = true).
    { eapply Forall_forall in Hths; [exact Hths|].
      eapply list_elem_of_lookup_2, Htid. }
    destruct (shutdown_only_step th th' sel (world c) w' sp Hst Hth)
      as (A & B & ts' & Htr' & Hts').
    unfold shutdown_reasons. simpl. split.
    + apply Forall_app. split; [|exact B]. now apply Forall_insert.
    + exists (ts ++ ts'). rewrite Htr', Htr, app_assoc. split; [reflexivity|].
      now apply Forall_app.
  - destruct (0 <? d); simpl; [|now split; eauto]. split; [|eauto].
    apply Forall_fmap. eapply Forall_impl; [exact Hths|].
    intros [t pc e|pc|[]]; simpl; auto.
  - split; eauto.
Qed.

Lemma shutdown_reasons_run (tr0 : list Event) (acts : list Action) (c : Config) :
  Forall (fun a => scheduler_only a = true) acts ->
  shutdown_reasons tr0 c -> shutdown_reasons tr0 (run acts c).
Proof.
  intros Hacts. revert c. induction Hacts as [|a acts Ha _ IH]; intros c H;
    [exact H|].
  rewrite run_cons. apply IH, shutdown_reasons_exec; assumption.
Qed.

(** Brings a world built by field updates back to its fields. *)
Ltac flat :=
  cbv beta delta
    [log emit with_client set_conn set_msgChan set_dispatcher set_authed
     set_onClose set_closeWait set_once set_closeChan set_isClosed set_onces
     set_chans set_conns set_dialed set_done set_locked];
  cbn [client onces chans conns dialer dialed codec trace
       logger conn msgChan dispatcher authed onClose closeWait once closeChan
       isClosed done locked inbox conn_closed closeErr writeErrs
       world threads crashed app insert list_insert].

(** Rewrite the innermost step of a run whose goroutines are listed. *)
Ltac run_step :=
  match goal with
  | |- context [exec (ActStep ?t ?s) (mkConfig ?w ?ths None)] =>
      erewrite (exec_step (mkConfig w ths None) t s);
      [|reflexivity|reflexivity|solve [eval_world; reflexivity]];
      flat
  end.

Lemma shutdown_runs (w : World) (r : ReadResult) (tm : Timers) (k : Conn)
    (cb : nat) :
  shutdown_frame r = true ->
  conn (client w) = Some k ->
  cur_once w = Some (mkOnce false false) ->
  chans w !! closeChan (client w) = Some false ->
  closeWait (client w) = 2 ->
  onClose (client w) = Some cb ->
  let c := run shutdown_schedule
             (mkConfig w [TReader (RGot r); TEvent (ESelect tm)] None) in
  crashed c = None /\
  threads c = [TReader RExit; TEvent EExit;
               TClose CloseReceivedShutdownMessage CRet (close_result w)] /\
  on_close_types (trace (world c))
  = on_close_types (trace w) ++ [CloseReceivedShutdownMessage].
Proof.
  intros Hr Hk Ho Hch Hwg Hcb. cbv zeta.
  destruct w as [[lg cn q dsp au oc wg op ch ic] os chs cns dl dd cd tr].
  destruct r as [ty buf e].
  unfold cur_once, shutdown_frame in *. simpl in Hr, Hk, Ho, Hch, Hwg, Hcb.
  subst cn wg oc.
  destruct e; [discriminate|]. apply Z.eqb_eq in Hr. subst ty.
  assert (Hop : (op < length os)%nat) by (eapply lookup_lt_Some, Ho).
  assert (Hchl : (ch < length chs)%nat) by (eapply lookup_lt_Some, Hch).
  assert (Hsplit : (exists cs, cns !! k = Some cs /\
                      (conn_closed cs = true \/
                       (conn_closed cs = false /\
                        (writeErrs cs = [] \/
                         exists x xs, writeErrs cs = x :: xs)))) \/
                   cns !! k = None).
  { destruct (cns !! k) as [cs|]; [left; exists cs; split; [reflexivity|]|auto].
    destruct (conn_closed cs); [auto|right; split; [reflexivity|]].
    destruct (writeErrs cs); eauto. }
  destruct Hsplit as [(cs & Hcs & [Hcl|[Hcl [Hwe|(x & xs & Hwe)]]])|Hcs];
    try (assert (Hk : (k < length cns)%nat) by (eapply lookup_lt_Some, Hcs));
    match goal with
    | |- context [run shutdown_schedule ?c0] =>
        eassert (Hrun : run shutdown_schedule c0 = _)
          by (unfold shutdown_schedule, solo, run; cbn [repeat app foldl];
              do 18 run_step; reflexivity)
    end;
    rewrite Hrun; cbn [crashed threads world];
    (split;
       [reflexivity
       |split;
        [unfold close_result; cbn [client conn conns]; rewrite Hcs;
         reflexivity
        |cbn [trace];
         rewrite (on_close_types_app _ [EvOnClose _ _]);
         rewrite !on_close_types_snoc by reflexivity; reflexivity]]).
Qed.

(** The branch of [readMessage] for a message of type
    [websocket.CloseMessage] read without an error: the reader logs it,
    starts one call [Close(CloseReceivedShutdownMessage)], whose close type
    is 4, and leaves its loop.  Whatever the scheduler does next, every
    invocation of the callback has that close type; and next to an event
    loop, with an unused guard and a registered callback, the shutdown runs
    to its end with the callback invoked once, with
    [CloseReceivedShutdownMessage].  This is what the branch is written to
    do; [ReadMessage] reports the close frame of a peer another way, see
    [peer_close_frame] below. *)
Theorem readMessage_shutdown_frame (w : World) (r : ReadResult) (tm : Timers) :
  shutdown_frame r = true ->
  CloseReceivedShutdownMessage = 4 /\
  CloseReceivedShutdownMessage <> CloseReadingConnError /\
  readMessage_step (RGot r) w
  = Next (TReader RDeferLog)
         (log LInfo "received shutdown message"
              [AInt "msg_type" (r_msgType r)] w)
         [TClose CloseReceivedShutdownMessage CLog None] /\
  (forall acts,
      Forall (fun a => scheduler_only a = true) acts ->
      let c := run acts
                 (mkConfig w [TReader (RGot r); TEvent (ESelect tm)] None) in
      exists ts,
        on_close_types (trace (world c)) = on_close_types (trace w) ++ ts /\
        Forall (fun t => t = CloseReceivedShutdownMessage) ts) /\
  (forall k cb,
      conn (client w) = Some k ->
      cur_once w = Some (mkOnce false false) ->
      chans w !! closeChan (client w) = Some false ->
      closeWait (client w) = 2 ->
      onClose (client w) = Some cb ->
      let c := run shutdown_schedule
                 (mkConfig w [TReader (RGot r); TEvent (ESelect tm)] None) in
      crashed c = None /\
      threads c = [TReader RExit; TEvent EExit;
                   TClose CloseReceivedShutdownMessage CRet (close_result w)] /\
      on_close_types (trace (world c))
      = on_close_types (trace w) ++ [CloseReceivedShutdownMessage]).
Proof.
  intros Hr. split; [reflexivity|]. split; [discriminate|]. split; [|split].
  - unfold shutdown_frame in Hr. simpl.
    destruct (r_err r); [discriminate|]. now rewrite Hr.
  - intros acts Hacts c.
    assert (H0 : shutdown_reasons (trace w)
                   (mkConfig w [TReader (RGot r); TEvent (ESelect tm)] None)).
    { split.
      - repeat constructor. exact Hr.
      - exists []. simpl. rewrite app_nil_r. split; [reflexivity|constructor]. }
    apply (shutdown_reasons_run _ acts _ Hacts H0).
  - intros k cb Hk Ho Hch Hwg Hcb.
    apply (shutdown_runs w r tm k cb); assumption.
Qed.

Lemma readMessage_shutdown_frame_witness :
  on_close_types
    (trace (world
       (run shutdown_schedule
          (mkConfig (with_client (set_closeWait 2) demo_world)
             [TReader (RGot (mkRead websocket.CloseMessage [] None));
              TEvent (ESelect (mkTimers 0 false false))] None))))
  = [CloseReceivedShutdownMessage].
Proof.
  destruct (readMessage_shutdown_frame
              (with_client (set_closeWait 2) demo_world)
              (mkRead websocket.CloseMessage [] None)
              (mkTimers 0 false false) eq_refl)
    as (_ & _ & _ & _ & Hrun).
  destruct (Hrun 0%nat 1%nat eq_refl eq_refl eq_refl eq_refl eq_refl)
    as (_ & _ & Htypes).
  exact Htypes.
Defined.

(** ** The close frame of the peer *)

(** What [conn.ReadMessage()] returns when the frame of the peer is a close
    frame with the normal closure code and no text.  The transport,
    gorilla/websocket, handles control frames itself: [ReadMessage] returns
    data frames only, and reports a close frame as the error [*CloseError],
    with [noFrame], that is -1, as message type and no data. *)
Definition peer_close_frame : ReadResult :=
  mkRead (-1) [] (Some "websocket: close 1000 (normal)").

(** The reader holds the close frame of the peer, next to an event loop in
    its [select], on the client of [demo_world]. *)
Definition demo_peer_closes : Config :=
  mkConfig (with_client (set_closeWait 2) demo_world)
    [TReader (RGot peer_close_frame);
     TEvent (ESelect (mkTimers 0 false false))] None.

(** C4: the close frame of the peer does not reach the branch for
    [websocket.CloseMessage]: it is read as an error.  On a client that is
    not closing, the reader logs "read message fail" and starts
    [Close(CloseReadingConnError)]; the shutdown that follows invokes the
    callback once, with [CloseReadingConnError], not with
    [CloseReceivedShutdownMessage]. *)
Theorem readMessage_peer_close_frame :
  shutdown_frame peer_close_frame = false /\
  (forall w,
      readMessage_step (RGot peer_close_frame) w
      = if isClosed (client w)
        then Next (TReader RDeferLog) w []
        else Next (TReader RDeferLog)
               (log LError "read message fail"
                    [AStr "err" (Wrapf "websocket: close 1000 (normal)"
                                   ("msg_type:" +:+ pretty (-1)))] w)
               [TClose CloseReadingConnError CLog None]) /\
  crashed (run shutdown_schedule demo_peer_closes) = None /\
  threads (run shutdown_schedule demo_peer_closes)
  = [TReader RExit; TEvent EExit;
     TClose CloseReadingConnError CRet (Some "broken pipe")] /\
  on_close_types (trace (world (run shutdown_schedule demo_peer_closes)))
  = [CloseReadingConnError] /\
  on_close_types (trace (world (run shutdown_schedule demo_peer_closes)))
  <> [CloseReceivedShutdownMessage].
Proof.
  split; [reflexivity|]. split.
  { intros w. simpl. now destruct (isClosed (client w)). }
  split; [vm_compute; reflexivity|]. split; [vm_compute; reflexivity|].
  split; [vm_compute; reflexivity|vm_compute; discriminate].
Qed.

(** * The loops and the wait group *)

(** The loop is between its [closeWait.Add(1)] and its deferred
    [closeWait.Done()]. *)
Definition registered_loop (th : Thread) : nat :=
  match th with
  | TReader pc =>
      match pc with RStart | RAdd | RExit => 0%nat | _ => 1%nat end
  | TEvent pc =>
      match pc with EStart | EAdd | EExit => 0%nat | _ => 1%nat end
  | TClose _ _ _ => 0%nat
  end.

(** The counter of the wait group is the number of loops registered. *)
Definition wg_balanced (c : Config) : Prop :=
  closeWait (client (world c))
  = Z.of_nat (sum_list_with registered_loop (threads c)).

(** The queue holds no more than its capacity. *)
Definition queue_bounded (c : Config) : Prop :=
  (length (msgChan (client (world c))) <= msgChanCap)%nat.

Lemma net_write_client (c : Conn) (ty : Z) (data : list Z) (w : World) :
  client (snd (net_write c ty data w)) = client w.
Proof. apply (net_write_guard c ty data w). Qed.

Lemma net_close_client (c : Conn) (w : World) :
  client (snd (net_close c w)) = client w.
Proof. unfold net_close. now destruct (conns w !! c). Qed.

Lemma net_read_client (c : Conn) (w w' : World) (r : ReadResult) :
  net_read c w = Some (r, w') -> client w' = client w.
Proof.
  unfold net_read. destruct (conns w !! c) as [cs|]; [|now intros [= _ <-]].
  destruct (conn_closed cs); [now intros [= _ <-]|].
  destruct (inbox cs); [discriminate|]. now intros [= _ <-].
Qed.

Lemma update_once_client (f : Once -> Once) (w : World) :
  client (update_once f w) = client w.
Proof. unfold update_once. now destruct (onces w !! once (client w)). Qed.

Lemma dispatch_client (msg : option Message) (w : World) :
  client (dispatch msg w) = client w.
Proof.
  unfold dispatch. destruct msg as [m|]; [|reflexivity].
  destruct (dispatcher (client w) !! Operation m) as [h|]; [|reflexivity].
  now destruct (h m).
Qed.

Lemma SendMessage_client (msg : Message) (w w' : World) (r : option error) :
  SendMessage msg w = Some (r, w') -> client w' = client w.
Proof.
  unfold SendMessage. destruct (conn (client w)) as [c|]; [|discriminate].
  pose proof (net_write_client c websocket.BinaryMessage
                (ToBytes (codec w) msg) w) as H.
  destruct (net_write c websocket.BinaryMessage _ w) as [[e|] w1];
    intros [= _ <-]; exact H.
Qed.

Lemma wg_add_client (d : Z) (w w' : World) :
  wg_add d w = Some w' ->
  client w' = set_closeWait (closeWait (client w) + d) (client w) /\
  0 <= closeWait (client w) + d.
Proof.
  unfold wg_add. destruct (closeWait (client w) + d <? 0) eqn:E; [discriminate|].
  intros [= <-]. split; [reflexivity|]. now apply Z.ltb_ge.
Qed.

(** What one step of [Close] does to the client: nothing, but for the
    [isClosed] flag. *)
Lemma Close_step_client (t : Z) (pc : ClosePc) (err : option error)
    (w w' : World) (th' : Thread) (sp : list Thread) :
  Close_step t pc err w = Next th' w' sp ->
  client w' = client w \/ client w' = set_isClosed true (client w).
Proof.
  intros H. destruct pc; simpl in H;
    repeat match type of H with
      | context [match ?x with _ => _ end] => destruct x eqn:?
      end;
    try discriminate; injection H as <- <- <-;
    rewrite ?update_once_client; auto.
  - left. match goal with
    | H : net_write ?k ?ty ?d ?w0 = (_, ?w1) |- _ =>
        pose proof (net_write_client k ty d w0) as Hc; now rewrite H in Hc
    end.
  - left. match goal with
    | H : net_close ?k ?w0 = (_, ?w1) |- _ =>
        pose proof (net_close_client k w0) as Hc; now rewrite H in Hc
    end.
Qed.

(** Splits the matches of a step equation [H]. *)
Ltac split_step H :=
  repeat match type of H with
    | context [match ?x with _ => _ end] => destruct x eqn:?
    end;
  try discriminate; injection H as <- <- <-.

Lemma push_next_registered (rest : list Message) :
  registered_loop (TReader (push_next rest)) = 1%nat.
Proof. now destruct rest. Qed.

(** A step of the reader moves the counter with its registration, and adds
    to the queue at most one message, when there is room. *)
Lemma readMessage_step_effect (pc : ReaderPc) (w w' : World) (th' : Thread)
    (sp : list Thread) :
  readMessage_step pc w = Next th' w' sp ->
  closeWait (client w') + Z.of_nat (registered_loop (TReader pc))
  = closeWait (client w) + Z.of_nat (registered_loop th') /\
  Forall (fun x => registered_loop x = 0%nat) sp /\
  (msgChan (client w') = msgChan (client w) \/
   exists m, msgChan (client w') = msgChan (client w) ++ [Some m] /\
             (length (msgChan (client w)) < msgChanCap)%nat).
Proof.
  intros H. destruct pc; simpl in H; split_step H;
    rewrite ?push_next_registered; simpl;
    repeat match goal with
      | H : wg_add _ _ = Some _ |- _ =>
          apply wg_add_client in H as [-> ?]
      | H : net_read _ _ = Some _ |- _ =>
          apply net_read_client in H as ->
      end;
    simpl; (split; [lia|split; [repeat constructor|]]); auto.
  right. eexists. split; [reflexivity|]. now apply Nat.ltb_lt.
Qed.

(** A step of the event loop moves the counter with its registration, and
    takes at most the first message off the queue. *)
Lemma eventLoop_step_effect (pc : EventPc) (sel : Select) (w w' : World)
    (th' : Thread) (sp : list Thread) :
  eventLoop_step pc sel w = Next th' w' sp ->
  closeWait (client w') + Z.of_nat (registered_loop (TEvent pc))
  = closeWait (client w) + Z.of_nat (registered_loop th') /\
  sp = [] /\
  (msgChan (client w') = msgChan (client w) \/
   exists m, msgChan (client w) = m :: msgChan (client w')).
Proof.
  intros H. destruct pc; simpl in H; try destruct sel; split_step H; simpl;
    rewrite ?dispatch_client;
    repeat match goal with
      | H : wg_add _ _ = Some _ |- _ =>
          apply wg_add_client in H as [-> ?]
      | H : SendHeartbeat _ = Some _ |- _ =>
          apply SendMessage_client in H; simpl in H; rewrite H
      end;
    simpl; (split; [lia|split; [reflexivity|]]); eauto.
Qed.

(** A step of [Close] touches neither the counter nor the queue. *)
Lemma Close_step_effect (t : Z) (pc : ClosePc) (err : option error)
    (w w' : World) (th' : Thread) (sp : list Thread) :
  Close_step t pc err w = Next th' w' sp ->
  closeWait (client w') = closeWait (client w) /\
  msgChan (client w') = msgChan (client w) /\
  registered_loop th' = 0%nat /\ sp = [].
Proof.
  intros H.
  destruct (Close_step_types t pc err w w' th' sp H) as ((pc' & e' & ->) & -> & _).
  destruct (Close_step_client t pc err w w' _ _ H) as [-> | ->]; auto.
Qed.

Lemma sum_registered_insert (l : list Thread) (tid : nat) (th th' : Thread) :
  l !! tid = Some th ->
  (sum_list_with registered_loop (<[tid := th']> l) + registered_loop th
   = sum_list_with registered_loop l + registered_loop th')%nat.
Proof.
  revert tid. induction l as [|x l IH]; intros tid H; [discriminate|].
  destruct tid as [|tid]; simpl in *.
  - injection H as ->. lia.
  - specialize (IH tid H). lia.
Qed.

Lemma sum_registered_none (sp : list Thread) :
  Forall (fun x => registered_loop x = 0%nat) sp ->
  sum_list_with registered_loop sp = 0%nat.
Proof. induction 1 as [|x sp Hx _ IH]; simpl; lia. Qed.

Lemma sum_registered_advance (d : Z) (l : list Thread) :
  sum_list_with registered_loop (advance_thread d <$> l)
  = sum_list_with registered_loop l.
Proof.
  induction l as [|x l IH]; [reflexivity|].
  change (registered_loop (advance_thread d x)
          + sum_list_with registered_loop (advance_thread d <$> l)
          = registered_loop x + sum_list_with registered_loop l)%nat.
  rewrite IH. f_equal. destruct x as [t pc e|pc|[]]; reflexivity.
Qed.

(** The effect of any step on the counter and the queue. *)
Lemma thread_step_effect (th th' : Thread) (sel : Select) (w w' : World)
    (sp : list Thread) :
  thread_step th sel w = Next th' w' sp ->
  closeWait (client w') + Z.of_nat (registered_loop th)
  = closeWait (client w) + Z.of_nat (registered_loop th') /\
  Forall (fun x => registered_loop x = 0%nat) sp /\
  (length (msgChan (client w)) <= msgChanCap ->
   length (msgChan (client w')) <= msgChanCap)%nat.
Proof.
  intros H. destruct th as [t pc e|pc|pc]; simpl in H.
  - destruct (Close_step_effect t pc e w w' th' sp H) as (A & B & C & ->).
    rewrite A, B, C. simpl. split; [lia|]. split; [constructor|auto].
  - destruct (readMessage_step_effect pc w w' th' sp H) as (A & B & C).
    split; [exact A|]. split; [exact B|].
    destruct C as [->|(m & -> & Hlt)]; [auto|].
    rewrite length_app. simpl. lia.
  - destruct (eventLoop_step_effect pc sel w w' th' sp H) as (A & -> & C).
    split; [exact A|]. split; [constructor|].
    destruct C as [->|(m & ->)]; [auto|]. simpl. lia.
Qed.

(** With a balanced counter neither [Add] nor [Done] panics. *)
Lemma thread_step_no_underflow (c : Config) (tid : nat) (th : Thread)
    (sel : Select) :
  wg_balanced c ->
  threads c !! tid = Some th ->
  thread_step th sel (world c) <> Panic "negative WaitGroup counter".
Proof.
  unfold wg_balanced. intros Hb Hth.
  assert (Hle : Z.of_nat (registered_loop th) <= closeWait (client (world c))).
  { rewrite Hb. apply inj_le, sum_list_with_in.
    eapply list_elem_of_lookup_2, Hth. }
  assert (H0 : 0 <= closeWait (client (world c))) by lia.
  destruct th as [t pc e|pc|pc]; simpl.
  - destruct pc; simpl;
      repeat match goal with
        | |- context [match ?x with _ => _ end] => destruct x
        end; discriminate.
  - destruct pc; simpl; unfold wg_add; simpl in Hle;
      repeat match goal with
        | |- context [if ?x <? 0 then _ else _] =>
            destruct (x <? 0) eqn:E; [apply Z.ltb_lt in E; lia|]
        | |- context [match ?x with _ => _ end] => destruct x
        end; discriminate.
  - destruct pc; simpl; unfold wg_add; simpl in Hle; try destruct sel;
      repeat match goal with
        | |- context [if ?x <? 0 then _ else _] =>
            destruct (x <? 0) eqn:E; [apply Z.ltb_lt in E; lia|]
        | |- context [match ?x with _ => _ end] => destruct x
        end; discriminate.
Qed.

Lemma wait_queue_exec (a : Action) (c : Config) :
  wg_balanced c ->
  crashed c <> Some "negative WaitGroup counter" ->
  wg_balanced (exec a c) /\
  crashed (exec a c) <> Some "negative WaitGroup counter" /\
  (queue_bounded c -> queue_bounded (exec a c)).
Proof.
  intros Hb Hcr. unfold exec, exec_opt.
  destruct (crashed c) eqn:Hc; [(simpl; split; [exact Hb|split; [congruence|auto]])|].
  destruct a as [tid sel|d|t| |]; simpl.
  - destruct (threads c !! tid) as [th|] eqn:Htid; simpl;
      [|(simpl; split; [exact Hb|split; [congruence|auto]])].
    pose proof (thread_step_no_underflow c tid th sel Hb Htid) as Hno.
    destruct (thread_step th sel (world c)) as [|why|th' w' sp] eqn:Hst; simpl.
    + (simpl; split; [exact Hb|split; [congruence|auto]]).
    + split; [exact Hb|]. split; [congruence|auto].
    + destruct (thread_step_effect th th' sel (world c) w' sp Hst)
        as (A & B & C).
      unfold wg_balanced, queue_bounded in *. simpl.
      split; [|split; [discriminate|exact C]].
      rewrite sum_list_with_app, (sum_registered_none sp B).
      pose proof (sum_registered_insert (threads c) tid th th' Htid). lia.
  - destruct (0 <? d); simpl; [|(simpl; split; [exact Hb|split; [congruence|auto]])].
    unfold wg_balanced, queue_bounded in *. simpl.
    rewrite sum_registered_advance. split; [exact Hb|]. split; [discriminate|auto].
  - unfold wg_balanced, queue_bounded in *. simpl.
    rewrite sum_list_with_app. simpl.
    split; [rewrite Hb; f_equal; lia|]. split; [discriminate|auto].
  - unfold wg_balanced, queue_bounded in *. simpl.
    split; [exact Hb|]. split; [discriminate|auto].
  - unfold wg_balanced, queue_bounded in *. simpl.
    rewrite sum_list_with_app. simpl.
    split; [rewrite Hb; f_equal; lia|]. split; [congruence|auto].
Qed.

Lemma wait_queue_run (acts : list Action) (c : Config) :
  wg_balanced c ->
  crashed c <> Some "negative WaitGroup counter" ->
  wg_balanced (run acts c) /\
  crashed (run acts c) <> Some "negative WaitGroup counter" /\
  (queue_bounded c -> queue_bounded (run acts c)).
Proof.
  revert c. induction acts as [|a acts IH]; intros c Hb Hc; [auto|].
  rewrite run_cons.
  destruct (wait_queue_exec a c Hb Hc) as (A & B & C).
  destruct (IH _ A B) as (A' & B' & C'). auto.
Qed.

(** A client built by [NewWsClient], dialed and run. *)
Definition demo_running : Config :=
  Run (mkConfig demo_world [] None).

(** X1: the counter of the wait group always equals the number of loops
    that are between their [Add(1)] and their deferred [Done()], under every
    schedule and whatever the caller does, so that neither call ever panics
    on a negative counter. *)
Theorem loops_balance_wait_group (c0 : Config) (acts : list Action) :
  wg_balanced c0 ->
  crashed c0 = None ->
  wg_balanced (run acts c0) /\
  0 <= closeWait (client (world (run acts c0))) /\
  crashed (run acts c0) <> Some "negative WaitGroup counter".
Proof.
  intros Hb Hc.
  destruct (wait_queue_run acts c0 Hb) as (A & B & _); [congruence|].
  split; [exact A|]. split; [|exact B]. rewrite A. lia.
Qed.

Lemma loops_balance_wait_group_witness :
  closeWait (client (world
     (run (solo 0 2 ++ solo 1 2 ++ [ActAdvance 5; ActClose CloseActively])
          demo_running)))
  = 2.
Proof.
  destruct (loops_balance_wait_group demo_running
              (solo 0 2 ++ solo 1 2 ++ [ActAdvance 5; ActClose CloseActively]))
    as (H & _); [reflexivity|reflexivity|].
  rewrite H. reflexivity.
Defined.

Lemma queue_bounded_run (acts : list Action) (c0 : Config) :
  queue_bounded c0 -> queue_bounded (run acts c0).
Proof.
  revert c0. induction acts as [|a acts IH]; intros c0 Hq; [exact Hq|].
  rewrite run_cons. apply IH. unfold exec, exec_opt.
  destruct (crashed c0); [exact Hq|].
  destruct a as [tid sel|d|t| |]; simpl; try exact Hq.
  - destruct (threads c0 !! tid) as [th|]; [|exact Hq].
    destruct (thread_step th sel (world c0)) as [|why|th' w' sp] eqn:Hst;
      simpl; try exact Hq.
    apply (thread_step_effect th th' sel (world c0) w' sp Hst), Hq.
  - destruct (0 <? d); exact Hq.
Qed.

(** X2: the queue between the reader and the event loop.  Under every
    schedule the queue holds at most its 1024 messages.  In every state the
    program reaches, a reader that has a message to queue puts it at the end
    of the queue when there is room; when the queue is full its send waits,
    the program does not move, and as soon as an event loop has taken the
    first message the send goes through, behind the messages that were
    waiting. *)
Theorem queue_within_capacity (c0 : Config) (acts : list Action) :
  queue_bounded c0 ->
  let c := run acts c0 in
  let q := msgChan (client (world c)) in
  (length q <= 1024)%nat /\
  forall tid sel m rest,
    crashed c = None ->
    threads c !! tid = Some (TReader (RPush (m :: rest))) ->
    ((length q < 1024)%nat ->
     exec (ActStep tid sel) c
     = mkConfig (with_client (set_msgChan (q ++ [Some m])) (world c))
         (<[tid := TReader (push_next rest)]> (threads c)) None) /\
    (length q = 1024%nat ->
     exec (ActStep tid sel) c = c /\
     forall ev tm,
       threads c !! ev = Some (TEvent (ESelect tm)) ->
       let c' := run [ActStep ev SelMsg; ActStep tid sel] c in
       crashed c' = None /\
       msgChan (client (world c')) = tail q ++ [Some m] /\
       threads c' !! tid = Some (TReader (push_next rest))).
Proof.
  intros Hq c q. subst q.
  split; [exact (queue_bounded_run acts c0 Hq)|].
  intros tid sel m rest Hc Htid. split.
  - intros Hlt. erewrite (exec_step_alone c); [reflexivity|exact Hc|exact Htid|].
    simpl. apply Nat.ltb_lt in Hlt.
    change msgChanCap with 1024%nat. now rewrite Hlt.
  - intros Hfull.
    assert (Hwait : readMessage_step (RPush (m :: rest)) (world c) = Blocked).
    { simpl. change msgChanCap with 1024%nat. rewrite Hfull. reflexivity. }
    split.
    { unfold exec, exec_opt. rewrite Hc, Htid.
      change (thread_step (TReader (RPush (m :: rest))) sel (world c))
        with (readMessage_step (RPush (m :: rest)) (world c)).
      now rewrite Hwait. }
    intros ev tm Hev c'. subst c'.
    destruct (msgChan (client (world c))) as [|x q'] eqn:Eq; [discriminate|].
    assert (Hne : ev <> tid) by (intros ->; congruence).
    rewrite run_cons.
    erewrite (exec_step_alone c);
      [|exact Hc|exact Hev|simpl; rewrite Eq; reflexivity].
    rewrite run_cons.
    erewrite exec_step_alone;
      [|reflexivity
       |simpl; rewrite list_lookup_insert_ne by exact Hne; exact Htid
       |].
    2:{ simpl. rewrite dispatch_client. simpl.
        assert (Hl : (length q' <? msgChanCap)%nat = true).
        { apply Nat.ltb_lt. change msgChanCap with 1024%nat.
          simpl in Hfull. lia. }
        rewrite Hl. reflexivity. }
    simpl. split; [reflexivity|]. split; [reflexivity|].
    apply list_lookup_insert_eq. rewrite length_insert.
    eapply lookup_lt_Some, Htid.
Qed.

(** A reader that has read a data frame, next to an event loop; and the same
    two goroutines with a queue that is full. *)
Definition demo_reading : Config :=
  mkConfig
    (set_conns [mkConn [mkRead websocket.BinaryMessage [7] None] false None []]
       (with_client (set_closeWait 2) demo_world))
    [TReader RRead; TEvent (ESelect (mkTimers 0 false false))] None.

Definition demo_full : Config :=
  mkConfig
    (with_client (set_msgChan (repeat None 1024))
       (with_client (set_closeWait 2) demo_world))
    [TReader (RPush [mkMessage 5 [7]]);
     TEvent (ESelect (mkTimers 0 false false))] None.

Lemma queue_within_capacity_witness :
  msgChan (client (world (exec (ActStep 0%nat SelClose)
                            (run (solo 0 2) demo_reading))))
  = [Some (mkMessage 5 [7])] /\
  exec (ActStep 0%nat SelClose) demo_full = demo_full /\
  msgChan (client (world (run [ActStep 1%nat SelMsg; ActStep 0%nat SelClose]
                            demo_full)))
  = repeat None 1023 ++ [Some (mkMessage 5 [7])].
Proof.
  split; [|split].
  - destruct (queue_within_capacity demo_reading (solo 0 2)) as (_ & H).
    { unfold queue_bounded. simpl. lia. }
    destruct (H 0%nat SelClose (mkMessage 5 [7]) [] eq_refl eq_refl)
      as (Hroom & _).
    rewrite Hroom; [reflexivity|simpl; lia].
  - destruct (queue_within_capacity demo_full []) as (_ & H).
    { unfold queue_bounded. apply Nat.leb_le. vm_compute. reflexivity. }
    destruct (H 0%nat SelClose (mkMessage 5 [7]) [] eq_refl eq_refl)
      as (_ & Hfull).
    destruct Hfull as (Hwait & _); [vm_compute; reflexivity|].
    exact Hwait.
  - destruct (queue_within_capacity demo_full []) as (_ & H).
    { unfold queue_bounded. apply Nat.leb_le. vm_compute. reflexivity. }
    destruct (H 0%nat SelClose (mkMessage 5 [7]) [] eq_refl eq_refl)
      as (_ & Hfull).
    destruct Hfull as (_ & Hgo); [vm_compute; reflexivity|].
    destruct (Hgo 1%nat (mkTimers 0 false false) eq_refl) as (_ & Hq & _).
    exact Hq.
Defined.



(** X4: the join does not cover a loop that has not registered yet.  When
    [Close] is called right after [Run], before either goroutine has reached
    its [closeWait.Add(1)], the call finds the counter at zero, closes the
    connection, invokes the callback and returns while both loops have not
    taken a step. *)
Theorem Close_before_loops_register (w : World) (t : Z) (k : Conn) :
  conn (client w) = Some k ->
  cur_once w = Some (mkOnce false false) ->
  chans w !! closeChan (client w) = Some false ->
  closeWait (client w) = 0 ->
  let c := run ([ActRun; ActClose t] ++ solo 2 12) (mkConfig w [] None) in
  crashed c = None /\
  threads c = [TReader RStart; TEvent EStart; TClose t CRet (close_result w)] /\
  trace (world c)
  = trace w ++ close_prologue k t ++ close_teardown k t (onClose (client w)).
Proof.
  intros Hk Ho Hch Hwg. cbv zeta. rewrite run_app.
  change (run [ActRun; ActClose t] (mkConfig w [] None))
    with (mkConfig w [TReader RStart; TEvent EStart; TClose t CLog None] None).
  destruct (Close_first t w k Hk Ho Hch Hwg) as (w' & HC & _ & _ & _ & Htr).
  rewrite (Close_solo
             (mkConfig w [TReader RStart; TEvent EStart; TClose t CLog None] None)
             2%nat t _ w' eq_refl eq_refl HC).
  simpl. auto.
Qed.

Lemma Close_before_loops_register_witness :
  threads (run ([ActRun; ActClose CloseActively] ++ solo 2 12)
             (mkConfig demo_world [] None))
  = [TReader RStart; TEvent EStart;
     TClose CloseActively CRet (Some "broken pipe")].
Proof.
  destruct (Close_before_loops_register demo_world CloseActively 0%nat)
    as (_ & H & _); [reflexivity..|].
  exact H.
Defined.

(** * A peer that stays silent *)

(** The call to [Close] has not passed its [closeWait.Wait()]. *)
Definition early_close (th : Thread) : bool :=
  match th with
  | TClose _ pc _ =>
      match pc with
      | CLog | CWrite | CDoFast | CDoLock | CDoCheck
      | CBodyCloseChan | CBodySetClosed | CBodyWait => true
      | _ => false
      end
  | _ => true
  end.

(** The client is bound to connection [k], which is open and on which the
    peer sends nothing. *)
Definition silent (k : Conn) (w : World) : Prop :=
  conn (client w) = Some k /\
  exists cs, conns w !! k = Some cs /\ inbox cs = [] /\ conn_closed cs = false.

(** The reader [tid] waits in [ReadMessage] on a silent connection, the
    guard has not run, and no call to [Close] is past its [Wait]. *)
Definition reader_stuck (tid : nat) (k : Conn) (c : Config) : Prop :=
  threads c !! tid = Some (TReader RRead) /\
  silent k (world c) /\
  (exists o, cur_once (world c) = Some o /\ done o = false) /\
  Forall (fun th => early_close th = true) (threads c).

Lemma silent_same (k : Conn) (w w' : World) :
  conn (client w') = conn (client w) ->
  conns w' = conns w ->
  silent k w -> silent k w'.
Proof. intros H1 H2 [Hc Hcs]. split; [congruence|]. now rewrite H2. Qed.

Lemma net_write_silent (c : Conn) (ty : Z) (data : list Z) (w : World)
    (k : Conn) :
  silent k w -> silent k (snd (net_write c ty data w)).
Proof.
  intros [Hk (cs & Hcs & Hin & Hcl)].
  split; [now rewrite net_write_client|].
  unfold net_write. destruct (conns w !! c) as [cs'|] eqn:E; [|simpl; eauto].
  destruct (conn_closed cs') eqn:Hcl'; [simpl; eauto|].
  destruct (writeErrs cs') as [|x xs]; [simpl; eauto|]. simpl.
  destruct (decide (c = k)) as [->|Hne].
  - rewrite list_lookup_insert_eq by (eapply lookup_lt_Some, E).
    assert (cs' = cs) as -> by congruence. eexists. split; [reflexivity|].
    simpl. auto.
  - rewrite list_lookup_insert_ne by exact Hne. eauto.
Qed.

Lemma net_read_silent (k : Conn) (w : World) :
  silent k w -> net_read k w = None.
Proof.
  intros [_ (cs & Hcs & Hin & Hcl)]. unfold net_read.
  now rewrite Hcs, Hcl, Hin.
Qed.

Lemma dispatch_conns (msg : option Message) (w : World) :
  conns (dispatch msg w) = conns w.
Proof.
  unfold dispatch. destruct msg as [m|]; [|reflexivity].
  destruct (dispatcher (client w) !! Operation m) as [h|]; [|reflexivity].
  now destruct (h m).
Qed.

Lemma SendHeartbeat_silent (v w1 : World) (r : option error) (k : Conn) :
  SendHeartbeat v = Some (r, w1) -> silent k v -> silent k w1.
Proof.
  unfold SendHeartbeat, SendMessage. intros H Hs.
  destruct (conn (client v)) as [c|]; [|discriminate].
  pose proof (net_write_silent c websocket.BinaryMessage
                (ToBytes (codec v) (heartbeatMessage (codec v))) v k Hs) as Hw.
  destruct (net_write c websocket.BinaryMessage _ v) as [[x|] w2];
    injection H as _ <-; exact Hw.
Qed.

(** A step of a loop keeps a silent connection silent. *)
Lemma loop_step_silent (th th' : Thread) (sel : Select) (w w' : World)
    (sp : list Thread) (k : Conn) :
  is_close_call th = false ->
  silent k w ->
  thread_step th sel w = Next th' w' sp ->
  silent k w'.
Proof.
  intros Hth Hs H. destruct th as [t pc e|pc|pc]; [discriminate| |];
    simpl in H.
  - destruct pc; simpl in H; split_step H;
      try (apply (silent_same k w); [reflexivity|reflexivity|exact Hs]).
    + match goal with
      | H : wg_add _ _ = Some _ |- _ =>
          unfold wg_add in H; destruct (_ <? 0); [discriminate|];
            injection H as <-
      end. now apply (silent_same k w).
    + exfalso. destruct Hs as [Hk Hcs].
      assert (c = k) as -> by congruence.
      match goal with
      | H : net_read k w = Some _ |- _ =>
          rewrite (net_read_silent k w (conj Hk Hcs)) in H; discriminate
      end.
    + match goal with
      | H : wg_add _ _ = Some _ |- _ =>
          unfold wg_add in H; destruct (_ <? 0); [discriminate|];
            injection H as <-
      end. now apply (silent_same k w).
  - destruct pc; simpl in H; try destruct sel; split_step H;
      try (apply (silent_same k w); [reflexivity|reflexivity|exact Hs]);
      try match goal with
        | H : wg_add _ _ = Some _ |- _ =>
            unfold wg_add in H; destruct (_ <? 0); [discriminate|];
              injection H as <-; now apply (silent_same k w)
        end.
    + apply (silent_same k w0); [reflexivity|reflexivity|].
      eapply SendHeartbeat_silent; [eassumption|]. now apply (silent_same k w).
    + eapply SendHeartbeat_silent; [eassumption|]. now apply (silent_same k w).
    + apply (silent_same k w); [now rewrite dispatch_client|
                                now rewrite dispatch_conns|exact Hs].
Qed.

(** A step of a call to [Close] that has not passed its [Wait], while a loop
    is registered and the guard has not run: the call stays before its
    [Wait]. *)
Lemma Close_step_stuck (t : Z) (pc : ClosePc) (e : option error)
    (w w' : World) (th' : Thread) (sp : list Thread) (k : Conn) (o : Once) :
  silent k w ->
  cur_once w = Some o -> done o = false ->
  closeWait (client w) <> 0 ->
  early_close (TClose t pc e) = true ->
  Close_step t pc e w = Next th' w' sp ->
  silent k w' /\
  (exists o', cur_once w' = Some o' /\ done o' = false) /\
  early_close th' = true.
Proof.
  intros Hs Ho Hd Hwg Hearly H.
  assert (Hlock : forall b,
             silent k (update_once (set_locked b) w) /\
             exists o', cur_once (update_once (set_locked b) w) = Some o' /\
                        done o' = false).
  { intros b.
    destruct (update_once_spec (set_locked b) w o Ho) as (U1 & U2 & _ & _ & U5).
    split; [apply (silent_same k w); [now rewrite U2|exact U5|exact Hs]|].
    eexists. split; [exact U1|exact Hd]. }
  unfold cur_once in Ho.
  destruct pc; simpl in Hearly, H; try discriminate;
    rewrite ?Ho, ?Hd in H.
  - injection H as <- <- <-. split; [|split; [eauto|reflexivity]].
    now apply (silent_same k w).
  - destruct (conn (client w)) as [c|]; [|discriminate].
    pose proof (net_write_silent c websocket.CloseMessage
      (websocket.FormatCloseMessage websocket.CloseNormalClosure []) w k Hs) as A.
    pose proof (net_write_guard c websocket.CloseMessage
      (websocket.FormatCloseMessage websocket.CloseNormalClosure []) w)
      as (G1 & _ & _ & _ & G5 & _).
    destruct (net_write c websocket.CloseMessage _ w) as [r w1].
    simpl in A, G1, G5. injection H as <- <- <-.
    split; [exact A|]. split; [|reflexivity].
    exists o. unfold cur_once. rewrite G5, G1. auto.
  - injection H as <- <- <-. split; [exact Hs|]. split; [eauto|reflexivity].
  - destruct (locked o); [discriminate|]. injection H as <- <- <-.
    destruct (Hlock true) as [A B]. auto.
  - injection H as <- <- <-. split; [exact Hs|]. split; [eauto|reflexivity].
  - destruct (chans w !! closeChan (client w)) as [[|]|]; try discriminate.
    injection H as <- <- <-. split; [|split; [eauto|reflexivity]].
    now apply (silent_same k w).
  - injection H as <- <- <-. split; [|split; [eauto|reflexivity]].
    now apply (silent_same k w).
  - destruct (closeWait (client w) =? 0) eqn:E; [|discriminate].
    apply Z.eqb_eq in E. contradiction.
Qed.

Lemma not_started_early (th : Thread) :
  not_started th = true -> early_close th = true.
Proof.
  destruct th as [t pc e| |]; [|reflexivity..].
  destruct pc, e; simpl; try discriminate; reflexivity.
Qed.

Lemma reader_stuck_exec (tid : nat) (k : Conn) (a : Action) (c : Config) :
  wg_balanced c ->
  reader_stuck tid k c -> reader_stuck tid k (exec a c).
Proof.
  intros Hb (Htid & Hs & (o & Ho & Hd) & Hall). unfold exec, exec_opt.
  assert (Hwg : closeWait (client (world c)) <> 0).
  { unfold wg_balanced in Hb. rewrite Hb.
    pose proof (sum_list_with_in (TReader RRead) registered_loop (threads c)
                  (list_elem_of_lookup_2 _ _ _ Htid)) as Hle.
    simpl in Hle. lia. }
  assert (Hkeep : reader_stuck tid k c)
    by (split; [exact Htid|split; [exact Hs|split; [eauto|exact Hall]]]).
  destruct (crashed c); [exact Hkeep|].
  destruct a as [i sel|d|t| |]; simpl.
  - destruct (threads c !! i) as [th|] eqn:Hi; [|exact Hkeep].
    destruct (thread_step th sel (world c)) as [|why|th' w' sp] eqn:Hst;
      simpl; try exact Hkeep.
    assert (Hth : early_close th = true).
    { eapply Forall_forall in Hall; [exact Hall|].
      eapply list_elem_of_lookup_2, Hi. }
    assert (Hne : i <> tid).
    { intros ->. assert (th = TReader RRead) as -> by congruence.
      simpl in Hst. destruct Hs as [Hk Hcs]. rewrite Hk in Hst.
      rewrite (net_read_silent k _ (conj Hk Hcs)) in Hst. discriminate. }
    assert (Hstep : silent k w' /\
                    (exists o', cur_once w' = Some o' /\ done o' = false) /\
                    early_close th' = true /\
                    Forall (fun x => early_close x = true) sp).
    { destruct th as [t pc e|pc|pc].
      - destruct (Close_step_types t pc e (world c) w' th' sp Hst)
          as (_ & -> & _).
        destruct (Close_step_stuck t pc e (world c) w' th' [] k o
                    Hs Ho Hd Hwg Hth Hst) as (A & B & C). auto.
      - pose proof (loop_step_silent (TReader pc) _ sel _ _ _ k eq_refl Hs Hst)
          as A.
        simpl in Hst.
        destruct (readMessage_step_same_guard pc (world c) w' th' sp Hst)
          as (Hsg & Hc' & Hsp).
        split; [exact A|]. split; [|split].
        + exists o. unfold cur_once in *.
          rewrite (sg_onces _ _ Hsg), (sg_once _ _ Hsg). auto.
        + destruct th'; [discriminate|reflexivity..].
        + eapply Forall_impl; [exact Hsp|]. exact not_started_early.
      - pose proof (loop_step_silent (TEvent pc) _ sel _ _ _ k eq_refl Hs Hst)
          as A.
        simpl in Hst.
        destruct (eventLoop_step_same_guard pc sel (world c) w' th' sp Hst)
          as (Hsg & Hc' & ->).
        split; [exact A|]. split; [|split; [|constructor]].
        + exists o. unfold cur_once in *.
          rewrite (sg_onces _ _ Hsg), (sg_once _ _ Hsg). auto.
        + destruct th'; [discriminate|reflexivity..]. }
    destruct Hstep as (A & B & C & D).
    split; [|split; [exact A|split; [exact B|]]].
    + simpl. apply lookup_app_l_Some.
      now rewrite list_lookup_insert_ne by exact Hne.
    + simpl. apply Forall_app. split; [|exact D]. now apply Forall_insert.
  - destruct (0 <? d); simpl; [|exact Hkeep].
    split; [|split; [exact Hs|split; [eauto|]]].
    + simpl. now rewrite list_lookup_fmap, Htid.
    + simpl. apply Forall_fmap. eapply Forall_impl; [exact Hall|].
      intros [t pc e|pc|[]]; simpl; auto.
  - split; [|split; [exact Hs|split; [eauto|]]].
    + simpl. now apply lookup_app_l_Some.
    + simpl. apply Forall_app. split; [exact Hall|repeat constructor].
  - split; [exact Htid|]. split; [|split; [eauto|exact Hall]].
    now apply (silent_same k (world c)).
  - split; [|split; [exact Hs|split; [eauto|]]].
    + simpl. now apply lookup_app_l_Some.
    + simpl. apply Forall_app. split; [exact Hall|repeat constructor].
Qed.

Lemma reader_stuck_run (tid : nat) (k : Conn) (acts : list Action) (c : Config) :
  wg_balanced c ->
  crashed c <> Some "negative WaitGroup counter" ->
  reader_stuck tid k c -> reader_stuck tid k (run acts c).
Proof.
  revert c. induction acts as [|a acts IH]; intros c Hb Hc Hs; [exact Hs|].
  rewrite run_cons.
  destruct (wait_queue_exec a c Hb Hc) as (A & B & _).
  apply IH; [exact A|exact B|]. now apply reader_stuck_exec.
Qed.

(** X5: [Close] can return only once the reader has left [ReadMessage].
    While the reader waits on a connection that is open and on which the
    peer sends nothing, under every schedule and whatever calls to [Close]
    are made, the reader stays in [ReadMessage], the connection stays open,
    and no call to [Close] gets past [closeWait.Wait()]: none returns. *)
Theorem Close_waits_on_silent_peer (c0 : Config) (tid : nat) (k : Conn)
    (acts : list Action) :
  wg_balanced c0 ->
  crashed c0 = None ->
  reader_stuck tid k c0 ->
  let c := run acts c0 in
  threads c !! tid = Some (TReader RRead) /\
  silent k (world c) /\
  (forall i th, threads c !! i = Some th -> early_close th = true) /\
  (forall i t e, threads c !! i <> Some (TClose t CRet e)).
Proof.
  intros Hb Hc Hs c.
  assert (Hr : reader_stuck tid k c).
  { apply reader_stuck_run; [exact Hb|congruence|exact Hs]. }
  destruct Hr as (A & B & _ & D).
  assert (Hall : forall i th, threads c !! i = Some th -> early_close th = true).
  { intros i th Hi. eapply Forall_forall in D; [exact D|].
    eapply list_elem_of_lookup_2, Hi. }
  split; [exact A|]. split; [exact B|]. split; [exact Hall|].
  intros i t e Hi. apply Hall in Hi. discriminate.
Qed.

(** A reader in [ReadMessage] and a caller about to call [Close]. *)
Definition demo_waiting : Config :=
  mkConfig (with_client (set_closeWait 1) demo_world)
    [TReader RRead; TClose CloseActively CLog None] None.

Lemma Close_waits_on_silent_peer_witness :
  threads (run (solo 1 40 ++ solo 0 3) demo_waiting) !! 0%nat
  = Some (TReader RRead) /\
  (forall i t e,
     threads (run (solo 1 40 ++ solo 0 3) demo_waiting) !! i
     <> Some (TClose t CRet e)).
Proof.
  assert (Hs : reader_stuck 0%nat 0%nat demo_waiting).
  { split; [reflexivity|]. split.
    - split; [reflexivity|]. exists demo_conn. repeat split.
    - split; [eexists; split; reflexivity|]. repeat constructor. }
  destruct (Close_waits_on_silent_peer demo_waiting 0%nat 0%nat
              (solo 1 40 ++ solo 0 3) eq_refl eq_refl Hs) as (A & _ & _ & D).
  split; [exact A|exact D].
Defined.

(** * Properties of every schedule *)

(** A property of the running program holds after every schedule when every
    kind of action keeps it. *)
Section Preserved.
Variable I : Config -> Prop.

Hypothesis keeps_panic : forall c why,
  I c -> crashed c = None -> I (mkConfig (world c) (threads c) (Some why)).
Hypothesis keeps_step : forall c tid sel th th' w' sp,
  I c -> crashed c = None ->
  threads c !! tid = Some th ->
  thread_step th sel (world c) = Next th' w' sp ->
  I (mkConfig w' (<[tid := th']> (threads c) ++ sp) None).
Hypothesis keeps_advance : forall c d,
  I c -> crashed c = None ->
  I (mkConfig (world c) (advance_thread d <$> threads c) None).
Hypothesis keeps_spawn : forall c ths,
  I c -> crashed c = None ->
  Forall (fun th => not_started th = true) ths ->
  Forall (fun th => registered_loop th = 0%nat) ths ->
  I (mkConfig (world c) (threads c ++ ths) None).
Hypothesis keeps_auth : forall c,
  I c -> crashed c = None ->
  I (mkConfig (AuthSuccess (world c)) (threads c) None).

Lemma exec_preserves (a : Action) (c : Config) : I c -> I (exec a c).
Proof.
  intros HI. unfold exec, exec_opt.
  destruct (crashed c) eqn:Hc; [exact HI|].
  destruct a as [tid sel|d|t| |]; simpl.
  - destruct (threads c !! tid) as [th|] eqn:Htid; [|exact HI].
    destruct (thread_step th sel (world c)) as [|why|th' w' sp] eqn:Hst; simpl.
    + exact HI.
    + now apply keeps_panic.
    + now apply (keeps_step c tid sel th).
  - destruct (0 <? d); simpl; [now apply keeps_advance|exact HI].
  - apply keeps_spawn; auto; repeat constructor.
  - now apply keeps_auth.
  - unfold Run. rewrite Hc. apply keeps_spawn; auto; repeat constructor.
Qed.

Lemma run_preserves (acts : list Action) (c : Config) : I c -> I (run acts c).
Proof.
  revert c. induction acts as [|a acts IH]; intros c HI; [exact HI|].
  rewrite run_cons. apply IH, exec_preserves, HI.
Qed.
End Preserved.

(** * A client without a connection *)

Definition is_write (e : Event) : bool :=
  match e with EvWrite _ _ _ => true | _ => false end.

(** The call to [Close] has not reached the guard: it is at its log line or
    at its [WriteMessage]. *)
Definition before_frame (th : Thread) : bool :=
  match th with
  | TClose _ pc _ =>
      match pc with CLog | CWrite => true | _ => false end
  | _ => true
  end.

(** The client is bound to no connection, no call to [Close] has reached
    the guard, and nothing was written, closed or called back since world
    [b]. *)
Definition unbound (b : World) (c : Config) : Prop :=
  conn (client (world c)) = None /\
  Forall (fun th => before_frame th = true) (threads c) /\
  cur_once (world c) = cur_once b /\
  count is_write (trace (world c)) = count is_write (trace b) /\
  count is_conn_close (trace (world c)) = count is_conn_close (trace b) /\
  count is_on_close (trace (world c)) = count is_on_close (trace b).

Lemma count_log (p : Event -> bool) (lvl : Level) (msg : string)
    (attrs : list Attr) (w : World) :
  p (EvLog lvl msg attrs) = false ->
  count p (trace (log lvl msg attrs w)) = count p (trace w).
Proof. intros H. simpl. rewrite count_snoc, H. lia. Qed.

Lemma dispatch_writes (msg : option Message) (w : World) :
  count is_write (trace (dispatch msg w)) = count is_write (trace w).
Proof.
  unfold dispatch. destruct msg as [m|]; [|reflexivity].
  destruct (dispatcher (client w) !! Operation m) as [h|]; [|reflexivity].
  destruct (h m); simpl; rewrite !count_snoc; simpl; lia.
Qed.

Lemma not_started_before_frame (sp : list Thread) :
  Forall (fun th => not_started th = true) sp ->
  Forall (fun th => before_frame th = true) sp.
Proof.
  intros H. eapply Forall_impl; [exact H|].
  intros [t [] [e|]|pc|pc]; simpl; congruence.
Qed.

(** Without a connection a loop writes nothing: the heartbeat and the read
    panic. *)
Lemma loop_step_unbound (th th' : Thread) (sel : Select) (w w' : World)
    (sp : list Thread) :
  is_close_call th = false ->
  conn (client w) = None ->
  thread_step th sel w = Next th' w' sp ->
  count is_write (trace w') = count is_write (trace w).
Proof.
  intros Hth Hk H. destruct th as [t pc e|pc|pc]; [discriminate| |];
    simpl in H.
  - destruct pc; simpl in H; rewrite ?Hk in H; split_step H;
      rewrite ?count_log by reflexivity; try reflexivity;
      match goal with
      | H : wg_add _ _ = Some _ |- _ =>
          unfold wg_add in H; destruct (_ <? 0); [discriminate|];
            injection H as <-; reflexivity
      end.
  - destruct pc; simpl in H; try destruct sel;
      try (unfold SendHeartbeat, SendMessage in H; simpl in H; rewrite Hk in H);
      split_step H;
      rewrite ?dispatch_writes, ?count_log by reflexivity; try reflexivity;
      match goal with
      | H : wg_add _ _ = Some _ |- _ =>
          unfold wg_add in H; destruct (_ <? 0); [discriminate|];
            injection H as <-; reflexivity
      end.
Qed.

Lemma unbound_run (b : World) (acts : list Action) (c : Config) :
  unbound b c -> unbound b (run acts c).
Proof.
  apply run_preserves; clear c acts.
  - intros c why H _. exact H.
  - intros c tid sel th th' w' sp (Hk & Hth & Ho & Hw & Hc & Hcb) _ Htid Hst.
    assert (Hbf : before_frame th = true).
    { eapply Forall_forall in Hth; [exact Hth|].
      eapply list_elem_of_lookup_2, Htid. }
    assert (Hlt : (tid < length (threads c))%nat)
      by (eapply lookup_lt_Some, Htid).
    destruct (is_close_call th) eqn:Hcall.
    + destruct th as [t pc e|pc|pc]; try discriminate.
      destruct pc; try discriminate; simpl in Hst.
      * injection Hst as <- <- <-. unfold unbound. simpl.
        rewrite !count_snoc, app_nil_r. simpl.
        split; [exact Hk|]. split; [|split; [exact Ho|lia]].
        apply Forall_insert; [exact Hth|reflexivity].
      * rewrite Hk in Hst. discriminate.
    + pose proof (loop_step_unbound th th' sel (world c) w' sp Hcall Hk Hst)
        as Hwr.
      assert (Hsg : same_guard (world c) w' /\ is_close_call th' = false /\
                    Forall (fun x => not_started x = true) sp).
      { destruct th as [t pc e|pc|pc]; [discriminate| |]; simpl in Hst.
        - now apply readMessage_step_same_guard in Hst.
        - apply eventLoop_step_same_guard in Hst as (A & B & ->).
          split; [exact A|]. split; [exact B|constructor]. }
      destruct Hsg as ([] & Hc' & Hsp). unfold unbound, cur_once in *. simpl.
      split; [congruence|]. split; [|split; [congruence|lia]].
      apply Forall_app. split; [|now apply not_started_before_frame].
      apply Forall_insert; [exact Hth|].
      destruct th' as [t pc e|pc|pc]; [discriminate|reflexivity|reflexivity].
  - intros c d (Hk & Hth & Ho & Hw & Hc & Hcb) _. unfold unbound. simpl.
    split; [exact Hk|]. split; [|auto].
    apply Forall_fmap. eapply Forall_impl; [exact Hth|].
    intros [t pc e|pc|[]]; simpl; auto.
  - intros c ths (Hk & Hth & Ho & Hw & Hc & Hcb) _ Hns _. unfold unbound. simpl.
    split; [exact Hk|]. split; [|auto].
    apply Forall_app. split; [exact Hth|now apply not_started_before_frame].
  - intros c (Hk & Hth & Ho & Hw & Hc & Hcb) _. unfold unbound. simpl.
    change (cur_once (AuthSuccess (world c))) with (cur_once (world c)).
    auto 10.
Qed.

(** X6: a client that is bound to no connection (it is new, or its last
    [Dial] failed) cannot be closed.  Under every schedule no call to
    [Close] gets past its [WriteMessage], where it panics on the nil
    connection: the guard stays unused, nothing is written or closed and
    the callback is never invoked. *)
Theorem Close_needs_connection (c0 : Config) (acts : list Action) :
  conn (client (world c0)) = None ->
  Forall (fun th => before_frame th = true) (threads c0) ->
  let c := run acts c0 in
  (forall i th, threads c !! i = Some th -> before_frame th = true) /\
  cur_once (world c) = cur_once (world c0) /\
  count is_write (trace (world c)) = count is_write (trace (world c0)) /\
  count is_conn_close (trace (world c))
  = count is_conn_close (trace (world c0)) /\
  count is_on_close (trace (world c)) = count is_on_close (trace (world c0)) /\
  (forall tid t e,
      crashed c = None ->
      threads c !! tid = Some (TClose t CWrite e) ->
      crashed (exec (ActStep tid SelClose) c) = Some "nil connection").
Proof.
  intros Hk Hth c.
  assert (H : unbound (world c0) c).
  { apply unbound_run. unfold unbound. auto 10. }
  destruct H as (Hk' & Hth' & Ho & Hw & Hc & Hcb).
  split.
  { intros i th Hi. eapply Forall_forall in Hth'; [exact Hth'|].
    eapply list_elem_of_lookup_2, Hi. }
  split; [exact Ho|]. split; [exact Hw|]. split; [exact Hc|].
  split; [exact Hcb|].
  intros tid t e Hcr Htid. unfold exec, exec_opt.
  rewrite Hcr, Htid. simpl. rewrite Hk'. reflexivity.
Qed.

(** The client of [demo_world] after a [Dial] that found no server. *)
Definition demo_undialed : Config :=
  mkConfig (snd (Dial ["ws://a"] demo_world)) [] None.

Lemma Close_needs_connection_witness :
  crashed (run [ActClose CloseActively; ActStep 0%nat SelClose;
                ActStep 0%nat SelClose] demo_undialed)
  = Some "nil connection".
Proof.
  destruct (Close_needs_connection demo_undialed
              [ActClose CloseActively; ActStep 0%nat SelClose]
              eq_refl (Forall_nil_2 _))
    as (_ & _ & _ & _ & _ & H).
  exact (H 0%nat CloseActively None eq_refl eq_refl).
Defined.

(** * Connecting again *)

(** [Dial] touches neither the guard nor the close signal. *)
Lemma dial_loop_guard (links : list string) (err : option error) (w : World) :
  let w' := snd (dial_loop links err w) in
  onces w' = onces w /\ once (client w') = once (client w) /\
  chans w' = chans w /\ closeChan (client w') = closeChan (client w) /\
  onClose (client w') = onClose (client w) /\ conns w' = conns w.
Proof.
  revert err w. induction links as [|l links IH]; intros err w;
    [simpl; auto 10|].
  cbn [dial_loop net_dial].
  destruct (dialer w l (dialed w)) as [c|e]; [simpl; auto 10|].
  cbv zeta in IH. destruct (IH (Some e)
    (log LError "websocket dial fail" [AStr "link" l; AStr "err" e]
       (with_client (set_conn None)
          (set_dialed (S (dialed w)) (emit (EvDial l) w)))))
    as (H1 & H2 & H3 & H4 & H5 & H6).
  cbv zeta. rewrite H1, H2, H3, H4, H5, H6. simpl. auto 10.
Qed.

Lemma Dial_guard (links : list string) (w : World) :
  let w' := snd (Dial links w) in
  cur_once w' = cur_once w /\
  chans w' !! closeChan (client w') = chans w !! closeChan (client w) /\
  onClose (client w') = onClose (client w) /\ conns w' = conns w.
Proof.
  pose proof (dial_loop_guard links None w) as H. cbv zeta in *.
  unfold Dial, cur_once.
  destruct (dial_loop links None w) as [[e|] w1]; simpl in *;
    destruct H as (H1 & H2 & H3 & H4 & H5 & H6);
    rewrite H1, H2, H3, H4, H5, H6; auto.
Qed.

Lemma Dial_binds (links : list string) (i : nat) (link : string) (k : Conn)
    (w : World) :
  links !! i = Some link ->
  dialer w link (dialed w + i)%nat = DialOk k ->
  all_fail (dialer w) (dialed w) (take i links) ->
  conn (client (snd (Dial links w))) = Some k.
Proof.
  intros Hi Hd Hf.
  destruct (dial_loop_first_success links i link k None w Hi Hd Hf)
    as (w' & Hl & Hk & _).
  unfold Dial. rewrite Hl. exact Hk.
Qed.

(** A call to [Close] that has returned leaves the guard used. *)
Lemma Close_done (t : Z) (w w' : World) (r : option error) :
  Close t w = Some (r, w') ->
  exists o, cur_once w' = Some o /\ done o = true.
Proof.
  unfold Close. cbn [client log emit conn].
  destruct (conn (client w)) as [k|]; [|discriminate].
  pose proof (net_write_guard k websocket.CloseMessage
                (websocket.FormatCloseMessage websocket.CloseNormalClosure [])
                (log LInfo "ws client close" [AInt "close_type" t] w)) as Hg.
  destruct (net_write k websocket.CloseMessage _ _) as [e w2].
  simpl in Hg.
  destruct (onces w2 !! once (client w2)) as [o|] eqn:Ho; [|discriminate].
  destruct (done o) eqn:Hd.
  { intros [= _ <-]. exists o. split; [exact Ho|exact Hd]. }
  destruct (locked o); [discriminate|].
  destruct (chans w2 !! closeChan (client w2)) as [[]|]; try discriminate.
  cbn [client with_client set_chans set_isClosed closeWait].
  destruct (closeWait (client w2) =? 0); [|discriminate].
  unfold net_close. cbn [conns set_chans with_client emit].
  destruct (conns w2 !! k) as [cs|]; intros [= _ <-];
    exists (mkOnce true false); (split; [|reflexivity]);
    unfold cur_once, update_once;
    destruct (onClose (client w2)); simpl; rewrite Ho; simpl;
    apply list_lookup_insert_eq; eapply lookup_lt_Some, Ho.
Qed.

Lemma Reset_fresh (w : World) :
  cur_once (Reset w) = Some (mkOnce false false) /\
  chans (Reset w) !! closeChan (client (Reset w)) = Some false /\
  onClose (client (Reset w)) = onClose (client w) /\
  conn (client (Reset w)) = conn (client w) /\
  conns (Reset w) = conns w.
Proof.
  unfold Reset, cur_once. simpl.
  split; [now apply list_lookup_middle|].
  split; [now apply list_lookup_middle|auto].
Qed.

(** X7: what arms the guard again is [Reset], not [Dial].  After a call to
    [Close] has returned, a [Dial] that binds a new connection leaves the
    guard used: the next [Close] writes its close frame on the new
    connection and returns nil, and neither closes that connection nor
    invokes the callback.  With [Reset] before the [Dial], the next [Close]
    closes the new connection, invokes the callback and returns the result
    of that close. *)
Theorem Dial_does_not_rearm (w0 w : World) (t0 t : Z) (r : option error)
    (links : list string) (i : nat) (link : string) (k : Conn) :
  Close t0 w0 = Some (r, w) ->
  links !! i = Some link ->
  dialer w link (dialed w + i)%nat = DialOk k ->
  all_fail (dialer w) (dialed w) (take i links) ->
  (exists w2,
      Close t (snd (Dial links w)) = Some (None, w2) /\
      trace w2 = trace (snd (Dial links w)) ++ close_prologue k t) /\
  (exists w2,
      Close t (snd (Dial links (Reset w)))
      = Some (close_result (snd (Dial links (Reset w))), w2) /\
      trace w2 = trace (snd (Dial links (Reset w))) ++ close_prologue k t
                 ++ close_teardown k t (onClose (client w))).
Proof.
  intros HC Hi Hd Hf. split.
  - destruct (Close_done t0 w0 w r HC) as (o & Ho & Hdone).
    destruct (Dial_guard links w) as (Hg & _).
    destruct (Close_again t (snd (Dial links w)) k o) as (w2 & H2 & _ & _ & _ & Htr).
    + eapply Dial_binds; eassumption.
    + now rewrite Hg.
    + exact Hdone.
    + eauto.
  - destruct (Reset_fresh w) as (Ho & Hch & Hcb & _).
    destruct (Dial_guard links (Reset w)) as (Hg & Hgc & Hgcb & _).
    destruct (Dial_frame links (Reset w)) as (_ & _ & Hwg & _).
    destruct (Reset_frame w) as (_ & _ & Hz & _).
    destruct (Close_first t (snd (Dial links (Reset w))) k)
      as (w2 & H2 & _ & _ & _ & Htr).
    + eapply (Dial_binds links i link k (Reset w)); eassumption.
    + now rewrite Hg.
    + now rewrite Hgc.
    + now rewrite Hwg.
    + exists w2. split; [exact H2|]. rewrite Htr, Hgcb, Hcb. reflexivity.
Qed.

(** [demo_world] after a call to [Close]. *)
Definition demo_closed : World :=
  match Close CloseActively demo_world with
  | Some (_, w) => w
  | None => demo_world
  end.

Lemma Dial_does_not_rearm_witness :
  (exists w2,
      Close CloseTypeUnknown (snd (Dial ["ws://b"] demo_closed))
      = Some (None, w2) /\
      trace w2 = trace (snd (Dial ["ws://b"] demo_closed))
                 ++ close_prologue 0%nat CloseTypeUnknown) /\
  (exists w2,
      Close CloseTypeUnknown (snd (Dial ["ws://b"] (Reset demo_closed)))
      = Some (close_result (snd (Dial ["ws://b"] (Reset demo_closed))), w2) /\
      trace w2 = trace (snd (Dial ["ws://b"] (Reset demo_closed)))
                 ++ close_prologue 0%nat CloseTypeUnknown
                 ++ close_teardown 0%nat CloseTypeUnknown
                      (onClose (client demo_closed))).
Proof.
  apply (Dial_does_not_rearm demo_world demo_closed CloseActively
           CloseTypeUnknown (Some "broken pipe") ["ws://b"] 0%nat "ws://b"
           0%nat).
  - vm_compute. reflexivity.
  - reflexivity.
  - vm_compute. reflexivity.
  - intros j l Hj. destruct j; discriminate.
Defined.

(** * The close signal *)

(** The state of the channel [closeChan] of the client: closed or not. *)
Definition signal (w : World) : option bool :=
  chans w !! closeChan (client w).

(** The call to [Close] is in the guarded function, past
    [close(wsClient.closeChan)]. *)
Definition past_signal (th : Thread) : bool :=
  match th with
  | TClose _ pc _ =>
      match pc with
      | CBodySetClosed | CBodyWait | CBodyConnClose | CBodyOnClose
      | CDoStore => true
      | _ => false
      end
  | _ => false
  end.

(** The channel exists, and it is closed only when the guard has run or a
    call is in the guarded function past the [close]. *)
Definition signal_inv (c : Config) : Prop :=
  exists b, signal (world c) = Some b /\
    (b = true ->
     (exists o, cur_once (world c) = Some o /\ done o = true) \/
     (exists i th, threads c !! i = Some th /\ past_signal th = true)).

Lemma wg_add_signal (d : Z) (w w' : World) :
  wg_add d w = Some w' -> signal w' = signal w.
Proof.
  unfold wg_add. destruct (_ <? 0); [discriminate|]. now intros [= <-].
Qed.

Lemma net_read_signal (c : Conn) (w w' : World) (r : ReadResult) :
  net_read c w = Some (r, w') -> signal w' = signal w.
Proof.
  unfold net_read. destruct (conns w !! c) as [cs|]; [|now intros [= _ <-]].
  destruct (conn_closed cs); [now intros [= _ <-]|].
  destruct (inbox cs); [discriminate|]. now intros [= _ <-].
Qed.

Lemma net_write_signal (c : Conn) (ty : Z) (data : list Z) (w : World) :
  signal (snd (net_write c ty data w)) = signal w.
Proof.
  destruct (net_write_guard c ty data w) as (_ & _ & _ & _ & _ & H1 & H2).
  unfold signal. now rewrite H1, H2.
Qed.

Lemma SendHeartbeat_signal (v w1 : World) (r : option error) :
  SendHeartbeat v = Some (r, w1) -> signal w1 = signal v.
Proof.
  unfold SendHeartbeat, SendMessage. intros H.
  destruct (conn (client v)) as [c|]; [|discriminate].
  pose proof (net_write_signal c websocket.BinaryMessage
                (ToBytes (codec v) (heartbeatMessage (codec v))) v) as Hw.
  destruct (net_write c websocket.BinaryMessage _ v) as [[x|] w2];
    injection H as _ <-; exact Hw.
Qed.

Lemma dispatch_signal (msg : option Message) (w : World) :
  signal (dispatch msg w) = signal w.
Proof.
  unfold dispatch. destruct msg as [m|]; [|reflexivity].
  destruct (dispatcher (client w) !! Operation m) as [h|]; [|reflexivity].
  now destruct (h m).
Qed.

(** The loops never touch the close signal. *)
Lemma loop_step_signal (th th' : Thread) (sel : Select) (w w' : World)
    (sp : list Thread) :
  is_close_call th = false ->
  thread_step th sel w = Next th' w' sp ->
  signal w' = signal w.
Proof.
  intros Hth H. destruct th as [t pc e|pc|pc]; [discriminate| |];
    simpl in H.
  - destruct pc; simpl in H; split_step H; try reflexivity;
      try (eapply wg_add_signal; eassumption).
    eapply net_read_signal; eassumption.
  - destruct pc; simpl in H; try destruct sel; split_step H; try reflexivity;
      try (eapply wg_add_signal; eassumption).
    + match goal with
      | H : SendHeartbeat _ = Some _ |- _ =>
          apply SendHeartbeat_signal in H; exact H
      end.
    + match goal with
      | H : SendHeartbeat _ = Some _ |- _ =>
          apply SendHeartbeat_signal in H; exact H
      end.
    + now rewrite dispatch_signal.
Qed.

Ltac signal_side :=
  auto; try discriminate; try (simpl; intros; congruence).

(** What a step of [Close] does to the signal and to the guard. *)
Lemma Close_step_signal (t : Z) (pc : ClosePc) (e : option error)
    (w w' : World) (th' : Thread) (sp : list Thread) (o : Once) :
  cur_once w = Some o ->
  Close_step t pc e w = Next th' w' sp ->
  exists pc' e' o',
    th' = TClose t pc' e' /\ sp = [] /\ cur_once w' = Some o' /\
    ((pc = CBodyCloseChan /\ pc' = CBodySetClosed /\
      signal w = Some false /\ signal w' = Some true /\ done o' = done o) \/
     (pc = CDoStore /\ signal w' = signal w /\ done o' = true) \/
     (pc <> CBodyCloseChan /\ pc <> CDoStore /\
      signal w' = signal w /\ done o' = done o /\
      (past_signal (TClose t pc e) = true ->
       past_signal (TClose t pc' e') = true))).
Proof.
  intros Ho H.
  assert (Hu : forall f,
             cur_once (update_once f w) = Some (f o) /\
             signal (update_once f w) = signal w).
  { intros f. destruct (update_once_spec f w o Ho) as (A & B & _ & C & _).
    split; [exact A|]. unfold signal. now rewrite B, C. }
  destruct pc; simpl in H.
  - injection H as <- <- <-. exists CWrite, e, o.
    repeat split; auto. right. right. repeat split; signal_side.
  - destruct (conn (client w)) as [k|]; [|discriminate].
    pose proof (net_write_signal k websocket.CloseMessage
                  (websocket.FormatCloseMessage websocket.CloseNormalClosure [])
                  w) as Hs.
    destruct (net_write_guard k websocket.CloseMessage
                (websocket.FormatCloseMessage websocket.CloseNormalClosure [])
                w) as (A1 & _ & _ & _ & A2 & _).
    destruct (net_write k websocket.CloseMessage _ w) as [x w1].
    simpl in *. injection H as <- <- <-. exists CDoFast, e, o.
    repeat split; auto.
    + unfold cur_once in *. now rewrite A1, A2.
    + right. right. repeat split; signal_side.
  - unfold cur_once in Ho. rewrite Ho in H.
    destruct (done o) eqn:Hd; injection H as <- <- <-;
      [exists CRet, e, o|exists CDoLock, e, o];
      repeat split; auto; right; right; repeat split; signal_side.
  - unfold cur_once in Ho. rewrite Ho in H.
    destruct (locked o); [discriminate|]. injection H as <- <- <-.
    destruct (Hu (set_locked true)) as (A & B).
    exists CDoCheck, e, (set_locked true o).
    repeat split; auto. right. right. repeat split; signal_side.
  - unfold cur_once in Ho. rewrite Ho in H.
    destruct (done o) eqn:Hd; injection H as <- <- <-;
      [exists CDoUnlock, e, o|exists CBodyCloseChan, e, o];
      repeat split; auto; right; right; repeat split; signal_side.
  - destruct (chans w !! closeChan (client w)) as [[]|] eqn:Hch;
      try discriminate.
    injection H as <- <- <-. exists CBodySetClosed, e, o.
    repeat split; auto. left. repeat split; auto.
    unfold signal. simpl. apply list_lookup_insert_eq.
    eapply lookup_lt_Some, Hch.
  - injection H as <- <- <-. exists CBodyWait, e, o.
    repeat split; auto. right. right. repeat split; signal_side.
  - destruct (closeWait (client w) =? 0); [|discriminate].
    injection H as <- <- <-. exists CBodyConnClose, e, o.
    repeat split; auto. right. right. repeat split; signal_side.
  - destruct (conn (client w)) as [k|] eqn:Hk; [|discriminate].
    destruct (net_close k w) as [x w1] eqn:Hn.
    destruct (net_close_spec k w w1 x Hk Hn) as (_ & _ & A & B & C & _).
    injection H as <- <- <-. exists CBodyOnClose, x, o.
    repeat split; auto.
    + unfold cur_once in *. now rewrite A, B.
    + right. right. repeat split; signal_side.
      unfold signal. now rewrite A, C.
  - destruct (onClose (client w)); injection H as <- <- <-;
      exists CDoStore, e, o; repeat split; auto;
      right; right; repeat split; signal_side.
  - injection H as <- <- <-. destruct (Hu (set_done true)) as (A & B).
    exists CDoUnlock, e, (set_done true o). repeat split; auto.
  - injection H as <- <- <-. destruct (Hu (set_locked false)) as (A & B).
    exists CRet, e, (set_locked false o).
    repeat split; auto. right. right. repeat split; signal_side.
  - discriminate.
Qed.

Lemma past_signal_holds (th : Thread) :
  past_signal th = true -> holds th = true.
Proof. destruct th as [t [] e|pc|pc]; simpl; congruence. Qed.

Lemma past_signal_call (th : Thread) :
  past_signal th = true -> is_close_call th = true.
Proof. destruct th as [t pc e|pc|pc]; simpl; congruence. Qed.

(** A goroutine other than the one that steps is still there. *)
Lemma lookup_other (l sp : list Thread) (tid i : nat) (th' x : Thread) :
  i <> tid -> l !! i = Some x -> (<[tid := th']> l ++ sp) !! i = Some x.
Proof.
  intros Hne Hi. apply lookup_app_l_Some.
  now rewrite list_lookup_insert_ne by congruence.
Qed.

Lemma lookup_self (l sp : list Thread) (tid : nat) (th th' : Thread) :
  l !! tid = Some th -> (<[tid := th']> l ++ sp) !! tid = Some th'.
Proof.
  intros Hi. apply lookup_app_l_Some, list_lookup_insert_eq.
  eapply lookup_lt_Some, Hi.
Qed.

(** The close signal is raised by the call that runs the guarded function,
    and by no other step. *)
Lemma signal_inv_step (b : World) (c : Config) (tid : nat) (sel : Select)
    (th th' : Thread) (w' : World) (sp : list Thread) :
  guard_inv b c ->
  signal_inv c ->
  threads c !! tid = Some th ->
  thread_step th sel (world c) = Next th' w' sp ->
  signal_inv (mkConfig w' (<[tid := th']> (threads c) ++ sp) None).
Proof.
  intros Hinv (s & Hs & Hwhy) Htid Hst.
  destruct Hinv as [_ _ _ _ (o & Ho & _) _].
  destruct (is_close_call th) eqn:Hcall.
  - destruct th as [t pc e|pc|pc]; try discriminate. simpl in Hst.
    destruct (Close_step_signal t pc e (world c) w' th' sp o Ho Hst)
      as (pc' & e' & o' & -> & -> & Ho' &
          [(-> & -> & _ & Hs' & _)|[(-> & Hs' & Hd)|(_ & _ & Hs' & Hd & Hp)]]).
    + exists true. split; [exact Hs'|]. intros _. right.
      exists tid, (TClose t CBodySetClosed e'). split; [|reflexivity].
      eapply lookup_self, Htid.
    + exists s. split; [simpl; congruence|]. intros _. left. eauto.
    + exists s. split; [simpl; congruence|]. intros Hb.
      destruct (Hwhy Hb) as [(o1 & Ho1 & Hd1)|(i & x & Hi & Hx)].
      * left. exists o'. split; [exact Ho'|].
        assert (o1 = o) as -> by congruence. congruence.
      * right. destruct (decide (i = tid)) as [->|Hne].
        -- assert (x = TClose t pc e) as -> by congruence.
           exists tid, (TClose t pc' e'). split; [|now apply Hp].
           eapply lookup_self, Htid.
        -- exists i, x. split; [|exact Hx]. now apply lookup_other.
  - assert (Hsg : same_guard (world c) w').
    { destruct th as [t pc e|pc|pc]; [discriminate| |]; simpl in Hst.
      - now apply readMessage_step_same_guard in Hst.
      - now apply eventLoop_step_same_guard in Hst. }
    pose proof (loop_step_signal th th' sel (world c) w' sp Hcall Hst) as Hs'.
    exists s. split; [simpl; congruence|]. intros Hb.
    destruct (Hwhy Hb) as [(o1 & Ho1 & Hd1)|(i & x & Hi & Hx)].
    + left. exists o1. split; [|exact Hd1].
      destruct Hsg. unfold cur_once in *. simpl. congruence.
    + right. exists i, x. split; [|exact Hx]. apply lookup_other; [|exact Hi].
      intros ->. apply past_signal_call in Hx. congruence.
Qed.

(** With a connection, a guard and a balanced counter no statement of the
    client panics. *)
Lemma thread_step_no_panic (b : World) (c : Config) (k : Conn) (tid : nat)
    (th : Thread) (sel : Select) (why : string) :
  guard_inv b c ->
  wg_balanced c ->
  signal_inv c ->
  conn (client (world c)) = Some k ->
  threads c !! tid = Some th ->
  thread_step th sel (world c) <> Panic why.
Proof.
  intros Hinv Hb (s & Hs & Hwhy) Hk Htid H.
  pose proof (thread_step_no_underflow c tid th sel Hb Htid) as Hno.
  destruct Hinv as [_ _ _ _ (o & Ho & Hth & Huniq & _) _].
  pose proof (Hth tid th Htid) as Hme.
  unfold cur_once in Ho.
  destruct th as [t pc e|pc|pc]; simpl in H, Hno.
  - destruct pc; simpl in H; rewrite ?Hk, ?Ho in H;
      try discriminate;
      try (destruct (done o); discriminate);
      try (destruct (locked o); discriminate);
      try (destruct (net_write k _ _ (world c)); discriminate);
      try (destruct (net_close k (world c)); discriminate);
      try (destruct (onClose (client (world c))); discriminate);
      try (destruct (closeWait (client (world c)) =? 0); discriminate).
    unfold signal in Hs. rewrite Hs in H. destruct s; [|discriminate].
    simpl in Hme. destruct Hme as (_ & Hd & _).
    destruct (Hwhy eq_refl) as [(o1 & Ho1 & Hd1)|(i & x & Hi & Hx)].
    + unfold cur_once in Ho1. congruence.
    + assert (i = tid) as ->.
      { eapply (Huniq i tid); eauto using past_signal_holds. }
      assert (x = TClose t CBodyCloseChan e) as -> by congruence.
      discriminate.
  - destruct pc; simpl in H, Hno; rewrite ?Hk in H;
      try discriminate;
      try (destruct (wg_add _ (world c)); [discriminate|congruence]).
    + destruct (net_read k (world c)) as [[r w1]|]; discriminate.
    + repeat match type of H with
        | context [match ?x with _ => _ end] => destruct x
        end; discriminate.
    + destruct msgs; [discriminate|].
      destruct (_ <? _)%nat; discriminate.
  - destruct pc; simpl in H, Hno; try destruct sel;
      try discriminate;
      try (destruct (wg_add _ (world c)); [discriminate|congruence]).
    + destruct (chans (world c) !! closeChan (client (world c))) as [[]|];
        discriminate.
    + destruct (trC tm); [|discriminate].
      destruct (negb (authed (client (world c)))); discriminate.
    + destruct (tickC tm); [|discriminate].
      unfold SendHeartbeat, SendMessage in H. simpl in H. rewrite Hk in H.
      destruct (net_write k _ _ _) as [[x|] w1]; discriminate.
    + destruct (msgChan (client (world c))); discriminate.
Qed.

(** The client is dialed and armed: it has a connection, its guard and its
    close signal are consistent, its counter is balanced and it has not
    panicked. *)
Definition ready (b : World) (k : Conn) (c : Config) : Prop :=
  guard_inv b c /\ wg_balanced c /\ signal_inv c /\
  conn (client (world c)) = Some k /\ crashed c = None.

Lemma step_keeps_conn (th th' : Thread) (sel : Select) (w w' : World)
    (sp : list Thread) :
  thread_step th sel w = Next th' w' sp ->
  conn (client w') = conn (client w).
Proof.
  intros H. destruct th as [t pc e|pc|pc]; simpl in H.
  - now destruct (Close_step_client t pc e w w' th' sp H) as [-> | ->].
  - apply readMessage_step_same_guard in H as ([] & _). assumption.
  - apply eventLoop_step_same_guard in H as ([] & _). assumption.
Qed.

Lemma signal_inv_spawn (w : World) (l sp : list Thread) :
  signal_inv (mkConfig w l None) -> signal_inv (mkConfig w (l ++ sp) None).
Proof.
  intros (s & Hs & Hwhy). exists s. split; [exact Hs|]. intros Hb.
  destruct (Hwhy Hb) as [H|(i & x & Hi & Hx)]; [now left|right].
  exists i, x. split; [|exact Hx]. now apply lookup_app_l_Some.
Qed.

Lemma ready_exec (b : World) (k : Conn) (a : Action) (c : Config) :
  ready b k c -> ready b k (exec a c).
Proof.
  intros (Hinv & Hb & Hsig & Hk & Hc).
  split; [now apply guard_inv_exec|].
  split; [apply wait_queue_exec; [exact Hb|congruence]|].
  unfold exec, exec_opt. rewrite Hc.
  destruct a as [tid sel|d|t| |]; simpl.
  - destruct (threads c !! tid) as [th|] eqn:Htid; simpl; [|auto].
    destruct (thread_step th sel (world c)) as [|why|th' w' sp] eqn:Hst;
      simpl; [auto| |].
    + exfalso.
      exact (thread_step_no_panic b c k tid th sel why Hinv Hb Hsig Hk Htid Hst).
    + split; [eapply signal_inv_step; eassumption|].
      split; [|reflexivity].
      rewrite <- Hk. eapply step_keeps_conn, Hst.
  - destruct (0 <? d); simpl; [|auto].
    split; [|auto]. destruct Hsig as (s & Hs & Hwhy).
    exists s. split; [exact Hs|]. intros H.
    destruct (Hwhy H) as [H1|(i & x & Hi & Hx)]; [now left|right].
    exists i, x. split; [|exact Hx]. simpl.
    rewrite list_lookup_fmap, Hi. simpl. f_equal.
    destruct x as [t pc e|pc|pc]; [reflexivity|discriminate|discriminate].
  - split; [|auto]. apply signal_inv_spawn. now destruct c.
  - auto.
  - unfold Run. rewrite Hc. split; [|auto].
    apply signal_inv_spawn. destruct c. simpl in *. now subst.
Qed.

Lemma ready_run (b : World) (k : Conn) (acts : list Action) (c : Config) :
  ready b k c -> ready b k (run acts c).
Proof.
  revert c. induction acts as [|a acts IH]; intros c H; [exact H|].
  rewrite run_cons. apply IH, ready_exec, H.
Qed.

(** X8: the statements of a client that was dialed and armed do not panic,
    under any schedule and with any number of calls to [Close]:
    [close(wsClient.closeChan)] is never executed on a closed channel, as
    the guard lets one call run it; the counter of the wait group never
    becomes negative; the connection and the guard are never nil.  The
    signal is raised only when a call has entered the guarded function. *)
Theorem client_does_not_panic (c0 : Config) (k : Conn) (acts : list Action) :
  fresh c0 ->
  wg_balanced c0 ->
  conn (client (world c0)) = Some k ->
  signal (world c0) = Some false ->
  let c := run acts c0 in
  crashed c = None /\
  conn (client (world c)) = Some k /\
  (signal (world c) = Some false \/ signal (world c) = Some true) /\
  (signal (world c) = Some true ->
   (exists o, cur_once (world c) = Some o /\ done o = true) \/
   (exists i th, threads c !! i = Some th /\ past_signal th = true)).
Proof.
  intros Hf Hb Hk Hs c.
  assert (H : ready (world c0) k c).
  { apply ready_run. split; [now apply guard_inv_fresh|].
    split; [exact Hb|]. split; [|split; [exact Hk|apply Hf]].
    exists false. split; [exact Hs|discriminate]. }
  destruct H as (_ & _ & (s & Hs' & Hwhy) & Hk' & Hc).
  split; [exact Hc|]. split; [exact Hk'|]. split.
  - rewrite Hs'. destruct s; auto.
  - intros Ht. apply Hwhy. congruence.
Qed.

Lemma client_does_not_panic_witness :
  crashed (run (solo 0 3 ++ [ActClose CloseActively; ActClose CloseTypeUnknown]
                ++ solo 2 5 ++ solo 3 5 ++ solo 1 9 ++ solo 2 9)
             demo_running) = None.
Proof.
  apply (client_does_not_panic demo_running 0%nat).
  - split; [reflexivity|]. split; [reflexivity|repeat constructor].
  - reflexivity.
  - reflexivity.
  - reflexivity.
Defined.

Lemma signal_raised_exec (b : World) (k : Conn) (a : Action) (c : Config) :
  ready b k c ->
  signal (world c) = Some true -> signal (world (exec a c)) = Some true.
Proof.
  intros (Hinv & _ & _ & _ & Hc) Hs. unfold exec, exec_opt. rewrite Hc.
  destruct Hinv as [_ _ _ _ (o & Ho & _) _].
  destruct a as [tid sel|d|t| |]; simpl; try exact Hs.
  - destruct (threads c !! tid) as [th|] eqn:Htid; simpl; [|exact Hs].
    destruct (thread_step th sel (world c)) as [|why|th' w' sp] eqn:Hst;
      simpl; try exact Hs.
    destruct (is_close_call th) eqn:Hcall.
    + destruct th as [t pc e|pc|pc]; try discriminate. simpl in Hst.
      destruct (Close_step_signal t pc e (world c) w' th' sp o Ho Hst)
        as (pc' & e' & o' & _ & _ & _ &
            [(_ & _ & Hf & _)|[(_ & Hs' & _)|(_ & _ & Hs' & _)]]);
        congruence.
    + rewrite (loop_step_signal th th' sel (world c) w' sp Hcall Hst).
      exact Hs.
  - destruct (0 <? d); exact Hs.
Qed.

Lemma signal_raised_run (b : World) (k : Conn) (acts : list Action)
    (c : Config) :
  ready b k c ->
  signal (world c) = Some true -> signal (world (run acts c)) = Some true.
Proof.
  revert c. induction acts as [|a acts IH]; intros c H Hs; [exact Hs|].
  rewrite run_cons. apply IH; [now apply ready_exec|].
  now apply (signal_raised_exec b k).
Qed.

(** X9: the close signal, once raised, stays raised, and it lets every
    event loop leave.  In every state the program reaches, while the channel
    [closeChan] is open the [closeChan] case of the [select] waits; once it
    is closed it stays closed under every further schedule, and an event
    loop that is in its [select] takes that case, logs its stop, removes its
    registration from the wait group and returns. *)
Theorem eventLoop_leaves_on_signal (c0 : Config) (k : Conn)
    (acts : list Action) :
  fresh c0 ->
  wg_balanced c0 ->
  conn (client (world c0)) = Some k ->
  signal (world c0) = Some false ->
  let c := run acts c0 in
  (signal (world c) = Some false ->
   forall tid tm,
     threads c !! tid = Some (TEvent (ESelect tm)) ->
     exec (ActStep tid SelClose) c = c) /\
  (signal (world c) = Some true ->
   (forall acts', signal (world (run acts' c)) = Some true) /\
   (forall tid tm,
       threads c !! tid = Some (TEvent (ESelect tm)) ->
       run (solo tid 3) c
       = mkConfig
           (with_client (set_closeWait (closeWait (client (world c)) - 1))
              (log LInfo "ws event loop stop" [] (world c)))
           (<[tid := TEvent EExit]> (threads c)) None)).
Proof.
  intros Hf Hb Hk Hs c.
  assert (H : ready (world c0) k c).
  { apply ready_run. split; [now apply guard_inv_fresh|].
    split; [exact Hb|]. split; [|split; [exact Hk|apply Hf]].
    exists false. split; [exact Hs|discriminate]. }
  split.
  - intros Hdown tid tm Htid. unfold exec, exec_opt.
    destruct H as (_ & _ & _ & _ & ->). rewrite Htid. simpl.
    unfold signal in Hdown. now rewrite Hdown.
  - intros Hup. split.
    + intros acts'. now apply (signal_raised_run (world c0) k).
    + intros tid tm Htid.
      destruct H as (_ & Hbal & _ & _ & Hc).
      assert (Hlt : (tid < length (threads c))%nat)
        by (eapply lookup_lt_Some, Htid).
      assert (Hwg : 0 < closeWait (client (world c))).
      { unfold wg_balanced in Hbal. rewrite Hbal.
        pose proof (sum_list_with_in _ registered_loop (threads c)
                      (list_elem_of_lookup_2 _ _ _ Htid)) as Hle.
        simpl in Hle. lia. }
      unfold solo. simpl repeat. rewrite run_cons.
      erewrite (exec_step_alone c);
        [|exact Hc|exact Htid
         |simpl; unfold signal in Hup; rewrite Hup; reflexivity].
      rewrite run_cons.
      erewrite exec_step_alone;
        [|reflexivity|apply list_lookup_insert_eq, Hlt|reflexivity].
      rewrite run_cons.
      erewrite exec_step_alone;
        [|reflexivity
         |simpl; apply list_lookup_insert_eq; rewrite length_insert; exact Hlt
         |].
      * simpl. rewrite !list_insert_insert_eq. reflexivity.
      * simpl. unfold wg_add. simpl.
        destruct (closeWait (client (world c)) + -1 <? 0) eqn:E;
          [apply Z.ltb_lt in E; lia|reflexivity].
Qed.

Lemma eventLoop_leaves_on_signal_witness :
  threads (run (solo 1 3)
             (run (solo 1 3 ++ [ActClose CloseActively] ++ solo 2 6)
                demo_running)) !! 1%nat
  = Some (TEvent EExit).
Proof.
  destruct (eventLoop_leaves_on_signal demo_running 0%nat
              (solo 1 3 ++ [ActClose CloseActively] ++ solo 2 6))
    as (_ & Hup).
  - split; [reflexivity|]. split; [reflexivity|repeat constructor].
  - reflexivity.
  - reflexivity.
  - reflexivity.
  - destruct (Hup eq_refl) as (_ & Hleave).
    rewrite (Hleave 1%nat (mkTimers 0 false false) eq_refl). reflexivity.
Defined.

(** * What the running client does to the outside *)

(** The events a running client may cause, given the connection, the codec,
    the handlers and the callback it has: log lines; on the bound
    connection, close frames with the normal closure code and heartbeat
    messages in binary frames; the close of the bound connection; the
    callback [onClose]; a handler, invoked for the operation code under
    which it is registered.  It never dials. *)
Definition own_event (w : World) (e : Event) : Prop :=
  match e with
  | EvLog _ _ _ => True
  | EvDial _ => False
  | EvWrite c ty data =>
      conn (client w) = Some c /\
      ((ty = websocket.CloseMessage /\
        data = websocket.FormatCloseMessage websocket.CloseNormalClosure []) \/
       (ty = websocket.BinaryMessage /\
        data = ToBytes (codec w) (heartbeatMessage (codec w))))
  | EvConnClose c => conn (client w) = Some c
  | EvOnClose f _ => onClose (client w) = Some f
  | EvHandle op m =>
      op = Operation m /\ is_Some (dispatcher (client w) !! op)
  end.

(** The connection, the codec, the handlers and the callback are the
    same. *)
Definition same_env (w w' : World) : Prop :=
  conn (client w') = conn (client w) /\ codec w' = codec w /\
  dispatcher (client w') = dispatcher (client w) /\
  onClose (client w') = onClose (client w).

(** The trace of [w'] is that of [w] followed by events that satisfy [P]. *)
Definition grows (P : Event -> Prop) (w w' : World) : Prop :=
  exists evs, trace w' = trace w ++ evs /\ Forall P evs.

Lemma same_env_refl (w : World) : same_env w w.
Proof. unfold same_env. auto. Qed.

Lemma same_env_trans (w1 w2 w3 : World) :
  same_env w1 w2 -> same_env w2 w3 -> same_env w1 w3.
Proof.
  unfold same_env. intros (A1 & A2 & A3 & A4) (B1 & B2 & B3 & B4).
  repeat split; congruence.
Qed.

Lemma own_event_env (w w' : World) (e : Event) :
  same_env w w' -> own_event w' e -> own_event w e.
Proof.
  intros (A1 & A2 & A3 & A4). destruct e; simpl; rewrite ?A1, ?A2, ?A3, ?A4;
    auto.
Qed.

Lemma grows_refl (P : Event -> Prop) (w w' : World) :
  trace w' = trace w -> grows P w w'.
Proof. intros H. exists []. rewrite app_nil_r. auto. Qed.

Lemma grows_one (P : Event -> Prop) (w w' : World) (e : Event) :
  trace w' = trace w ++ [e] -> P e -> grows P w w'.
Proof. intros H He. exists [e]. auto. Qed.

Lemma grows_trans (P : Event -> Prop) (w1 w2 w3 : World) :
  grows P w1 w2 -> grows P w2 w3 -> grows P w1 w3.
Proof.
  intros (e1 & H1 & F1) (e2 & H2 & F2). exists (e1 ++ e2).
  split; [now rewrite H2, H1, app_assoc|now apply Forall_app].
Qed.

Lemma grows_env (w0 w w' : World) :
  same_env w0 w -> grows (own_event w) w w' -> grows (own_event w0) w w'.
Proof.
  intros He (evs & H & F). exists evs. split; [exact H|].
  eapply Forall_impl; [exact F|]. intros e. now apply own_event_env.
Qed.

Lemma net_write_outside (c : Conn) (ty : Z) (data : list Z) (w w1 : World)
    (r : option error) :
  net_write c ty data w = (r, w1) ->
  same_env w w1 /\ trace w1 = trace w ++ [EvWrite c ty data].
Proof.
  unfold net_write. destruct (conns w !! c) as [cs|]; [|now intros [= _ <-]].
  destruct (conn_closed cs); [now intros [= _ <-]|].
  destruct (writeErrs cs); now intros [= _ <-].
Qed.

Lemma net_close_outside (c : Conn) (w w1 : World) (r : option error) :
  net_close c w = (r, w1) ->
  same_env w w1 /\ trace w1 = trace w ++ [EvConnClose c].
Proof.
  unfold net_close. destruct (conns w !! c) as [cs|]; now intros [= _ <-].
Qed.

Lemma net_read_outside (c : Conn) (w w1 : World) (r : ReadResult) :
  net_read c w = Some (r, w1) -> same_env w w1 /\ trace w1 = trace w.
Proof.
  unfold net_read. destruct (conns w !! c) as [cs|]; [|now intros [= _ <-]].
  destruct (conn_closed cs); [now intros [= _ <-]|].
  destruct (inbox cs); [discriminate|]. now intros [= _ <-].
Qed.

Lemma wg_add_outside (d : Z) (w w1 : World) :
  wg_add d w = Some w1 -> same_env w w1 /\ trace w1 = trace w.
Proof.
  unfold wg_add. destruct (_ <? 0); [discriminate|]. now intros [= <-].
Qed.

Lemma update_once_outside (f : Once -> Once) (w : World) :
  same_env w (update_once f w) /\ trace (update_once f w) = trace w.
Proof.
  unfold update_once. now destruct (onces w !! once (client w)).
Qed.

Lemma dispatch_outside (msg : option Message) (w : World) :
  same_env w (dispatch msg w) /\ grows (own_event w) w (dispatch msg w).
Proof.
  unfold dispatch. destruct msg as [m|]; [|split; [apply same_env_refl|now apply grows_refl]].
  destruct (dispatcher (client w) !! Operation m) as [h|] eqn:Hh;
    [|split; [apply same_env_refl|now apply grows_refl]].
  assert (Hev : own_event w (EvHandle (Operation m) m)).
  { simpl. split; [reflexivity|]. rewrite Hh. eauto. }
  destruct (h m) as [e|]; (split; [unfold same_env; simpl; auto|]).
  - eexists. split; [simpl; rewrite <- app_assoc; reflexivity|].
    constructor; [exact Hev|repeat constructor].
  - eapply grows_one; [reflexivity|exact Hev].
Qed.

Lemma SendHeartbeat_outside (v w1 : World) (r : option error) :
  SendHeartbeat v = Some (r, w1) ->
  same_env v w1 /\ grows (own_event v) v w1.
Proof.
  unfold SendHeartbeat, SendMessage.
  destruct (conn (client v)) as [c|] eqn:Hc; [|discriminate].
  destruct (net_write c websocket.BinaryMessage _ v) as [x w2] eqn:Hw.
  apply net_write_outside in Hw as (He & Ht).
  intros H. assert (w2 = w1) as -> by (destruct x; congruence).
  split; [exact He|]. eapply grows_one; [exact Ht|].
  simpl. split; [exact Hc|]. right. auto.
Qed.

(** Solves the case of a step whose world is the old one with fields of the
    client changed and at most one event added. *)
Ltac outside_simple :=
  split;
  [unfold same_env; simpl; auto
  |first [apply grows_refl; reflexivity
         |eapply grows_one; [reflexivity|simpl; auto]]].

Lemma outside_update_once (f : Once -> Once) (w : World) :
  same_env w (update_once f w) /\
  grows (own_event w) w (update_once f w).
Proof.
  destruct (update_once_outside f w) as (A & B).
  split; [exact A|now apply grows_refl].
Qed.

Lemma outside_wg_add (d : Z) (w w1 : World) :
  wg_add d w = Some w1 -> same_env w w1 /\ grows (own_event w) w w1.
Proof.
  intros H. apply wg_add_outside in H as (A & B).
  split; [exact A|now apply grows_refl].
Qed.

(** Every step of a goroutine keeps the environment and adds only events
    the client may cause. *)
Lemma step_outside (th th' : Thread) (sel : Select) (w w' : World)
    (sp : list Thread) :
  thread_step th sel w = Next th' w' sp ->
  same_env w w' /\ grows (own_event w) w w'.
Proof.
  intros H. destruct th as [t pc e|pc|pc]; simpl in H.
  - destruct pc; simpl in H.
    + injection H as <- <- <-. outside_simple.
    + destruct (conn (client w)) as [k|] eqn:Hk; [|discriminate].
      destruct (net_write k websocket.CloseMessage _ w) as [x w1] eqn:Hw.
      injection H as <- <- <-.
      apply net_write_outside in Hw as (A & B). split; [exact A|].
      eapply grows_one; [exact B|]. simpl. auto.
    + split_step H; outside_simple.
    + split_step H. apply outside_update_once.
    + split_step H; outside_simple.
    + split_step H. outside_simple.
    + injection H as <- <- <-. outside_simple.
    + split_step H. outside_simple.
    + destruct (conn (client w)) as [k|] eqn:Hk; [|discriminate].
      destruct (net_close k w) as [x w1] eqn:Hw.
      injection H as <- <- <-.
      apply net_close_outside in Hw as (A & B). split; [exact A|].
      eapply grows_one; [exact B|]. exact Hk.
    + destruct (onClose (client w)) as [cb|] eqn:Hcb;
        injection H as <- <- <-; outside_simple.
    + injection H as <- <- <-. apply outside_update_once.
    + injection H as <- <- <-. apply outside_update_once.
    + discriminate.
  - destruct pc; simpl in H.
    + injection H as <- <- <-. outside_simple.
    + split_step H. eapply outside_wg_add; eassumption.
    + split_step H.
      match goal with
      | H : net_read _ _ = Some _ |- _ =>
          apply net_read_outside in H as (A & B)
      end.
      split; [exact A|now apply grows_refl].
    + split_step H; outside_simple.
    + split_step H; outside_simple.
    + injection H as <- <- <-. outside_simple.
    + split_step H. eapply outside_wg_add; eassumption.
    + discriminate.
  - destruct pc; simpl in H.
    + injection H as <- <- <-. outside_simple.
    + split_step H. eapply outside_wg_add; eassumption.
    + injection H as <- <- <-. outside_simple.
    + destruct sel.
      * split_step H. outside_simple.
      * split_step H; outside_simple.
      * destruct (tickC tm); [|discriminate].
        destruct (SendHeartbeat (log LDebug "ws send heartbeat" [] w))
          as [[[err|] w1]|] eqn:Hs; try discriminate;
          injection H as <- <- <-;
          apply SendHeartbeat_outside in Hs as (A & B).
        -- assert (Hv : same_env w (log LDebug "ws send heartbeat" [] w))
             by (unfold same_env; simpl; auto).
           assert (Gv : grows (own_event w) w
                          (log LDebug "ws send heartbeat" [] w))
             by (eapply grows_one; [reflexivity|exact I]).
           split.
           ++ apply (same_env_trans w w1); [eapply same_env_trans; eassumption|].
              unfold same_env; simpl; auto.
           ++ apply (grows_trans _ w w1);
                [apply (grows_trans _ w _ w1 Gv), (grows_env w _ w1 Hv B)|].
              apply (grows_one _ w1 _ (EvLog LError "send heartbeat fail"
                                         [AStr "err" err]));
                [reflexivity|exact I].
        -- assert (Hv : same_env w (log LDebug "ws send heartbeat" [] w))
             by (unfold same_env; simpl; auto).
           assert (Gv : grows (own_event w) w
                          (log LDebug "ws send heartbeat" [] w))
             by (eapply grows_one; [reflexivity|exact I]).
           split; [eapply same_env_trans; eassumption|].
           apply (grows_trans _ w _ w1 Gv), (grows_env w _ w1 Hv B).
      * destruct (msgChan (client w)) as [|msg rest]; [discriminate|].
        injection H as <- <- <-.
        destruct (dispatch_outside msg (with_client (set_msgChan rest) w))
          as (A & B).
        split; [exact A|].
        eapply grows_trans; [apply grows_refl; reflexivity|exact B].
    + injection H as <- <- <-. outside_simple.
    + split_step H. eapply outside_wg_add; eassumption.
    + discriminate.
Qed.

Lemma outside_run (w0 : World) (acts : list Action) (c : Config) :
  same_env w0 (world c) /\ grows (own_event w0) w0 (world c) ->
  same_env w0 (world (run acts c)) /\
  grows (own_event w0) w0 (world (run acts c)).
Proof.
  apply (run_preserves
           (fun c => same_env w0 (world c) /\
                     grows (own_event w0) w0 (world c))); clear c acts.
  - intros c why H _. exact H.
  - intros c tid sel th th' w' sp (He & Hg) _ _ Hst. simpl.
    destruct (step_outside th th' sel (world c) w' sp Hst) as (A & B).
    split; [eapply same_env_trans; eassumption|].
    eapply grows_trans; [exact Hg|]. now apply (grows_env w0 (world c)).
  - intros c d H _. exact H.
  - intros c ths H _ _ _. exact H.
  - intros c (He & Hg) _. simpl. split.
    + eapply same_env_trans; [exact He|]. unfold same_env. simpl. auto.
    + eapply grows_trans; [exact Hg|]. now apply grows_refl.
Qed.

(** X10: what a running client does to the outside.  Under every schedule,
    from any state, the events the program adds are log lines and: on the
    connection the client is bound to, close frames with the normal closure
    code and heartbeat messages in binary frames, and nothing else; the
    close of that connection and of no other; the callback that is set; a
    handler, invoked with a message under whose operation code it is
    registered.  The program never dials, and it keeps its connection, its
    handlers and its callback. *)
Theorem client_events (c0 : Config) (acts : list Action) :
  let c := run acts c0 in
  conn (client (world c)) = conn (client (world c0)) /\
  dispatcher (client (world c)) = dispatcher (client (world c0)) /\
  onClose (client (world c)) = onClose (client (world c0)) /\
  exists evs,
    trace (world c) = trace (world c0) ++ evs /\
    Forall (own_event (world c0)) evs.
Proof.
  intros c.
  destruct (outside_run (world c0) acts c0) as ((A & _ & B & C) & D).
  { split; [apply same_env_refl|now apply grows_refl]. }
  auto.
Qed.

(** * From the peer to the handlers *)

(** The frames [ReadMessage] can still return: those the peer has sent on
    the bound connection, while it is open. *)
Definition incoming (w : World) : list ReadResult :=
  match conn (client w) with
  | None => []
  | Some k =>
      match conns w !! k with
      | Some cs => if conn_closed cs then [] else inbox cs
      | None => []
      end
  end.

(** The messages [readMessage] queues when it reads the frames [frames]: a
    frame read with an error and a close frame end the loop, ping and pong
    frames and frames that cannot be unpacked are skipped. *)
Fixpoint stream (cd : Codec) (frames : list ReadResult) : list Message :=
  match frames with
  | [] => []
  | r :: rest =>
      match r_err r with
      | Some _ => []
      | None =>
          if r_msgType r =? websocket.CloseMessage then []
          else if (r_msgType r =? websocket.PongMessage)
                  || (r_msgType r =? websocket.PingMessage)
          then stream cd rest
          else match UnpackMessage cd (r_buf r) with
               | inl _ => stream cd rest
               | inr msgList => msgList ++ stream cd rest
               end
      end
  end.

(** The messages a reader at [pc] has yet to queue. *)
Definition in_flight (cd : Codec) (pc : ReaderPc) (frames : list ReadResult)
  : list Message :=
  match pc with
  | RStart | RAdd | RRead => stream cd frames
  | RGot r => stream cd (r :: frames)
  | RPush msgs => msgs ++ stream cd frames
  | RDeferLog | RDeferDone | RExit => []
  end.

(** The messages in the queue. *)
Definition queued (w : World) : list Message := omap id (msgChan (client w)).

(** The messages on their way to the handlers. *)
Definition on_the_way (pc : ReaderPc) (w : World) : list Message :=
  queued w ++ in_flight (codec w) pc (incoming w).



Lemma on_the_way_log (pc : ReaderPc) (lvl : Level) (msg : string)
    (attrs : list Attr) (w : World) :
  on_the_way pc (log lvl msg attrs w) = on_the_way pc w.
Proof. reflexivity. Qed.





















